(** * UrbanTaskManager: the assignment engine of [app.py]

    A shallow embedding of the Flask/SQLAlchemy backend: the models
    ([Resource], [Task], [Assignment]), [haversine], [current_load],
    [greedy_scheduler] and the two handlers that trigger it ([add_task],
    [run_scheduler]), followed by the properties of the engine.

    Python [float]s are IEEE 754 binary64 numbers and are embedded as Rocq's
    primitive floats, which implement the same format and rounding.  Python
    [int]s are unbounded and are embedded as [Z].  An exception is a value
    [Raised e]; code that touches the database threads the tables through
    explicitly. *)

From Stdlib Require Import Reals Lra.
From Stdlib Require Import ZArith String List Bool Lia Floats.
From Stdlib Require Import Permutation Sorted.
Import ListNotations.

Set Warnings "-inexact-float,-register-all".
Local Open Scope Z_scope.

(** ** Exceptions and results *)

Inductive exn : Type :=
| KeyError (key : string)
| TypeError
| ValueError
| OverflowError
| ZeroDivisionError
| DBAPIError.

Inductive outcome (A : Type) : Type :=
| Returned (a : A)
| Raised (e : exn).

Arguments Returned {A} a.
Arguments Raised {A} e.

Definition bind {A B : Type} (c : outcome A) (k : A -> outcome B) : outcome B :=
  match c with
  | Returned a => k a
  | Raised e => Raised e
  end.

Notation "x <- c ;; k" := (bind c (fun x => k))
  (at level 61, c at next level, right associativity).

(** ** Numbers *)

(** [float(n)] for an [int] [n]: the nearest binary64 number, ties to even;
    an [int] beyond the range of the format raises. *)
Definition float_of_Z (z : Z) : outcome float :=
  let f := SF2Prim (binary_normalize prec emax z 0 false) in
  if is_infinity f then Raised OverflowError else Returned f.

(** [a / b] on two [int]s (true division): the correctly rounded quotient. *)
Definition int_truediv (a b : Z) : outcome float :=
  let negate := xorb (a <? 0) (b <? 0) in
  match Z.abs a, Z.abs b with
  | _, Z0 => Raised ZeroDivisionError
  | Zpos ma, Zpos mb =>
      let '(q, e, l) := SFdiv_core_binary prec emax (Zpos ma) 0 (Zpos mb) 0 in
      let f := SF2Prim (binary_round_aux prec emax negate q e l) in
      if is_infinity f then Raised OverflowError else Returned f
  | _, _ => Returned (if negate then neg_zero else zero)
  end.

(** The integer part of a finite binary64 number, rounded toward zero
    and toward minus infinity. *)
Definition SF_trunc (x : spec_float) : Z :=
  match x with
  | S754_finite s m (Zneg p) => cond_Zopp s (Z.quot (Zpos m) (2 ^ Zpos p))
  | S754_finite s m e => cond_Zopp s (Zpos m * 2 ^ e)
  | _ => 0
  end.

Definition SF_floor (x : spec_float) : Z :=
  match x with
  | S754_finite s m (Zneg p) => Z.div (cond_Zopp s (Zpos m)) (2 ^ Zpos p)
  | S754_finite s m e => cond_Zopp s (Zpos m * 2 ^ e)
  | _ => 0
  end.

Definition floor (x : float) : Z := SF_floor (Prim2SF x).

(** [int(x)] for a [float] [x]. *)
Definition int_of_float (x : float) : outcome Z :=
  if is_nan x then Raised ValueError
  else if is_infinity x then Raised OverflowError
  else Returned (SF_trunc (Prim2SF x)).

(** ** Python values of a decoded JSON body *)

Inductive pyval : Type :=
| PNone
| PBool (b : bool)
| PInt (z : Z)
| PFloat (f : float)
| PStr (s : string)
| PList (l : list pyval)
| PDict (d : list (string * pyval)).

Fixpoint lookup (k : string) (d : list (string * pyval)) : option pyval :=
  match d with
  | [] => None
  | (k', v) :: d' => if String.eqb k k' then Some v else lookup k d'
  end.

(** [d[k]] *)
Definition getitem (d : pyval) (k : string) : outcome pyval :=
  match d with
  | PDict kv =>
      match lookup k kv with
      | Some v => Returned v
      | None => Raised (KeyError k)
      end
  | _ => Raised TypeError
  end.

(** [d.get(k, default)], reached only when [d] is a dict *)
Definition dict_get (d : pyval) (k : string) (default : pyval) : outcome pyval :=
  match d with
  | PDict kv =>
      match lookup k kv with
      | Some v => Returned v
      | None => Returned default
      end
  | _ => Raised TypeError
  end.

(** ** Models

    The three tables.  The time stamps [created_at] and [assigned_at] are
    written once from the wall clock and never read by the engine; they are
    left out.  [title] and [description] hold whatever value the request
    carried. *)

Module Resource.
Record t : Type := {
  id : Z;
  name : string;
  type : string;
  lat : option float;
  lon : option float;
  capacity : Z
}.
End Resource.

Module Task.
Record t : Type := {
  id : Z;
  title : pyval;
  description : pyval;
  lat : option float;
  lon : option float;
  urgency : Z;
  status : string
}.

Definition with_status (s : string) (x : t) : t :=
  {| id := id x; title := title x; description := description x;
     lat := lat x; lon := lon x; urgency := urgency x; status := s |}.
End Task.

Module Assignment.
Record t : Type := {
  id : Z;
  task_id : Z;
  resource_id : Z;
  eta_minutes : Z
}.
End Assignment.

(** The database: each table in the order its rows are returned. *)
Record Db : Type := {
  resources : list Resource.t;
  tasks : list Task.t;
  assignments : list Assignment.t
}.

(** The row id SQLite gives to the next inserted row. *)
Definition next_id (ids : list Z) : Z := 1 + fold_right Z.max 0 ids.

(** What [sqlite3] accepts for an INTEGER and stores for a REAL:
    a 64-bit signed integer, and NULL in place of a NaN. *)
Definition sqlite_int (z : Z) : outcome Z :=
  if (- 2 ^ 63 <=? z) && (z <? 2 ^ 63) then Returned z else Raised OverflowError.

Definition sqlite_real (x : float) : option float :=
  if is_nan x then None else Some x.

Definition sqlite_bind (v : pyval) : outcome pyval :=
  match v with
  | PList _ | PDict _ => Raised DBAPIError
  | PInt z => _ <- sqlite_int z ;; Returned v
  | _ => Returned v
  end.

(** ** The scheduler's data *)

(** [current_load]: [Assignment.query.filter_by(resource_id=res_id).count()] *)
Definition count_rows (rows : list Assignment.t) (res_id : Z) : Z :=
  Z.of_nat (length (filter (fun a => Assignment.resource_id a =? res_id) rows)).

Definition current_load (db : Db) (res_id : Z) : Z :=
  count_rows (assignments db) res_id.

(** The loop variables [best], [best_score], [best_dist]. *)
Record Pick : Type := {
  best : option Resource.t;
  best_score : float;
  best_dist : option float
}.

(** An element of the list [out]. *)
Record Entry : Type := {
  entry_task : pyval;
  entry_resource : string;
  entry_eta : Z
}.

(** [sorted(l, key=key)]: ascending in the key, equal keys in their
    original order. *)
Section Sorted.
Context {A : Type} (key : A -> Z).

Fixpoint insert (x : A) (l : list A) : list A :=
  match l with
  | [] => [x]
  | y :: l' => if key y <? key x then y :: insert x l' else x :: y :: l'
  end.

Definition sorted (l : list A) : list A := fold_right insert [] l.
End Sorted.

(** A [for] loop whose body may raise. *)
Fixpoint for_each {A S : Type} (body : S -> A -> outcome S) (l : list A) (s : S)
  : outcome S :=
  match l with
  | [] => Returned s
  | x :: l' => s' <- body s x ;; for_each body l' s'
  end.

(** ** The platform

    What the interpreter takes from the C library and from its own text
    parsers: the model leaves these functions open.  [math.sqrt] is the
    correctly rounded IEEE operation and needs no entry. *)
Record Platform : Type := {
  libm_sin : float -> float;
  libm_cos : float -> float;
  libm_atan2 : float -> float -> float;
  libm_pow : float -> float -> float;
  float_of_string : string -> option float;
  int_of_string : string -> option Z
}.

Section Engine.

Variable P : Platform.

(** [float(v)] and [int(v)] *)
Definition py_float (v : pyval) : outcome float :=
  match v with
  | PFloat f => Returned f
  | PInt z => float_of_Z z
  | PBool b => Returned (if b then 1 else 0)%float
  | PStr s =>
      match float_of_string P s with
      | Some f => Returned f
      | None => Raised ValueError
      end
  | PNone | PList _ | PDict _ => Raised TypeError
  end.

Definition py_int (v : pyval) : outcome Z :=
  match v with
  | PInt z => Returned z
  | PBool b => Returned (if b then 1 else 0)
  | PFloat f => int_of_float f
  | PStr s =>
      match int_of_string P s with
      | Some z => Returned z
      | None => Raised ValueError
      end
  | PNone | PList _ | PDict _ => Raised TypeError
  end.

(** *** The [math] module *)

(** One-argument wrapper of [mathmodule.c]: a NaN that does not come from a
    NaN, or an infinity from a finite argument, is a domain error. *)
Definition math_1 (f : float -> float) (x : float) : outcome float :=
  let r := f x in
  if is_nan r && negb (is_nan x) then Raised ValueError
  else if is_infinity r && is_finite x then Raised ValueError
  else Returned r.

Definition math_2 (f : float -> float -> float) (x y : float) : outcome float :=
  let r := f x y in
  if is_nan r && negb (is_nan x) && negb (is_nan y) then Raised ValueError
  else if is_infinity r && is_finite x && is_finite y then Raised OverflowError
  else Returned r.

Definition math_sin : float -> outcome float := math_1 (libm_sin P).
Definition math_cos : float -> outcome float := math_1 (libm_cos P).
Definition math_sqrt : float -> outcome float := math_1 PrimFloat.sqrt.
Definition math_atan2 : float -> float -> outcome float := math_2 (libm_atan2 P).

Definition degToRad : float := (3.141592653589793 / 180)%float.

(** A [Float] column holds a [float] or NULL, read back as [None]. *)
Definition math_radians (x : option float) : outcome float :=
  match x with
  | Some x => Returned (x * degToRad)%float
  | None => Raised TypeError
  end.

Definition float_sub (x y : option float) : outcome (option float) :=
  match x, y with
  | Some x, Some y => Returned (Some (x - y)%float)
  | _, _ => Raised TypeError
  end.

(** [x ** 2] on a [float]: the special cases of [float_pow], then the
    platform's [pow] on the absolute value. *)
Definition float_pow2 (x : float) : outcome float :=
  if is_nan x then Returned x
  else if is_infinity x then Returned infinity
  else if is_zero x then Returned zero
  else
    let v := abs x in
    if (v =? 1)%float then Returned 1%float
    else
      let r := libm_pow P v 2%float in
      if is_infinity r then Raised OverflowError else Returned r.

Definition haversine (lat1 lon1 lat2 lon2 : option float) : outcome float :=
  phi1 <- math_radians lat1 ;;
  phi2 <- math_radians lat2 ;;
  dlat <- float_sub lat2 lat1 ;;
  dphi <- math_radians dlat ;;
  dlon <- float_sub lon2 lon1 ;;
  dl <- math_radians dlon ;;
  s1 <- math_sin (dphi / 2)%float ;;
  p1 <- float_pow2 s1 ;;
  c1 <- math_cos phi1 ;;
  c2 <- math_cos phi2 ;;
  s2 <- math_sin (dl / 2)%float ;;
  p2 <- float_pow2 s2 ;;
  let a := (p1 + c1 * c2 * p2)%float in
  q1 <- math_sqrt a ;;
  q2 <- math_sqrt (1 - a)%float ;;
  t <- math_atan2 q1 q2 ;;
  Returned (12742 * t)%float.

(** *** The scheduler *)

Definition score (urgency : Z) (d : float) (load capacity : Z) : outcome float :=
  u <- int_truediv urgency 10 ;;
  l <- int_truediv load capacity ;;
  Returned (0.6 * u - 0.3 * (d / 20) - 0.1 * l)%float.

(** The body of [for r in res]. *)
Definition consider (db : Db) (t : Task.t) (acc : Pick) (r : Resource.t)
  : outcome Pick :=
  let load := current_load db (Resource.id r) in
  if load >=? Resource.capacity r then Returned acc
  else
    d <- haversine (Task.lat t) (Task.lon t) (Resource.lat r) (Resource.lon r) ;;
    sc <- score (Task.urgency t) d load (Resource.capacity r) ;;
    if (best_score acc <? sc)%float
    then Returned {| best := Some r; best_score := sc; best_dist := Some d |}
    else Returned acc.

Definition no_pick : Pick :=
  {| best := None; best_score := (-999)%float; best_dist := None |}.

Definition select (db : Db) (t : Task.t) : outcome Pick :=
  for_each (consider db t) (resources db) no_pick.

Definition eta_of (best_dist : float) : outcome Z :=
  n <- int_of_float (best_dist / 30 * 60)%float ;;
  Returned (n + 5).

Definition mark_assigned (task_id : Z) (ts : list Task.t) : list Task.t :=
  map (fun x => if Task.id x =? task_id then Task.with_status "assigned" x else x) ts.

(** [db.session.add(a); db.session.commit()] with [t.status = "assigned"]
    pending in the session. *)
Definition commit_assignment (db : Db) (t : Task.t) (r : Resource.t) (eta : Z)
  : outcome Db :=
  eta' <- sqlite_int eta ;;
  let a := {| Assignment.id := next_id (map Assignment.id (assignments db));
              Assignment.task_id := Task.id t;
              Assignment.resource_id := Resource.id r;
              Assignment.eta_minutes := eta' |} in
  Returned {| resources := resources db;
              tasks := mark_assigned (Task.id t) (tasks db);
              assignments := assignments db ++ [a] |}.

(** The body of [for t in sorted(...)]: the new database and what is
    appended to [out].  Whatever raises does so before the commit. *)
Definition schedule_task (db : Db) (t : Task.t) : outcome (Db * list Entry) :=
  p <- select db t ;;
  match best p with
  | Some r =>
      match best_dist p with
      | Some d =>
          eta <- eta_of d ;;
          db' <- commit_assignment db t r eta ;;
          Returned (db', [ {| entry_task := Task.title t;
                              entry_resource := Resource.name r;
                              entry_eta := eta |} ])
      | None => Raised TypeError
      end
  | None => Returned (db, [])
  end.

(** The outer loop.  An exception ends the pass and leaves the commits
    already made in place. *)
Fixpoint run_tasks (ts : list Task.t) (db : Db) (out : list Entry)
  : outcome (list Entry) * Db :=
  match ts with
  | [] => (Returned out, db)
  | t :: ts' =>
      match schedule_task db t with
      | Returned (db', o) => run_tasks ts' db' (out ++ o)
      | Raised e => (Raised e, db)
      end
  end.

Definition pending (db : Db) : list Task.t :=
  filter (fun t => String.eqb (Task.status t) "pending") (tasks db).

Definition processing_order (db : Db) : list Task.t :=
  sorted (fun x => - Task.urgency x) (pending db).

Definition greedy_scheduler (db : Db) : outcome (list Entry) * Db :=
  run_tasks (processing_order db) db [].

(** *** The routes that write *)

Definition new_task (d : pyval)
  : outcome (pyval * pyval * float * float * Z) :=
  title <- getitem d "title" ;;
  description <- dict_get d "description" (PStr "") ;;
  lat_v <- getitem d "lat" ;;
  lat <- py_float lat_v ;;
  lon_v <- getitem d "lon" ;;
  lon <- py_float lon_v ;;
  urgency_v <- getitem d "urgency" ;;
  urgency <- py_int urgency_v ;;
  Returned (title, description, lat, lon, urgency).

(** [db.session.add(task); db.session.commit()]: the new row and its id. *)
Definition commit_task (db : Db) (f : pyval * pyval * float * float * Z)
  : outcome (Db * Z) :=
  let '(title, description, lat, lon, urgency) := f in
  title' <- sqlite_bind title ;;
  description' <- sqlite_bind description ;;
  urgency' <- sqlite_int urgency ;;
  let i := next_id (map Task.id (tasks db)) in
  let task := {| Task.id := i; Task.title := title';
                 Task.description := description';
                 Task.lat := sqlite_real lat; Task.lon := sqlite_real lon;
                 Task.urgency := urgency'; Task.status := "pending" |} in
  Returned ({| resources := resources db;
               tasks := tasks db ++ [task];
               assignments := assignments db |}, i).

(** [add_task]: the id it answers with, or the exception it ends in, and
    the database it leaves. *)
Definition add_task (d : pyval) (db : Db) : outcome Z * Db :=
  match new_task d with
  | Raised e => (Raised e, db)
  | Returned f =>
      match commit_task db f with
      | Raised e => (Raised e, db)
      | Returned (db', i) =>
          match greedy_scheduler db' with
          | (Returned _, db'') => (Returned i, db'')
          | (Raised e, db'') => (Raised e, db'')
          end
      end
  end.

(** [run_scheduler]: the list [assigned] and [count]. *)
Definition run_scheduler (db : Db) : outcome (list Entry * Z) * Db :=
  match greedy_scheduler db with
  | (Returned out, db') => (Returned (out, Z.of_nat (length out)), db')
  | (Raised e, db') => (Raised e, db')
  end.

Inductive request : Type :=
| POST_add_task (body : pyval)
| POST_schedule.

Definition handle (db : Db) (req : request) : Db :=
  match req with
  | POST_add_task body => snd (add_task body db)
  | POST_schedule => snd (run_scheduler db)
  end.

Definition serve (reqs : list request) (db : Db) : Db :=
  fold_left handle reqs db.

End Engine.

(** Flask answers 200 for a view that returns and 500 for an exception
    that no handler catches. *)
Definition http_status {A : Type} (o : outcome A) : Z :=
  match o with
  | Returned _ => 200
  | Raised _ => 500
  end.

Definition is_4xx (code : Z) : Prop := 400 <= code < 500.

(** *** The routes that read *)

(** [Assignment.query.filter_by(task_id=...).order_by(Assignment.id.desc())
    .first()]: among the rows of the task, the one with the greatest id. *)
Definition newer (acc : option Assignment.t) (a : Assignment.t)
  : option Assignment.t :=
  match acc with
  | Some b => if Assignment.id b <? Assignment.id a then Some a else acc
  | None => Some a
  end.

Definition latest_assignment (db : Db) (task_id : Z) : option Assignment.t :=
  fold_left newer
    (filter (fun a => Assignment.task_id a =? task_id) (assignments db)) None.

(** [Resource.query.get(res_id)] *)
Definition get_resource (db : Db) (res_id : Z) : option Resource.t :=
  find (fun r => Resource.id r =? res_id) (resources db).

(** An element of the array [list_tasks] answers with. *)
Record TaskView : Type := {
  view_id : Z;
  view_title : pyval;
  view_urgency : Z;
  view_status : string;
  view_resource : option string;
  view_eta : option Z
}.

Definition task_view (db : Db) (t : Task.t) : TaskView :=
  let assign := latest_assignment db (Task.id t) in
  {| view_id := Task.id t;
     view_title := Task.title t;
     view_urgency := Task.urgency t;
     view_status := Task.status t;
     view_resource :=
       match assign with
       | Some a =>
           match get_resource db (Assignment.resource_id a) with
           | Some res => Some (Resource.name res)
           | None => None
           end
       | None => None
       end;
     view_eta :=
       match assign with
       | Some a => Some (Assignment.eta_minutes a)
       | None => None
       end |}.

Definition list_tasks (db : Db) : list TaskView := map (task_view db) (tasks db).

(** An element of the array [list_resources] answers with. *)
Record ResourceView : Type := {
  shown_id : Z;
  shown_name : string;
  shown_capacity : Z;
  shown_current_load : Z
}.

Definition list_resources (db : Db) : list ResourceView :=
  map (fun x => {| shown_id := Resource.id x;
                   shown_name := Resource.name x;
                   shown_capacity := Resource.capacity x;
                   shown_current_load := current_load db (Resource.id x) |})
      (resources db).

(** *** The initial database *)

(** [db.session.add(Resource(...))] followed by the commit: the row takes
    the next id of its table. *)
Definition add_resource (rs : list Resource.t) (name type : string)
    (lat lon : float) (capacity : Z) : list Resource.t :=
  rs ++ [ {| Resource.id := next_id (map Resource.id rs);
             Resource.name := name; Resource.type := type;
             Resource.lat := sqlite_real lat; Resource.lon := sqlite_real lon;
             Resource.capacity := capacity |} ].

Definition seed_data (db : Db) : Db :=
  {| resources :=
       add_resource
         (add_resource
            (add_resource (resources db)
               "Team A" "maintenance" 17.435 78.444 2)
            "Team B" "waste" 17.430 78.450 1)
         "Team C" "emergency" 17.440 78.430 1;
     tasks := tasks db;
     assignments := assignments db |}.

(** [init_db]: [exists] is what [os.path.exists(BASE_DB)] answers and [db]
    the tables [create_all] leaves. *)
Definition init_db (seed : bool) (exists_ : bool) (db : Db) : Db :=
  let first := negb exists_ in
  if seed && first then seed_data db else db.

Definition empty_db : Db :=
  {| resources := []; tasks := []; assignments := [] |}.

(** ** Properties stated below *)

(** Primary key of [Resource]. *)
Definition resource_ids_unique (db : Db) : Prop :=
  NoDup (map Resource.id (resources db)).

(** No resource with a positive capacity holds more assignments than its
    capacity. *)
Definition capacity_ok (db : Db) : Prop :=
  forall r, In r (resources db) -> 0 < Resource.capacity r ->
    current_load db (Resource.id r) <= Resource.capacity r.

(** Every row of [new], appended after [old], was created for a resource
    of [rs] that held fewer rows than its capacity at that moment. *)
Definition guarded (rs : list Resource.t) (old new : list Assignment.t) : Prop :=
  forall pre a post, new = pre ++ a :: post ->
    exists r, In r rs /\ Resource.id r = Assignment.resource_id a /\
              count_rows (old ++ pre) (Resource.id r) < Resource.capacity r.

(** [db'] is [db] after some commits of the engine. *)
Definition extends (db db' : Db) : Prop :=
  resources db' = resources db /\
  exists new, assignments db' = assignments db ++ new /\
              guarded (resources db) (assignments db) new.

(** What the inner loop has established about its current choice. *)
Definition picked (P : Platform) (db : Db) (t : Task.t) (p : Pick) : Prop :=
  match best p with
  | None => best_score p = (-999)%float
  | Some r =>
      In r (resources db) /\
      current_load db (Resource.id r) < Resource.capacity r /\
      exists d, best_dist p = Some d /\
        haversine P (Task.lat t) (Task.lon t) (Resource.lat r) (Resource.lon r)
          = Returned d /\
        score (Task.urgency t) d (current_load db (Resource.id r))
              (Resource.capacity r) = Returned (best_score p)
  end.

(** The fields [add_task] reads with [d[...]]. *)
Definition required_fields : list string :=
  ["title"; "lat"; "lon"; "urgency"]%string.

(** A body that lacks a required field, or whose [lat], [lon] or
    [urgency] is refused by [float] or [int]. *)
Definition invalid_body (P : Platform) (kv : list (string * pyval)) : Prop :=
  (exists k, In k required_fields /\ lookup k kv = None) \/
  (exists v e, lookup "lat" kv = Some v /\ py_float P v = Raised e) \/
  (exists v e, lookup "lon" kv = Some v /\ py_float P v = Raised e) \/
  (exists v e, lookup "urgency" kv = Some v /\ py_int P v = Raised e).

(** What C99 (Annex F) fixes for every libm at the origin. *)
Definition exact_at_zero (P : Platform) : Prop :=
  libm_sin P 0%float = 0%float /\
  libm_cos P 0%float = 1%float /\
  libm_atan2 P 0%float 1%float = 0%float.

(** Signs of binary64 numbers: [not_neg] leaves out the negative numbers
    and minus infinity, [no_sign] leaves out -0 as well.  A NaN passes
    both. *)
Definition not_neg (x : float) : Prop :=
  match Prim2SF x with
  | S754_finite true _ _ | S754_infinity true => False
  | _ => True
  end.

Definition no_sign (x : float) : Prop :=
  match Prim2SF x with
  | S754_finite true _ _ | S754_infinity true | S754_zero true => False
  | _ => True
  end.

(** What C99 (Annex F) fixes for [atan2] on the closed first quadrant:
    with [y] not negative and [x] neither negative nor -0, the angle is
    not negative. *)
Definition atan2_first_quadrant (P : Platform) : Prop :=
  forall y x, not_neg y -> no_sign x -> not_neg (libm_atan2 P y x).

(** The row [a] pairs a task that was pending in [db] with a resource of
    [db], and its ETA is the one of the distance between them. *)
Definition eta_matches (P : Platform) (db : Db) (a : Assignment.t) : Prop :=
  exists t r d,
    In t (pending db) /\ In r (resources db) /\
    Assignment.task_id a = Task.id t /\
    Assignment.resource_id a = Resource.id r /\
    haversine P (Task.lat t) (Task.lon t) (Resource.lat r) (Resource.lon r)
      = Returned d /\
    Assignment.eta_minutes a = floor (d / 30 * 60)%float + 5.

(** Primary keys of [Task] and [Assignment]. *)
Definition task_ids_unique (db : Db) : Prop :=
  NoDup (map Task.id (tasks db)).

Definition assignment_ids_unique (db : Db) : Prop :=
  NoDup (map Assignment.id (assignments db)).

(** Every assignment row names a task and a resource of the tables. *)
Definition rows_refer (db : Db) : Prop :=
  forall a, In a (assignments db) ->
    In (Assignment.task_id a) (map Task.id (tasks db)) /\
    In (Assignment.resource_id a) (map Resource.id (resources db)).

(** No row names a task that is still pending, and no two rows name the
    same task. *)
Definition pending_unassigned (db : Db) : Prop :=
  forall t a, In t (tasks db) -> In a (assignments db) ->
    Task.status t = "pending"%string ->
    Assignment.task_id a <> Task.id t.

Definition one_row_per_task (db : Db) : Prop :=
  NoDup (map Assignment.task_id (assignments db)).

(** The tasks and their rows agree: what the engine keeps when it is the
    only writer. *)
Definition tasks_consistent (db : Db) : Prop :=
  task_ids_unique db /\
  (forall a, In a (assignments db) ->
     In (Assignment.task_id a) (map Task.id (tasks db))) /\
  pending_unassigned db /\
  one_row_per_task db.

(** Loads within capacity for every resource, and the capacity of the
    whole table. *)
Definition within_capacity (db : Db) : Prop :=
  forall r, In r (resources db) ->
    current_load db (Resource.id r) <= Resource.capacity r.

Definition total_capacity (db : Db) : Z :=
  fold_right Z.add 0 (map Resource.capacity (resources db)).

(** [r] passes the load test of the inner loop, and [sc] is the score the
    loop computes for it. *)
Definition feasible (db : Db) (r : Resource.t) : Prop :=
  current_load db (Resource.id r) < Resource.capacity r.

Definition scored (P : Platform) (db : Db) (t : Task.t) (r : Resource.t)
    (sc : float) : Prop :=
  exists d,
    haversine P (Task.lat t) (Task.lon t) (Resource.lat r) (Resource.lon r)
      = Returned d /\
    score (Task.urgency t) d (current_load db (Resource.id r))
          (Resource.capacity r) = Returned sc.

(** A task row after some requests: as it was, or marked assigned. *)
Definition advanced (x y : Task.t) : Prop :=
  y = x \/ y = Task.with_status "assigned" x.

(** An entry of [out] and the row committed with it. *)
Definition entry_of_row (db : Db) (e : Entry) (a : Assignment.t) : Prop :=
  entry_eta e = Assignment.eta_minutes a /\
  exists t r,
    In t (pending db) /\ In r (resources db) /\
    Assignment.task_id a = Task.id t /\
    Assignment.resource_id a = Resource.id r /\
    entry_task e = Task.title t /\
    entry_resource e = Resource.name r.

(** [l1] keeps some of the elements of [l2], in the order of [l2]. *)
Inductive subsequence {A : Type} : list A -> list A -> Prop :=
| subsequence_nil : subsequence [] []
| subsequence_skip x l1 l2 : subsequence l1 l2 -> subsequence l1 (x :: l2)
| subsequence_take x l1 l2 : subsequence l1 l2 -> subsequence (x :: l1) (x :: l2).

(** *** Values of binary64 numbers

    Powers of two, and the value of a mantissa at an exponent. *)
Definition B2 (e : Z) : R := powerRZ 2 e.
Definition val (m e : Z) : R := (IZR m * B2 e)%R.

(** Where [y], measured in units of the last place, lies against the
    integer [m]; [located] is [position] for a number [x] at exponent [e]. *)
Definition position (m : Z) (l : location) (y : R) : Prop :=
  match l with
  | loc_Exact => y = IZR m
  | loc_Inexact Lt => (IZR m < y < IZR m + / 2)%R
  | loc_Inexact Eq => y = (IZR m + / 2)%R
  | loc_Inexact Gt => (IZR m + / 2 < y < IZR m + 1)%R
  end.

Definition located (m e : Z) (l : location) (x : R) : Prop :=
  position m l (x * B2 (- e))%R.

(** The representable reals, the two bounds [2 ^ emax] standing for the
    infinities. *)
Definition inG (g : R) : Prop :=
  exists m e, Z.abs m < 2 ^ prec /\ SpecFloat.emin prec emax <= e /\
              g = val m e /\ (- B2 emax <= g <= B2 emax)%R.

(** No representable real is strictly closer to [x] than [r]. *)
Definition between (r x : R) : Prop :=
  forall g, inG g ->
    ((g < r -> g + r <= 2 * x) /\ (r < g -> 2 * x <= r + g))%R.

Definition nearest (r x : R) : Prop := inG r /\ between r x.

(** The real number a float stands for; an infinity counts as the bound. *)
Definition signed (s : bool) (x : R) : R := if s then (- x)%R else x.

Definition SFR (f : spec_float) : R :=
  match f with
  | S754_zero _ | S754_nan => 0%R
  | S754_infinity s => signed s (B2 emax)
  | S754_finite s m e => signed s (val (Zpos m) e)
  end.

Definition SFnan (f : spec_float) : bool :=
  match f with S754_nan => true | _ => false end.

Definition SFfin (f : spec_float) : bool :=
  match f with S754_zero _ | S754_finite _ _ _ => true | _ => false end.

Definition FR (x : float) : R := SFR (Prim2SF x).

(** The floats that are numbers, and the numbers of [-1, 1]. *)
Definition number (x : float) : Prop := SFnan (Prim2SF x) = false.
Definition in_unit (x : float) : Prop := number x /\ (-1 <= FR x <= 1)%R.

(** The sine and the cosine of the platform never leave [-1, 1]. *)
Definition unit_range (P : Platform) : Prop :=
  forall x,
    ((libm_sin P x <? -1) = false /\ (1 <? libm_sin P x) = false)%float /\
    ((libm_cos P x <? -1) = false /\ (1 <? libm_cos P x) = false)%float.

(** The square of a number of [0, 1], as the platform's [pow] gives it,
    is a number of [0, 1]. *)
Definition square_in_unit (P : Platform) : Prop :=
  forall v, (0 <=? v)%float = true -> (v <=? 1)%float = true ->
    (0 <=? libm_pow P v 2)%float = true /\ (libm_pow P v 2 <=? 1)%float = true.

(** A coordinate read from a row that is a finite number. *)
Definition finite_coordinate (x : option float) : Prop :=
  match x with Some v => is_finite v = true | None => False end.

(** Closes a goal about the results of comparisons. *)
Ltac close_compare :=
  intros;
  repeat match goal with
         | H : Some _ = Some _ |- _ => injection H as H
         end;
  subst; try congruence; try lia.

(* ---- data ---- *)

(** ** Data for the worked examples

    A platform with the small-angle values [sin x = x], [cos x = 1],
    [atan2 y x = y / x] and [pow x 2 = x * x], which are the correctly
    rounded results at the arguments the examples reach (zero and
    magnitudes below [1e-18]); it reads no string as a number. *)
Definition small_angle : Platform :=
  {| libm_sin := fun x => x;
     libm_cos := fun _ => 1%float;
     libm_atan2 := fun y x => (y / x)%float;
     libm_pow := fun x _ => (x * x)%float;
     float_of_string := fun _ => None;
     int_of_string := fun _ => None |}.

(** A platform for small angles whose sine stays in [-1, 1]: outside of
    this range of arguments it gives 0.  Its [atan2 y x] is [y]. *)
Definition clamped : Platform :=
  {| libm_sin := fun x => if ((x <? -1) || (1 <? x))%float then 0%float else x;
     libm_cos := fun _ => 1%float;
     libm_atan2 := fun y _ => y;
     libm_pow := fun x _ => (x * x)%float;
     float_of_string := fun _ => None;
     int_of_string := fun _ => None |}.

Module Depot.
Local Open Scope string_scope.

(** Three teams and two pending tasks, all at the origin. *)
Definition team (i : Z) (n : string) (cap : Z) : Resource.t :=
  {| Resource.id := i; Resource.name := n; Resource.type := "maintenance";
     Resource.lat := Some 0%float; Resource.lon := Some 0%float;
     Resource.capacity := cap |}.

Definition job (i : Z) (u : Z) : Task.t :=
  {| Task.id := i; Task.title := PStr "job"; Task.description := PStr "";
     Task.lat := Some 0%float; Task.lon := Some 0%float;
     Task.urgency := u; Task.status := "pending" |}.

Definition body (u : Z) : pyval :=
  PDict [("title", PStr "job"); ("lat", PInt 0); ("lon", PInt 0);
         ("urgency", PInt u)].

Definition db : Db :=
  {| resources := [team 1 "Team A" 1; team 2 "Team B" 2; team 3 "Team C" 0];
     tasks := [job 1 5; job 2 9];
     assignments := [] |}.
End Depot.

Module Sentinel.
Local Open Scope string_scope.

(** One idle team and one pending task of urgency -20000, both at the
    origin. *)
Definition task : Task.t := Depot.job 1 (-20000).

Definition db : Db :=
  {| resources := [Depot.team 1 "Team A" 1];
     tasks := [task];
     assignments := [] |}.

(** A request without [title]. *)
Definition untitled : list (string * pyval) :=
  [("lat", PInt 0); ("lon", PInt 0); ("urgency", PInt 3)].
End Sentinel.

Module Stray.
Local Open Scope string_scope.

(** A task whose coordinates are NULL, behind a regular one, and a team
    with room for both. *)
Definition nowhere : Task.t :=
  {| Task.id := 2; Task.title := PStr "lost"; Task.description := PStr "";
     Task.lat := None; Task.lon := None;
     Task.urgency := 5; Task.status := "pending" |}.

Definition db : Db :=
  {| resources := [Depot.team 1 "Team A" 2];
     tasks := [Depot.job 1 9; nowhere];
     assignments := [] |}.
End Stray.

Module Tie.
Local Open Scope string_scope.

(** Two idle teams of capacity 1 and one pending task at the origin: the
    team listed first is some 1e-15 km away, the second is on the spot. *)
Definition far : Resource.t :=
  {| Resource.id := 1; Resource.name := "Team far";
     Resource.type := "maintenance";
     Resource.lat := Some 9e-18%float; Resource.lon := Some 0%float;
     Resource.capacity := 1 |}.

Definition near : Resource.t := Depot.team 2 "Team near" 1.

Definition db : Db :=
  {| resources := [far; near];
     tasks := [Depot.job 1 9];
     assignments := [] |}.
End Tie.

Module Busy.

(** A pass over [Depot.db], then two more tasks: the first takes the last
    free place, the second finds every team full and stays pending. *)
Definition requests : list request :=
  [POST_schedule; POST_add_task (Depot.body 7); POST_add_task (Depot.body 3)].

Definition db : Db := serve small_angle requests Depot.db.
End Busy.

(* ---- proofs ---- *)

(** ** Loops and rows *)

Lemma bind_Returned {A B} (c : outcome A) (k : A -> outcome B) b :
  (x <- c ;; k x) = Returned b -> exists a, c = Returned a /\ k a = Returned b.
Proof. destruct c; simpl; [eauto | discriminate]. Qed.

Lemma bind_Raised {A B} (c : outcome A) (k : A -> outcome B) e :
  (x <- c ;; k x) = Raised e ->
  c = Raised e \/ exists a, c = Returned a /\ k a = Raised e.
Proof. destruct c; simpl; [eauto | intros [= ->]; auto]. Qed.

Lemma for_each_inv {A S} (I : S -> Prop) (body : S -> A -> outcome S) l :
  (forall s x s', In x l -> I s -> body s x = Returned s' -> I s') ->
  forall s s', I s -> for_each body l s = Returned s' -> I s'.
Proof.
  induction l as [|x l IH]; simpl; intros Hb s s' Hs H.
  - now injection H as <-.
  - apply bind_Returned in H as (s1 & H1 & H2).
    apply (IH (fun s x s' Hx => Hb s x s' (or_intror Hx)) s1 s'); trivial.
    apply (Hb s x s1); auto.
Qed.

Lemma for_each_raises {A S} (body : S -> A -> outcome S) l e :
  forall s, for_each body l s = Raised e ->
  exists s0 x, In x l /\ body s0 x = Raised e.
Proof.
  induction l as [|x l IH]; simpl; intros s H; [discriminate|].
  apply bind_Raised in H as [H | (s1 & H1 & H2)].
  - exists s, x; auto.
  - destruct (IH _ H2) as (s0 & y & Hy & Hr). exists s0, y; auto.
Qed.

Lemma count_rows_app rows rows' i :
  count_rows (rows ++ rows') i = count_rows rows i + count_rows rows' i.
Proof. unfold count_rows. rewrite filter_app, length_app. lia. Qed.

Lemma count_rows_one a i :
  count_rows [a] i = if Assignment.resource_id a =? i then 1 else 0.
Proof. unfold count_rows; simpl. now destruct (_ =? _). Qed.

Lemma count_rows_nonneg rows i : 0 <= count_rows rows i.
Proof. unfold count_rows; lia. Qed.

(** ** The engine only appends guarded rows *)

Lemma guarded_nil rs old : guarded rs old [].
Proof. intros pre a post H. now destruct pre. Qed.

Lemma guarded_one rs old a r :
  In r rs -> Resource.id r = Assignment.resource_id a ->
  count_rows old (Resource.id r) < Resource.capacity r ->
  guarded rs old [a].
Proof.
  intros Hin Hid Hlt pre b post H.
  destruct pre as [|x pre]; simpl in H.
  - injection H as <- <-. exists r. now rewrite app_nil_r.
  - injection H as _ H. now destruct pre.
Qed.

Lemma guarded_app rs old new1 new2 :
  guarded rs old new1 -> guarded rs (old ++ new1) new2 ->
  guarded rs old (new1 ++ new2).
Proof.
  intros H1 H2 pre a post E.
  assert (Hcases : (exists post1, new1 = pre ++ a :: post1) \/
                   (exists pre2, pre = new1 ++ pre2 /\ new2 = pre2 ++ a :: post)).
  { clear H1 H2. revert pre E.
    induction new1 as [|x new1 IH]; simpl; intros pre E.
    - right. exists pre. auto.
    - destruct pre as [|y pre]; simpl in E; injection E as -> E.
      + left. now exists new1.
      + destruct (IH _ E) as [(post1 & ->) | (pre2 & -> & ->)].
        * left. now exists post1.
        * right. now exists pre2. }
  destruct Hcases as [(post1 & E1) | (pre2 & -> & E2)].
  - exact (H1 _ _ _ E1).
  - destruct (H2 _ _ _ E2) as (r & ? & ? & ?).
    exists r. now rewrite app_assoc.
Qed.

Lemma extends_refl db : extends db db.
Proof.
  split; trivial. exists []. rewrite app_nil_r. split; trivial.
  apply guarded_nil.
Qed.

Lemma extends_trans db1 db2 db3 :
  extends db1 db2 -> extends db2 db3 -> extends db1 db3.
Proof.
  intros (R12 & n1 & A12 & G1) (R23 & n2 & A23 & G2).
  split; [congruence|].
  exists (n1 ++ n2). split.
  - now rewrite A23, A12, app_assoc.
  - apply guarded_app; trivial. now rewrite <- A12, <- R12.
Qed.

Lemma extends_tasks db ts :
  extends db {| resources := resources db; tasks := ts;
                assignments := assignments db |}.
Proof.
  split; trivial. exists []. simpl. rewrite app_nil_r. split; trivial.
  apply guarded_nil.
Qed.

Section EngineFacts.

Variable P : Platform.

Lemma consider_spec db t acc r p :
  consider P db t acc r = Returned p ->
  p = acc \/
  (current_load db (Resource.id r) < Resource.capacity r /\
   exists d sc,
     haversine P (Task.lat t) (Task.lon t) (Resource.lat r) (Resource.lon r)
       = Returned d /\
     score (Task.urgency t) d (current_load db (Resource.id r))
           (Resource.capacity r) = Returned sc /\
     (best_score acc <? sc)%float = true /\
     p = {| best := Some r; best_score := sc; best_dist := Some d |}).
Proof.
  unfold consider.
  destruct (Z.geb_spec (current_load db (Resource.id r)) (Resource.capacity r))
    as [Hge | Hlt].
  - intros [= <-]. now left.
  - intros H.
    apply bind_Returned in H as (d & Hd & H).
    apply bind_Returned in H as (sc & Hs & H).
    destruct (best_score acc <? sc)%float eqn:Hc; injection H as <-.
    + right. split; [lia|]. now exists d, sc.
    + now left.
Qed.

Lemma select_picked db t p : select P db t = Returned p -> picked P db t p.
Proof.
  unfold select.
  apply (for_each_inv (picked P db t)); [|reflexivity].
  intros s r s' Hr Hs H.
  apply consider_spec in H as [-> | (Hlt & d & sc & Hd & Hsc & _ & ->)]; trivial.
  unfold picked; simpl. repeat split; trivial. now exists d.
Qed.

Lemma commit_assignment_spec db t r eta db' :
  commit_assignment db t r eta = Returned db' ->
  resources db' = resources db /\
  tasks db' = mark_assigned (Task.id t) (tasks db) /\
  exists a, assignments db' = assignments db ++ [a] /\
            Assignment.task_id a = Task.id t /\
            Assignment.resource_id a = Resource.id r /\
            Assignment.eta_minutes a = eta.
Proof.
  unfold commit_assignment, sqlite_int. intros H.
  destruct (_ && _); simpl in H; [|discriminate].
  injection H as <-. simpl. repeat split.
  eexists. split; [reflexivity|]. simpl. auto.
Qed.

(** A task is either left as it is, or given to a resource that was
    below its capacity, at the distance the loop computed for it. *)
Lemma schedule_task_spec db t db' o :
  schedule_task P db t = Returned (db', o) ->
  (db' = db /\ o = []) \/
  exists r d eta,
    In r (resources db) /\
    current_load db (Resource.id r) < Resource.capacity r /\
    haversine P (Task.lat t) (Task.lon t) (Resource.lat r) (Resource.lon r)
      = Returned d /\
    eta_of d = Returned eta /\
    commit_assignment db t r eta = Returned db' /\
    o = [ {| entry_task := Task.title t; entry_resource := Resource.name r;
             entry_eta := eta |} ].
Proof.
  unfold schedule_task. intros H.
  apply bind_Returned in H as (p & Hp & H).
  apply select_picked in Hp. unfold picked in Hp.
  destruct (best p) as [r|].
  - destruct Hp as (Hin & Hlt & d & Hbd & Hd & _). rewrite Hbd in H.
    apply bind_Returned in H as (eta & He & H).
    apply bind_Returned in H as (db1 & Hc & H).
    injection H as <- <-. right. exists r, d, eta. auto 10.
  - injection H as <- <-. now left.
Qed.

Lemma schedule_task_extends db t db' o :
  schedule_task P db t = Returned (db', o) -> extends db db'.
Proof.
  intros H. apply schedule_task_spec in H
    as [[-> _] | (r & d & eta & Hin & Hlt & _ & _ & Hc & _)].
  - apply extends_refl.
  - apply commit_assignment_spec in Hc as (HR & _ & a & HA & _ & Hid & _).
    split; trivial. exists [a]. split; trivial.
    now apply guarded_one with r.
Qed.

Lemma run_tasks_extends ts : forall db out,
  extends db (snd (run_tasks P ts db out)).
Proof.
  induction ts as [|t ts IH]; simpl; intros db out.
  - apply extends_refl.
  - destruct (schedule_task P db t) as [[db' o]|e] eqn:E; simpl.
    + eapply extends_trans; [eapply schedule_task_extends; eauto | apply IH].
    + apply extends_refl.
Qed.

Lemma greedy_scheduler_extends db : extends db (snd (greedy_scheduler P db)).
Proof. apply run_tasks_extends. Qed.

Lemma commit_task_spec db f db' i :
  commit_task db f = Returned (db', i) ->
  resources db' = resources db /\ assignments db' = assignments db.
Proof.
  destruct f as [[[[ti de] la] lo] u]. unfold commit_task. intros H.
  apply bind_Returned in H as (? & _ & H).
  apply bind_Returned in H as (? & _ & H).
  apply bind_Returned in H as (? & _ & H).
  injection H as <- _. auto.
Qed.

Lemma add_task_extends d db : extends db (snd (add_task P d db)).
Proof.
  unfold add_task.
  destruct (new_task P d) as [f|e]; [|apply extends_refl].
  destruct (commit_task db f) as [[db' i]|e] eqn:E; [|apply extends_refl].
  apply commit_task_spec in E as [HR HA].
  assert (extends db db').
  { split; trivial. exists []. rewrite app_nil_r. split; trivial.
    apply guarded_nil. }
  pose proof (greedy_scheduler_extends db') as H'.
  destruct (greedy_scheduler P db') as [[out|e] db'']; simpl in *;
    eapply extends_trans; eauto.
Qed.

Lemma handle_extends db req : extends db (handle P db req).
Proof.
  destruct req as [d|]; simpl.
  - apply add_task_extends.
  - unfold run_scheduler.
    pose proof (greedy_scheduler_extends db) as H.
    now destruct (greedy_scheduler P db) as [[out|e] db'].
Qed.

Lemma serve_extends reqs : forall db, extends db (serve P reqs db).
Proof.
  induction reqs as [|q reqs IH]; simpl; intros db.
  - apply extends_refl.
  - eapply extends_trans; [apply handle_extends | apply IH].
Qed.

End EngineFacts.

(** ** Capacity *)

Lemma NoDup_map_eq {A B} (f : A -> B) l x y :
  NoDup (map f l) -> In x l -> In y l -> f x = f y -> x = y.
Proof.
  induction l as [|z l IH]; simpl; intros Hnd Hx Hy E; [easy|].
  inversion Hnd as [|? ? Hz Hl]; subst.
  destruct Hx as [-> | Hx], Hy as [-> | Hy]; auto.
  - exfalso. apply Hz. rewrite E. now apply in_map.
  - exfalso. apply Hz. rewrite <- E. now apply in_map.
Qed.

Lemma guarded_capacity rs :
  NoDup (map Resource.id rs) ->
  forall new old,
    (forall r, In r rs -> 0 < Resource.capacity r ->
       count_rows old (Resource.id r) <= Resource.capacity r) ->
    guarded rs old new ->
    forall r, In r rs -> 0 < Resource.capacity r ->
      count_rows (old ++ new) (Resource.id r) <= Resource.capacity r.
Proof.
  intros Hnd. induction new as [|a new IH]; intros old Hold G.
  - now rewrite app_nil_r.
  - replace (old ++ a :: new) with ((old ++ [a]) ++ new)
      by now rewrite <- app_assoc.
    apply IH.
    + destruct (G [] a new eq_refl) as (r0 & Hin0 & Hid0 & Hlt0).
      rewrite app_nil_r in Hlt0.
      intros r Hin Hpos. rewrite count_rows_app, count_rows_one.
      destruct (Z.eqb_spec (Assignment.resource_id a) (Resource.id r)) as [E|_].
      * assert (r = r0) as ->
          by (apply (NoDup_map_eq Resource.id rs); trivial; congruence).
        lia.
      * specialize (Hold r Hin Hpos). lia.
    + intros pre b post E.
      destruct (G (a :: pre) b post) as (r & ? & ? & ?); [now rewrite E|].
      exists r. now rewrite <- app_assoc.
Qed.

Lemma extends_capacity_ok db db' :
  resource_ids_unique db -> capacity_ok db -> extends db db' -> capacity_ok db'.
Proof.
  intros Hnd Hok (HR & new & HA & G) r Hin Hpos.
  unfold current_load. rewrite HA. rewrite HR in Hin.
  now apply guarded_capacity with (rs := resources db).
Qed.

(** C1. As long as resource ids are unique, every sequence of requests
    that trigger the engine (adding a task, running the scheduler) keeps
    the load of each resource of positive capacity within its capacity,
    and each assignment row it appends was created for a resource whose
    count of rows just before was strictly below its capacity. *)
Theorem capacity_invariant (P : Platform) (reqs : list request) (db : Db) :
  resource_ids_unique db -> capacity_ok db ->
  capacity_ok (serve P reqs db) /\
  exists new,
    assignments (serve P reqs db) = assignments db ++ new /\
    guarded (resources db) (assignments db) new.
Proof.
  intros Hnd Hok. pose proof (serve_extends P reqs db) as H. split.
  - now apply extends_capacity_ok with db.
  - exact (proj2 H).
Qed.

Lemma capacity_invariant_witness :
  resource_ids_unique Depot.db /\ capacity_ok Depot.db /\
  capacity_ok (serve small_angle
                 [POST_schedule; POST_add_task (Depot.body 7); POST_schedule]
                 Depot.db).
Proof.
  assert (Hnd : resource_ids_unique Depot.db).
  { unfold resource_ids_unique; simpl.
    repeat constructor; simpl; intuition discriminate. }
  assert (Hok : capacity_ok Depot.db).
  { intros r _ Hpos. unfold current_load, count_rows; simpl. lia. }
  repeat split; trivial.
  apply (capacity_invariant small_angle _ Depot.db); trivial.
Defined.

(** ** Within a pass *)

Lemma guarded_saturated rs r :
  NoDup (map Resource.id rs) -> In r rs ->
  forall new old,
    Resource.capacity r <= count_rows old (Resource.id r) ->
    guarded rs old new ->
    Forall (fun a => Assignment.resource_id a <> Resource.id r) new.
Proof.
  intros Hnd Hin. induction new as [|a new IH]; intros old Hsat G.
  - constructor.
  - destruct (G [] a new eq_refl) as (r0 & Hin0 & Hid0 & Hlt0).
    rewrite app_nil_r in Hlt0.
    assert (Hne : Assignment.resource_id a <> Resource.id r).
    { intros E.
      assert (r0 = r)
        by (apply (NoDup_map_eq Resource.id rs); trivial; congruence).
      subst r0. lia. }
    constructor; trivial.
    apply (IH (old ++ [a])).
    + rewrite count_rows_app, count_rows_one.
      destruct (Z.eqb_spec (Assignment.resource_id a) (Resource.id r)); lia.
    + intros pre b post E.
      destruct (G (a :: pre) b post) as (r1 & ? & ? & ?); [now rewrite E|].
      exists r1. now rewrite <- app_assoc.
Qed.

Lemma run_tasks_app (P : Platform) ts1 ts2 : forall db out,
  run_tasks P (ts1 ++ ts2) db out =
  match run_tasks P ts1 db out with
  | (Returned out1, db1) => run_tasks P ts2 db1 out1
  | (Raised e, db1) => (Raised e, db1)
  end.
Proof.
  induction ts1 as [|t ts1 IH]; simpl; intros db out; trivial.
  destruct (schedule_task P db t) as [[db' o]|e]; trivial.
Qed.

(** C4. In one pass, cut the processing order anywhere: a resource whose
    load has reached its capacity in the database left by the tasks before
    the cut is referenced by none of the rows the rest of the pass appends.
    The load tested for each task counts the rows committed for the tasks
    before it. *)
Theorem saturated_resource_stops (P : Platform) (db : Db)
    (ts1 ts2 : list Task.t) (r : Resource.t) :
  resource_ids_unique db ->
  In r (resources db) ->
  processing_order db = ts1 ++ ts2 ->
  Resource.capacity r
    <= current_load (snd (run_tasks P ts1 db [])) (Resource.id r) ->
  exists later,
    assignments (snd (greedy_scheduler P db))
      = assignments (snd (run_tasks P ts1 db [])) ++ later /\
    Forall (fun a => Assignment.resource_id a <> Resource.id r) later.
Proof.
  intros Hnd Hin Hord Hsat.
  unfold greedy_scheduler. rewrite Hord, run_tasks_app.
  pose proof (run_tasks_extends P ts1 db []) as (HR1 & _).
  destruct (run_tasks P ts1 db []) as [[out1|e] mid] eqn:E1; simpl in *.
  - destruct (run_tasks_extends P ts2 mid out1) as (HR2 & later & HA & G).
    exists later. split; trivial.
    apply guarded_saturated with (rs := resources mid) (old := assignments mid);
      trivial; now rewrite HR1.
  - exists []. now rewrite app_nil_r.
Qed.

Lemma saturated_resource_stops_witness :
  resource_ids_unique Depot.db /\
  In (Depot.team 1 "Team A" 1) (resources Depot.db) /\
  processing_order Depot.db = [Depot.job 2 9] ++ [Depot.job 1 5] /\
  Resource.capacity (Depot.team 1 "Team A" 1)
    <= current_load (snd (run_tasks small_angle [Depot.job 2 9] Depot.db [])) 1 /\
  exists later,
    assignments (snd (greedy_scheduler small_angle Depot.db))
      = assignments (snd (run_tasks small_angle [Depot.job 2 9] Depot.db []))
        ++ later /\
    Forall (fun a => Assignment.resource_id a <> 1) later.
Proof.
  assert (Hnd : resource_ids_unique Depot.db).
  { unfold resource_ids_unique; simpl.
    repeat constructor; simpl; intuition discriminate. }
  assert (Hin : In (Depot.team 1 "Team A" 1) (resources Depot.db))
    by (simpl; auto).
  assert (Hord : processing_order Depot.db = [Depot.job 2 9] ++ [Depot.job 1 5])
    by reflexivity.
  assert (Hsat : Resource.capacity (Depot.team 1 "Team A" 1)
    <= current_load (snd (run_tasks small_angle [Depot.job 2 9] Depot.db [])) 1).
  { vm_compute. discriminate. }
  repeat split; trivial.
  exact (saturated_resource_stops small_angle Depot.db _ _ _ Hnd Hin Hord Hsat).
Defined.

(** ** Which exceptions the engine raises *)

Lemma int_truediv_ZeroDivisionError a b :
  int_truediv a b = Raised ZeroDivisionError -> b = 0.
Proof.
  unfold int_truediv.
  destruct b; trivial; destruct a; simpl; try discriminate;
    destruct (SFdiv_core_binary _ _ _ _ _ _) as [[q e] l];
    destruct (is_infinity _); discriminate.
Qed.

Lemma math_1_raises f x e : math_1 f x = Raised e -> e = ValueError.
Proof.
  unfold math_1. destruct (_ && _); [congruence|].
  destruct (_ && _); [congruence | discriminate].
Qed.

Lemma math_2_raises f x y e :
  math_2 f x y = Raised e -> e = ValueError \/ e = OverflowError.
Proof.
  unfold math_2. destruct (_ && _ && _); [intros [= <-]; auto|].
  destruct (_ && _ && _); [intros [= <-]; auto | discriminate].
Qed.

Lemma float_pow2_raises P x e : float_pow2 P x = Raised e -> e = OverflowError.
Proof.
  unfold float_pow2.
  repeat match goal with
         | |- context [if ?c then _ else _] => destruct c
         end; congruence.
Qed.

Lemma math_radians_raises x e : math_radians x = Raised e -> e = TypeError.
Proof. destruct x; simpl; congruence. Qed.

Lemma float_sub_raises x y e : float_sub x y = Raised e -> e = TypeError.
Proof. destruct x, y; simpl; congruence. Qed.

Lemma haversine_raises P lat1 lon1 lat2 lon2 e :
  haversine P lat1 lon1 lat2 lon2 = Raised e ->
  e = TypeError \/ e = ValueError \/ e = OverflowError.
Proof.
  unfold haversine, math_sin, math_cos, math_sqrt, math_atan2. intros H.
  repeat match type of H with
         | bind _ _ = Raised _ =>
             apply bind_Raised in H as [H | (? & _ & H)]
         end;
    first [ apply math_radians_raises in H
          | apply float_sub_raises in H
          | apply math_1_raises in H
          | apply float_pow2_raises in H
          | apply math_2_raises in H as [H | H]
          | discriminate H ]; auto.
Qed.

Lemma score_ZeroDivisionError u d load cap :
  score u d load cap = Raised ZeroDivisionError -> cap = 0.
Proof.
  unfold score. intros H.
  apply bind_Raised in H as [H | (? & _ & H)].
  - apply int_truediv_ZeroDivisionError in H. discriminate.
  - apply bind_Raised in H as [H | (? & _ & H)]; [|discriminate].
    now apply int_truediv_ZeroDivisionError in H.
Qed.

Lemma consider_no_ZeroDivisionError P db t acc r :
  consider P db t acc r <> Raised ZeroDivisionError.
Proof.
  unfold consider.
  destruct (Z.geb_spec (current_load db (Resource.id r)) (Resource.capacity r))
    as [Hge | Hlt]; [discriminate|].
  intros H.
  apply bind_Raised in H as [H | (d & _ & H)].
  - apply haversine_raises in H as [H | [H | H]]; discriminate.
  - apply bind_Raised in H as [H | (sc & _ & H)].
    + apply score_ZeroDivisionError in H.
      pose proof (count_rows_nonneg (assignments db) (Resource.id r)).
      unfold current_load in Hlt. lia.
    + destruct (_ <? _)%float; discriminate.
Qed.

Lemma schedule_task_no_ZeroDivisionError P db t :
  schedule_task P db t <> Raised ZeroDivisionError.
Proof.
  unfold schedule_task. intros H.
  apply bind_Raised in H as [H | (p & _ & H)].
  - apply for_each_raises in H as (s0 & r & _ & H).
    now apply consider_no_ZeroDivisionError in H.
  - destruct (best p); [|discriminate].
    destruct (best_dist p) as [d|]; [|discriminate].
    apply bind_Raised in H as [H | (eta & _ & H)].
    + unfold eta_of, int_of_float in H.
      destruct (is_nan _); [discriminate|].
      destruct (is_infinity _); discriminate.
    + apply bind_Raised in H as [H | (? & _ & H)]; [|discriminate].
      unfold commit_assignment, sqlite_int in H.
      destruct (_ && _); discriminate.
Qed.

Lemma run_tasks_no_ZeroDivisionError P ts : forall db out,
  fst (run_tasks P ts db out) <> Raised ZeroDivisionError.
Proof.
  induction ts as [|t ts IH]; simpl; intros db out; [discriminate|].
  destruct (schedule_task P db t) as [[db' o]|e] eqn:E; [apply IH|].
  simpl. intros [= ->]. now apply schedule_task_no_ZeroDivisionError in E.
Qed.

(** C6. A resource of capacity 0 is passed over by the loop before any
    distance or score is computed, the resource the loop settles on has a
    positive capacity, and no pass ends in a division by zero. *)
Theorem zero_capacity_never_selected (P : Platform) (db : Db) (t : Task.t) :
  (forall acc r, Resource.capacity r = 0 ->
     consider P db t acc r = Returned acc) /\
  (forall p r, select P db t = Returned p -> best p = Some r ->
     0 < Resource.capacity r) /\
  fst (greedy_scheduler P db) <> Raised ZeroDivisionError.
Proof.
  repeat split.
  - intros acc r H0. unfold consider. rewrite H0.
    pose proof (count_rows_nonneg (assignments db) (Resource.id r)).
    unfold current_load.
    now destruct (Z.geb_spec (count_rows (assignments db) (Resource.id r)) 0);
      [|lia].
  - intros p r Hp Hb. apply select_picked in Hp. unfold picked in Hp.
    rewrite Hb in Hp. destruct Hp as (_ & Hlt & _).
    pose proof (count_rows_nonneg (assignments db) (Resource.id r)).
    unfold current_load in Hlt. lia.
  - apply run_tasks_no_ZeroDivisionError.
Qed.

(** ** Load accounting *)

Lemma count_rows_count_occ rows i :
  count_rows rows i
  = Z.of_nat (count_occ Z.eq_dec (map Assignment.resource_id rows) i).
Proof.
  unfold count_rows. f_equal.
  induction rows as [|a rows IH]; simpl; trivial.
  destruct (Z.eqb_spec (Assignment.resource_id a) i) as [E|E];
    destruct (Z.eq_dec (Assignment.resource_id a) i); try contradiction;
    simpl; now rewrite IH.
Qed.

(** C8. The load of a resource id is the number of assignment rows that
    carry it, whatever the tasks table holds, and no sequence of requests
    makes it smaller. *)
Theorem load_counts_every_row (P : Platform) (reqs : list request) (db : Db)
    (res_id : Z) :
  current_load db res_id
    = Z.of_nat (count_occ Z.eq_dec
                  (map Assignment.resource_id (assignments db)) res_id) /\
  (forall ts, current_load {| resources := resources db; tasks := ts;
                              assignments := assignments db |} res_id
              = current_load db res_id) /\
  current_load db res_id <= current_load (serve P reqs db) res_id.
Proof.
  repeat split.
  - apply count_rows_count_occ.
  - destruct (serve_extends P reqs db) as (_ & new & HA & _).
    unfold current_load. rewrite HA, count_rows_app.
    pose proof (count_rows_nonneg new res_id). lia.
Qed.

(** ** The order of a pass *)

Section SortedFacts.

Context {A : Type} (key : A -> Z).

Lemma insert_perm x l : Permutation (x :: l) (insert key x l).
Proof.
  induction l as [|y l IH]; simpl; trivial.
  destruct (key y <? key x); trivial.
  rewrite perm_swap. now constructor.
Qed.

Lemma sorted_perm l : Permutation l (sorted key l).
Proof.
  induction l as [|x l IH]; simpl; trivial.
  rewrite <- insert_perm. now constructor.
Qed.

Lemma insert_sorted x l :
  StronglySorted (fun a b => key a <= key b) l ->
  StronglySorted (fun a b => key a <= key b) (insert key x l).
Proof.
  induction 1 as [|y l Hl IH Hy]; simpl.
  - repeat constructor.
  - destruct (Z.ltb_spec (key y) (key x)) as [Hlt|Hge].
    + constructor; trivial.
      rewrite Forall_forall in *. intros z Hz.
      apply (Permutation_in _ (Permutation_sym (insert_perm x l))) in Hz.
      destruct Hz as [<-|Hz]; [lia|auto].
    + constructor; [now constructor|].
      constructor; trivial.
      rewrite Forall_forall in *. intros z Hz. specialize (Hy z Hz). lia.
Qed.

Lemma sorted_sorted l :
  StronglySorted (fun a b => key a <= key b) (sorted key l).
Proof.
  induction l as [|x l IH]; simpl; [constructor | now apply insert_sorted].
Qed.

Lemma insert_filter k x l :
  filter (fun a => key a =? k) (insert key x l)
  = filter (fun a => key a =? k) (x :: l).
Proof.
  induction l as [|y l IH]; trivial.
  simpl insert. destruct (Z.ltb_spec (key y) (key x)) as [Hlt|Hge]; trivial.
  simpl in *. rewrite IH.
  destruct (Z.eqb_spec (key y) k), (Z.eqb_spec (key x) k); trivial. lia.
Qed.

Lemma sorted_filter k l :
  filter (fun a => key a =? k) (sorted key l) = filter (fun a => key a =? k) l.
Proof.
  induction l as [|x l IH]; trivial.
  simpl sorted. rewrite insert_filter. simpl. now rewrite IH.
Qed.

End SortedFacts.

Lemma StronglySorted_weaken {A} (R R' : A -> A -> Prop) l :
  (forall a b, R a b -> R' a b) -> StronglySorted R l -> StronglySorted R' l.
Proof.
  intros HR. induction 1 as [|x l Hl IH Hx]; constructor; trivial.
  eapply Forall_impl; [|exact Hx]. auto.
Qed.

(** ** Requests that cannot become a task *)

Lemma add_task_raises P d db e :
  new_task P d = Raised e -> add_task P d db = (Raised e, db).
Proof. unfold add_task. now intros ->. Qed.

Lemma new_task_missing P kv k :
  In k required_fields -> lookup k kv = None ->
  exists e, new_task P (PDict kv) = Raised e.
Proof.
  intros Hin Hk. unfold new_task, getitem, dict_get.
  destruct (lookup "title" kv) as [ti|] eqn:Eti; simpl; [|eauto].
  destruct (lookup "description" kv) as [de|]; simpl;
  (destruct (lookup "lat" kv) as [la|] eqn:Ela; simpl; [|eauto];
   destruct (py_float P la) as [la'|]; simpl; [|eauto];
   destruct (lookup "lon" kv) as [lo|] eqn:Elo; simpl; [|eauto];
   destruct (py_float P lo) as [lo'|]; simpl; [|eauto];
   destruct (lookup "urgency" kv) as [ur|] eqn:Eur; simpl; [|eauto];
   exfalso; simpl in Hin;
   destruct Hin as [<-|[<-|[<-|[<-|[]]]]]; congruence).
Qed.

Lemma new_task_invalid P kv :
  invalid_body P kv -> exists e, new_task P (PDict kv) = Raised e.
Proof.
  intros [(k & Hin & Hk) | H]; [now apply new_task_missing with k|].
  unfold new_task, getitem, dict_get.
  destruct (lookup "title" kv) as [ti|]; simpl; [|eauto].
  destruct (lookup "description" kv) as [de|]; simpl;
  (destruct (lookup "lat" kv) as [la|]; simpl; [|eauto];
   destruct (py_float P la) as [la'|] eqn:Ela; simpl; [|eauto];
   destruct (lookup "lon" kv) as [lo|]; simpl; [|eauto];
   destruct (py_float P lo) as [lo'|] eqn:Elo; simpl; [|eauto];
   destruct (lookup "urgency" kv) as [ur|]; simpl; [|eauto];
   destruct (py_int P ur) as [ur'|] eqn:Eur; simpl; [|eauto];
   exfalso;
   destruct H as [(v & e & [= <-] & Hv) | [(v & e & [= <-] & Hv)
                                          | (v & e & [= <-] & Hv)]];
   congruence).
Qed.

(** C10. When the body of an add-task request lacks [title], [lat], [lon]
    or [urgency], building the task raises; the handler ends in that
    exception with the database as it was, and the answer is a 500, not
    a 4xx.  A missing [title] is a [KeyError] on that key. *)
Theorem add_task_missing_field (P : Platform) (kv : list (string * pyval))
    (db : Db) (k : string) :
  In k required_fields -> lookup k kv = None ->
  exists e,
    new_task P (PDict kv) = Raised e /\
    add_task P (PDict kv) db = (Raised e, db) /\
    (k = "title"%string -> e = KeyError "title") /\
    http_status (fst (add_task P (PDict kv) db)) = 500 /\
    ~ is_4xx (http_status (fst (add_task P (PDict kv) db))).
Proof.
  intros Hin Hk.
  destruct (new_task_missing P kv k Hin Hk) as (e & He).
  exists e. rewrite (add_task_raises _ _ _ _ He). simpl.
  repeat split; trivial.
  - intros ->. unfold new_task, getitem in He. rewrite Hk in He.
    simpl in He. congruence.
  - unfold is_4xx. lia.
Qed.

Lemma add_task_missing_field_witness :
  In "title"%string required_fields /\
  lookup "title" Sentinel.untitled = None /\
  exists e,
    new_task small_angle (PDict Sentinel.untitled) = Raised e /\
    add_task small_angle (PDict Sentinel.untitled) Depot.db
      = (Raised e, Depot.db) /\
    ("title"%string = "title"%string -> e = KeyError "title") /\
    http_status (fst (add_task small_angle (PDict Sentinel.untitled) Depot.db))
      = 500 /\
    ~ is_4xx (http_status
                (fst (add_task small_angle (PDict Sentinel.untitled) Depot.db))).
Proof.
  assert (Hin : In "title"%string required_fields) by (simpl; auto).
  assert (Hk : lookup "title" Sentinel.untitled = None) by reflexivity.
  repeat split; trivial.
  exact (add_task_missing_field small_angle _ Depot.db _ Hin Hk).
Defined.

(** C7, as the code has it: an add-task request that lacks a required
    field, or whose [lat], [lon] or [urgency] is refused by [float] or
    [int], ends in the exception raised while the task is built; the
    handler answers 500 and the database is as it was. *)
Theorem add_task_invalid_body (P : Platform) (kv : list (string * pyval))
    (db : Db) :
  invalid_body P kv ->
  exists e,
    add_task P (PDict kv) db = (Raised e, db) /\
    http_status (fst (add_task P (PDict kv) db)) = 500.
Proof.
  intros H. destruct (new_task_invalid P kv H) as (e & He).
  exists e. now rewrite (add_task_raises _ _ _ _ He).
Qed.

Lemma add_task_invalid_body_witness :
  invalid_body small_angle [("title", PStr "job"); ("lat", PStr "north");
                            ("lon", PInt 0); ("urgency", PInt 3)]%string /\
  exists e,
    add_task small_angle
      (PDict [("title", PStr "job"); ("lat", PStr "north");
              ("lon", PInt 0); ("urgency", PInt 3)]%string) Depot.db
      = (Raised e, Depot.db) /\
    http_status
      (fst (add_task small_angle
              (PDict [("title", PStr "job"); ("lat", PStr "north");
                      ("lon", PInt 0); ("urgency", PInt 3)]%string) Depot.db))
      = 500.
Proof.
  assert (H : invalid_body small_angle
                [("title", PStr "job"); ("lat", PStr "north");
                 ("lon", PInt 0); ("urgency", PInt 3)]%string).
  { right; left. exists (PStr "north"), ValueError. split; reflexivity. }
  split; trivial.
  exact (add_task_invalid_body small_angle _ Depot.db H).
Defined.

(** C7 as stated fails: a request without [title] is answered with a 500
    raised by [d["title"]], not with a 4xx. *)
Lemma add_task_untitled_not_4xx :
  lookup "title" Sentinel.untitled = None /\
  fst (add_task small_angle (PDict Sentinel.untitled) Depot.db)
    = Raised (KeyError "title") /\
  ~ is_4xx (http_status
              (fst (add_task small_angle (PDict Sentinel.untitled) Depot.db))).
Proof.
  repeat split. unfold is_4xx. simpl. lia.
Qed.

(** ** The sentinel score *)

Lemma haversine_origin (P : Platform) :
  exact_at_zero P ->
  haversine P (Some 0%float) (Some 0%float) (Some 0%float) (Some 0%float)
  = Returned 0%float.
Proof.
  intros (Hs & Hc & Ha).
  unfold haversine, math_sin, math_cos, math_sqrt, math_atan2, math_1, math_2.
  cbn [math_radians float_sub bind].
  change (0 * degToRad)%float with 0%float.
  change ((0 - 0) * degToRad / 2)%float with 0%float.
  rewrite Hs. cbn. rewrite Hc. cbn. rewrite Ha. reflexivity.
Qed.

Lemma small_angle_exact_at_zero : exact_at_zero small_angle.
Proof. repeat split. Qed.

(** C2, where the code departs from it.  On any platform whose libm has
    the values C99 fixes at the origin, a pending task of urgency -20000
    placed on an idle team scores -1200, which is not above the initial
    [best_score] of -999: the pass processes the task, the team is below
    its capacity, and yet no assignment is created. *)
Theorem sentinel_hides_feasible_resource (P : Platform) :
  exact_at_zero P ->
  processing_order Sentinel.db = [Sentinel.task] /\
  (exists r, In r (resources Sentinel.db) /\
     current_load Sentinel.db (Resource.id r) < Resource.capacity r) /\
  score (Task.urgency Sentinel.task) 0 0 1 = Returned (-1200)%float /\
  greedy_scheduler P Sentinel.db = (Returned [], Sentinel.db).
Proof.
  intros H0. repeat split.
  - exists (Depot.team 1 "Team A" 1). split; [now left|reflexivity].
  - unfold greedy_scheduler.
    change (processing_order Sentinel.db) with [Sentinel.task].
    unfold run_tasks, schedule_task, select. simpl for_each.
    unfold consider. simpl Z.geb. cbv iota.
    change (Task.lat Sentinel.task) with (Some 0%float).
    change (Task.lon Sentinel.task) with (Some 0%float).
    change (Resource.lat (Depot.team 1 "Team A" 1)) with (Some 0%float).
    change (Resource.lon (Depot.team 1 "Team A" 1)) with (Some 0%float).
    rewrite (haversine_origin P H0). reflexivity.
Qed.

Lemma sentinel_hides_feasible_resource_witness :
  exact_at_zero small_angle /\
  greedy_scheduler small_angle Sentinel.db = (Returned [], Sentinel.db).
Proof.
  split; [exact small_angle_exact_at_zero|].
  apply (sentinel_hides_feasible_resource small_angle).
  exact small_angle_exact_at_zero.
Defined.

(** ** Signs of binary64 results *)

Lemma binary_round_aux_sign s m e l :
  match binary_round_aux prec emax s m e l with
  | S754_zero s' | S754_infinity s' | S754_finite s' _ _ => s' = s
  | S754_nan => True
  end.
Proof.
  unfold binary_round_aux.
  destruct (shr_fexp _ _ m e l) as [mrs' e'].
  destruct (shr_fexp _ _ _ e' loc_Exact) as [mrs'' e''].
  destruct (shr_m mrs''); trivial.
  now destruct (Z.leb _ _).
Qed.

Lemma mul_not_neg x y : not_neg x -> not_neg y -> not_neg (x * y)%float.
Proof.
  unfold not_neg. rewrite mul_spec.
  destruct (Prim2SF x) as [[]|[]| |[] mx ex], (Prim2SF y) as [[]|[]| |[] my ey];
    simpl; intros Hx Hy; trivial; try contradiction.
  pose proof (binary_round_aux_sign false (Zpos (mx * my)) (ex + ey) loc_Exact) as H.
  destruct (binary_round_aux _ _ _ _ _ _) as [s|s| |s ? ?]; subst; trivial.
Qed.

Lemma div_not_neg x y : not_neg x -> no_sign y -> not_neg (x / y)%float.
Proof.
  unfold not_neg, no_sign. rewrite div_spec.
  destruct (Prim2SF x) as [[]|[]| |[] mx ex], (Prim2SF y) as [[]|[]| |[] my ey];
    simpl; intros Hx Hy; trivial; try contradiction.
  destruct (SFdiv_core_binary _ _ _ _ _ _) as [[mz ez] lz].
  pose proof (binary_round_aux_sign false mz ez lz) as H.
  destruct (binary_round_aux _ _ _ _ _ _) as [s|s| |s ? ?]; subst; trivial.
Qed.

Lemma sqrt_not_neg x : not_neg (sqrt x).
Proof.
  unfold not_neg. rewrite sqrt_spec.
  destruct (Prim2SF x) as [[]|[]| |[] mx ex]; simpl; trivial.
  destruct (SFsqrt_core_binary _ _ _ _) as [[mz ez] lz].
  pose proof (binary_round_aux_sign false mz ez lz) as H.
  destruct (binary_round_aux _ _ _ _ _ _) as [s|s| |s ? ?]; subst; trivial.
Qed.

Lemma sqrt_no_sign x : Prim2SF x <> S754_zero true -> no_sign (sqrt x).
Proof.
  unfold no_sign. rewrite sqrt_spec.
  destruct (Prim2SF x) as [[]|[]| |[] mx ex]; simpl; intros Hx; trivial; try congruence.
  destruct (SFsqrt_core_binary _ _ _ _) as [[mz ez] lz].
  pose proof (binary_round_aux_sign false mz ez lz) as H.
  destruct (binary_round_aux _ _ _ _ _ _) as [s|s| |s ? ?]; subst; trivial.
Qed.

Lemma trunc_floor x : not_neg x -> SF_trunc (Prim2SF x) = floor x.
Proof.
  unfold not_neg, floor.
  destruct (Prim2SF x) as [[]|[]| |[] m [|p|p]]; simpl; trivial; try easy.
  intros _. apply Z.quot_div_nonneg; lia.
Qed.

(** Rounding a nonzero number at an exponent of the format gives no zero. *)

Lemma shr_1_m mrs : 0 <= shr_m mrs -> shr_m (shr_1 mrs) = Z.div2 (shr_m mrs).
Proof. destruct mrs as [[|[p|p|]|p] r s]; simpl; trivial; lia. Qed.

Lemma iter_shr_1_m p : forall mrs,
  0 <= shr_m mrs -> shr_m (iter_pos shr_1 p mrs) = shr_m mrs / 2 ^ Zpos p.
Proof.
  assert (Hstep : forall mrs, 0 <= shr_m mrs ->
            shr_m (shr_1 mrs) = shr_m mrs / 2 /\ 0 <= shr_m (shr_1 mrs)).
  { intros mrs H. rewrite shr_1_m, Z.div2_div by trivial.
    split; trivial. apply Z.div_pos; lia. }
  induction p as [p IH|p IH|]; intros mrs H; simpl iter_pos.
  - destruct (Hstep mrs H) as [E1 H1].
    rewrite IH, IH, E1 by (trivial; rewrite IH by trivial; apply Z.div_pos; lia).
    rewrite !Z.div_div by lia. f_equal.
    replace (Zpos p~1) with (1 + (Zpos p + Zpos p)) by lia.
    rewrite !Z.pow_add_r by lia. lia.
  - rewrite IH, IH by (trivial; rewrite IH by trivial; apply Z.div_pos; lia).
    rewrite !Z.div_div by lia. f_equal.
    replace (Zpos p~0) with (Zpos p + Zpos p) by lia.
    rewrite !Z.pow_add_r by lia. lia.
  - now destruct (Hstep mrs H).
Qed.

Lemma digits2_pos_bound m : 2 ^ (Zpos (digits2_pos m) - 1) <= Zpos m.
Proof.
  induction m as [m IH|m IH|]; simpl digits2_pos; try (simpl; lia);
    rewrite Pos2Z.inj_succ;
    replace (Z.succ (Zpos (digits2_pos m)) - 1)
      with (Z.succ (Zpos (digits2_pos m) - 1)) by lia;
    rewrite Z.pow_succ_r by lia; lia.
Qed.

Lemma shr_record_of_loc_m m l : shr_m (shr_record_of_loc m l) = m.
Proof. now destruct l as [|[]]. Qed.

Lemma shr_fexp_pos m e l :
  0 < m -> SpecFloat.emin prec emax <= e ->
  0 < shr_m (fst (shr_fexp prec emax m e l)) /\
  SpecFloat.emin prec emax <= snd (shr_fexp prec emax m e l).
Proof.
  intros Hm He. unfold shr_fexp, shr.
  destruct m as [|m|m]; try lia. simpl Zdigits2.
  pose proof (digits2_pos_bound m) as Hd.
  destruct (fexp prec emax (Zpos (digits2_pos m) + e) - e) as [|p|p] eqn:En;
    simpl fst; simpl snd; rewrite ?shr_record_of_loc_m; try (split; lia).
  rewrite iter_shr_1_m, shr_record_of_loc_m
    by (rewrite shr_record_of_loc_m; lia).
  split; [|lia].
  apply Z.div_str_pos. split; [apply Z.pow_pos_nonneg; lia|].
  apply Z.le_trans with (2 ^ (Zpos (digits2_pos m) - 1)); trivial.
  apply Z.pow_le_mono_r; [lia|].
  unfold fexp, SpecFloat.emin, prec, emax in *. lia.
Qed.

Lemma round_nearest_even_le m l : m <= round_nearest_even m l.
Proof. destruct l as [|[]]; simpl; try lia. destruct (Z.even m); lia. Qed.

Lemma binary_round_aux_nonzero s m e l s' :
  0 < m -> SpecFloat.emin prec emax <= e ->
  binary_round_aux prec emax s m e l <> S754_zero s'.
Proof.
  intros Hm He. unfold binary_round_aux.
  destruct (shr_fexp_pos m e l Hm He) as [H1 H2].
  destruct (shr_fexp prec emax m e l) as [mrs' e']. simpl in H1, H2.
  pose proof (round_nearest_even_le (shr_m mrs') (loc_of_shr_record mrs')) as Hr.
  destruct (shr_fexp_pos (round_nearest_even (shr_m mrs') (loc_of_shr_record mrs'))
              e' loc_Exact) as [H3 H4]; [lia | trivial |].
  destruct (shr_fexp prec emax _ e' loc_Exact) as [mrs'' e'']. simpl in H3.
  destruct (shr_m mrs''); try lia; try discriminate.
  destruct (Z.leb _ _); discriminate.
Qed.

Lemma binary_round_nonzero s m e s' :
  SpecFloat.emin prec emax <= e -> binary_round prec emax s m e <> S754_zero s'.
Proof.
  intros He. unfold binary_round, shl_align.
  destruct (fexp prec emax (Zpos (digits2_pos m) + e) - e) eqn:En;
    apply binary_round_aux_nonzero; try lia.
  unfold fexp, SpecFloat.emin, prec, emax in *. lia.
Qed.

Lemma Prim2SF_exponent x s m e :
  Prim2SF x = S754_finite s m e -> SpecFloat.emin prec emax <= e.
Proof.
  intros E. pose proof (Prim2SF_valid x) as H. rewrite E in H.
  unfold SpecFloat.valid_binary, bounded, canonical_mantissa in H.
  apply andb_prop in H as [H _]. apply Z.eqb_eq in H.
  unfold fexp in H. lia.
Qed.

Lemma one_minus_no_neg_zero a : Prim2SF (1 - a)%float <> S754_zero true.
Proof.
  rewrite sub_spec.
  change (Prim2SF 1) with (S754_finite false 4503599627370496 (-52)).
  destruct (Prim2SF a) as [[]|[]| |sy my ey] eqn:Ea;
    unfold SF64sub, SFsub; try discriminate.
  apply Prim2SF_exponent in Ea.
  unfold binary_normalize.
  match goal with |- context [match ?z with Z0 => _ | Zpos _ => _ | Zneg _ => _ end] =>
    destruct z as [|m|m] end; try discriminate;
    apply binary_round_nonzero; unfold SpecFloat.emin, prec, emax in *; lia.
Qed.

(** ** The ETA *)

Lemma math_1_value f x r : math_1 f x = Returned r -> r = f x.
Proof.
  unfold math_1. destruct (_ && _); [discriminate|].
  destruct (_ && _); [discriminate|]. congruence.
Qed.

Lemma math_2_value f x y r : math_2 f x y = Returned r -> r = f x y.
Proof.
  unfold math_2. destruct (_ && _ && _); [discriminate|].
  destruct (_ && _ && _); [discriminate|]. congruence.
Qed.

Lemma haversine_not_neg P lat1 lon1 lat2 lon2 d :
  atan2_first_quadrant P ->
  haversine P lat1 lon1 lat2 lon2 = Returned d -> not_neg d.
Proof.
  intros Hq H. unfold haversine in H.
  repeat match type of H with
         | bind _ _ = Returned _ =>
             let x := fresh "x" in let E := fresh "E" in
             apply bind_Returned in H as (x & E & H)
         end.
  injection H as <-.
  match goal with
  | E1 : math_sqrt _ = Returned ?q1, E2 : math_sqrt (1 - _) = Returned ?q2,
    E3 : math_atan2 P ?q1 ?q2 = Returned _ |- _ =>
      apply math_1_value in E1, E2; apply math_2_value in E3; subst
  end.
  apply mul_not_neg; [exact I|].
  apply Hq; [apply sqrt_not_neg | apply sqrt_no_sign, one_minus_no_neg_zero].
Qed.

Lemma eta_of_floor d eta :
  not_neg d -> eta_of d = Returned eta -> eta = floor (d / 30 * 60)%float + 5.
Proof.
  intros Hd H. unfold eta_of in H.
  apply bind_Returned in H as (n & Hn & H). injection H as <-.
  unfold int_of_float in Hn.
  destruct (is_nan _); [discriminate|].
  destruct (is_infinity _); [discriminate|].
  injection Hn as <-. f_equal. apply trunc_floor.
  apply mul_not_neg; [|exact I]. apply div_not_neg; [trivial | exact I].
Qed.

Lemma run_tasks_eta P db : atan2_first_quadrant P ->
  forall ts db0 out,
    resources db0 = resources db ->
    (forall t, In t ts -> In t (pending db)) ->
    exists new,
      assignments (snd (run_tasks P ts db0 out)) = assignments db0 ++ new /\
      Forall (eta_matches P db) new.
Proof.
  intros Hq. induction ts as [|t ts IH]; simpl; intros db0 out HR Hts.
  - exists []. now rewrite app_nil_r.
  - destruct (schedule_task P db0 t) as [[db1 o]|e] eqn:E; simpl;
      [|exists []; now rewrite app_nil_r].
    apply schedule_task_spec in E
      as [[-> _] | (r & d & eta & Hin & _ & Hd & He & Hc & _)]; [now apply IH; auto|].
    apply commit_assignment_spec in Hc as (HR1 & _ & a & HA & Ht & Hr & Heta).
    destruct (IH db1 (out ++ o)) as (new & HA' & Hnew); [congruence | auto |].
    exists (a :: new). split.
    + now rewrite HA', HA, <- app_assoc.
    + constructor; trivial.
      exists t, r, d. rewrite <- HR. repeat split; auto.
      rewrite Heta. apply eta_of_floor; trivial.
      now apply haversine_not_neg in Hd.
Qed.

(** X1 (the ETA of C3). On a platform whose [atan2] is not negative on the first
    quadrant, every row a pass appends is for a task that was pending and
    a resource of the table, and its ETA is the floor of [d / 30 * 60]
    plus 5, where [d] is what [haversine] (radius 6371, so [12742 * atan2])
    returns for the coordinates of the two. *)
Theorem eta_of_every_assignment (P : Platform) (db : Db) :
  atan2_first_quadrant P ->
  exists new,
    assignments (snd (greedy_scheduler P db)) = assignments db ++ new /\
    Forall (eta_matches P db) new.
Proof.
  intros Hq. apply run_tasks_eta; trivial.
  intros t Ht. unfold processing_order in Ht.
  now apply (Permutation_in _ (Permutation_sym (sorted_perm _ _))) in Ht.
Qed.

Lemma small_angle_first_quadrant : atan2_first_quadrant small_angle.
Proof. intros y x. apply div_not_neg. Qed.

Lemma eta_of_every_assignment_witness :
  atan2_first_quadrant small_angle /\
  exists new,
    assignments (snd (greedy_scheduler small_angle Depot.db))
      = assignments Depot.db ++ new /\
    Forall (eta_matches small_angle Depot.db) new.
Proof.
  split; [exact small_angle_first_quadrant|].
  apply (eta_of_every_assignment small_angle Depot.db).
  exact small_angle_first_quadrant.
Defined.

(** ** What a pass and a request keep *)

Lemma next_id_fresh ids : ~ In (next_id ids) ids.
Proof.
  assert (H : forall i, In i ids -> i <= fold_right Z.max 0 ids).
  { induction ids as [|j ids IH]; simpl; [easy|].
    intros i [->|Hi]; [lia|]. specialize (IH i Hi). lia. }
  intros Hin. apply H in Hin. unfold next_id in Hin. lia.
Qed.

Lemma NoDup_snoc {A} (l : list A) x : NoDup l -> ~ In x l -> NoDup (l ++ [x]).
Proof.
  intros Hl Hx. apply NoDup_app; trivial.
  - repeat constructor. easy.
  - intros y Hy [<-|[]]. contradiction.
Qed.

Lemma mark_assigned_ids i ts : map Task.id (mark_assigned i ts) = map Task.id ts.
Proof.
  unfold mark_assigned. rewrite map_map. apply map_ext.
  intros x. now destruct (Task.id x =? i).
Qed.

Lemma mark_assigned_other i ts t :
  In t ts -> Task.id t <> i -> In t (mark_assigned i ts).
Proof.
  intros Hin Hne. unfold mark_assigned. apply in_map_iff. exists t.
  split; trivial. now destruct (Z.eqb_spec (Task.id t) i).
Qed.

Lemma mark_assigned_inv i ts y :
  In y (mark_assigned i ts) ->
  exists x, In x ts /\
    ((Task.id x = i /\ y = Task.with_status "assigned" x) \/
     (Task.id x <> i /\ y = x)).
Proof.
  unfold mark_assigned. intros H. apply in_map_iff in H as (x & <- & Hx).
  exists x. split; trivial.
  destruct (Z.eqb_spec (Task.id x) i); auto.
Qed.

Section Invariants.

Variable P : Platform.

(** Everything one task of a pass can do to the database. *)
Lemma schedule_task_cases db t db' o :
  schedule_task P db t = Returned (db', o) ->
  (db' = db /\ o = []) \/
  exists r d eta,
    In r (resources db) /\ feasible db r /\
    haversine P (Task.lat t) (Task.lon t) (Resource.lat r) (Resource.lon r)
      = Returned d /\
    eta_of d = Returned eta /\
    - 2 ^ 63 <= eta < 2 ^ 63 /\
    db' = {| resources := resources db;
             tasks := mark_assigned (Task.id t) (tasks db);
             assignments := assignments db ++
               [ {| Assignment.id := next_id (map Assignment.id (assignments db));
                    Assignment.task_id := Task.id t;
                    Assignment.resource_id := Resource.id r;
                    Assignment.eta_minutes := eta |} ] |} /\
    o = [ {| entry_task := Task.title t; entry_resource := Resource.name r;
             entry_eta := eta |} ].
Proof.
  intros H. apply schedule_task_spec in H
    as [H | (r & d & eta & Hin & Hlt & Hd & He & Hc & Ho)]; [now left|].
  right. exists r, d, eta. unfold commit_assignment, sqlite_int in Hc.
  destruct (Z.leb_spec (- 2 ^ 63) eta), (Z.ltb_spec eta (2 ^ 63));
    simpl in Hc; try discriminate.
  injection Hc as <-. repeat split; trivial.
Qed.

Lemma run_tasks_inv (I : Db -> list Task.t -> Prop) :
  (forall db t ts db' o,
     I db (t :: ts) -> schedule_task P db t = Returned (db', o) -> I db' ts) ->
  forall ts db out,
    I db ts -> exists ts', I (snd (run_tasks P ts db out)) ts'.
Proof.
  intros Hstep. induction ts as [|t ts IH]; simpl; intros db out HI.
  - now exists [].
  - destruct (schedule_task P db t) as [[db' o]|e] eqn:E; simpl.
    + apply IH. eapply Hstep; eauto.
    + now exists (t :: ts).
Qed.

Lemma serve_inv (J : Db -> Prop) :
  (forall db, J db -> J (snd (greedy_scheduler P db))) ->
  (forall db f db' i, J db -> commit_task db f = Returned (db', i) -> J db') ->
  forall reqs db, J db -> J (serve P reqs db).
Proof.
  intros Hpass Hadd. induction reqs as [|q reqs IH]; simpl; intros db HJ; trivial.
  apply IH. destruct q as [d|]; simpl.
  - unfold add_task.
    destruct (new_task P d) as [f|e]; trivial.
    destruct (commit_task db f) as [[db' i]|e] eqn:E; trivial.
    specialize (Hpass db' (Hadd _ _ _ _ HJ E)).
    now destruct (greedy_scheduler P db') as [[out|e] db''].
  - unfold run_scheduler. specialize (Hpass db HJ).
    now destruct (greedy_scheduler P db) as [[out|e] db'].
Qed.

Lemma commit_task_cases db f db' i :
  commit_task db f = Returned (db', i) ->
  exists t,
    db' = {| resources := resources db; tasks := tasks db ++ [t];
             assignments := assignments db |} /\
    i = next_id (map Task.id (tasks db)) /\ Task.id t = i /\
    Task.status t = "pending"%string.
Proof.
  destruct f as [[[[ti de] la] lo] u]. unfold commit_task. intros H.
  apply bind_Returned in H as (ti' & _ & H).
  apply bind_Returned in H as (de' & _ & H).
  apply bind_Returned in H as (u' & _ & H).
  injection H as <- <-. eexists. split; [reflexivity|]. simpl. auto.
Qed.

(** *** Primary keys *)

Lemma keys_unique_pass db :
  task_ids_unique db /\ assignment_ids_unique db ->
  task_ids_unique (snd (greedy_scheduler P db)) /\
  assignment_ids_unique (snd (greedy_scheduler P db)).
Proof.
  intros H.
  destruct (run_tasks_inv
              (fun db _ => task_ids_unique db /\ assignment_ids_unique db))
    with (ts := processing_order db) (db := db) (out := @nil Entry)
    as (_ & H'); trivial.
  clear. intros db t ts db' o [Ht Ha] E.
  apply schedule_task_cases in E
    as [[-> _] | (r & d & eta & _ & _ & _ & _ & _ & -> & _)]; [auto|].
  unfold task_ids_unique, assignment_ids_unique; simpl. split.
  - now rewrite mark_assigned_ids.
  - rewrite map_app. simpl. apply NoDup_snoc; trivial. apply next_id_fresh.
Qed.

Lemma keys_unique_serve reqs db :
  task_ids_unique db /\ assignment_ids_unique db ->
  task_ids_unique (serve P reqs db) /\ assignment_ids_unique (serve P reqs db).
Proof.
  apply (serve_inv (fun db => task_ids_unique db /\ assignment_ids_unique db)).
  - apply keys_unique_pass.
  - intros d f db' i [Ht Ha] E.
    apply commit_task_cases in E as (t & -> & -> & Hid & _).
    unfold task_ids_unique, assignment_ids_unique; simpl. split; trivial.
    rewrite map_app. simpl. apply NoDup_snoc; trivial.
    rewrite Hid. apply next_id_fresh.
Qed.

Lemma processing_order_perm db :
  Permutation (pending db) (processing_order db).
Proof. apply sorted_perm. Qed.

Lemma processing_order_in db t :
  In t (processing_order db) ->
  In t (tasks db) /\ Task.status t = "pending"%string.
Proof.
  intros H.
  apply (Permutation_in _ (Permutation_sym (processing_order_perm db))) in H.
  unfold pending in H. apply filter_In in H as [H1 H2].
  split; trivial. now apply String.eqb_eq.
Qed.

(** *** References *)

Lemma rows_refer_pass db :
  rows_refer db -> rows_refer (snd (greedy_scheduler P db)).
Proof.
  intros H.
  destruct (run_tasks_inv
              (fun db ts => rows_refer db /\
                 forall t, In t ts -> In (Task.id t) (map Task.id (tasks db))))
    with (ts := processing_order db) (db := db) (out := @nil Entry)
    as (_ & H' & _); trivial.
  - clear. intros db t ts db' o [Hr Hts] E.
    assert (Ht : In (Task.id t) (map Task.id (tasks db))) by (apply Hts; now left).
    apply schedule_task_cases in E
      as [[-> _] | (r & d & eta & Hin & _ & _ & _ & _ & -> & _)].
    + split; trivial. intros; apply Hts; now right.
    + split.
      * intros a Ha. simpl in *. rewrite mark_assigned_ids.
        apply in_app_iff in Ha as [Ha | [<- | []]]; [now apply Hr|].
        simpl. split; trivial. now apply in_map.
      * intros t' Ht'. simpl. rewrite mark_assigned_ids. apply Hts. now right.
  - split; trivial. intros t Ht. apply processing_order_in in Ht as [Ht _].
    now apply in_map.
Qed.

Lemma rows_refer_serve reqs db : rows_refer db -> rows_refer (serve P reqs db).
Proof.
  apply (serve_inv rows_refer).
  - apply rows_refer_pass.
  - intros d f db' i Hr E.
    apply commit_task_cases in E as (t & -> & _).
    intros a Ha. simpl in *. destruct (Hr a Ha) as [H1 H2]. split; trivial.
    rewrite map_app. apply in_app_iff. now left.
Qed.

(** *** One row per task *)

Lemma NoDup_map_filter {A B} (f : A -> B) (p : A -> bool) l :
  NoDup (map f l) -> NoDup (map f (filter p l)).
Proof.
  induction l as [|x l IH]; simpl; intros H; [constructor|].
  inversion H as [|? ? Hx Hl]; subst.
  destruct (p x); simpl; auto.
  constructor; auto. intros Hin. apply Hx.
  apply in_map_iff in Hin as (y & E & Hy). apply filter_In in Hy as [Hy _].
  rewrite <- E. now apply in_map.
Qed.

Lemma tasks_consistent_pass db :
  tasks_consistent db -> tasks_consistent (snd (greedy_scheduler P db)).
Proof.
  intros H.
  destruct (run_tasks_inv
              (fun db ts => tasks_consistent db /\
                 NoDup (map Task.id ts) /\
                 forall t, In t ts ->
                   In t (tasks db) /\ Task.status t = "pending"%string))
    with (ts := processing_order db) (db := db) (out := @nil Entry)
    as (_ & H' & _); trivial.
  - clear. intros db t ts db' o ((Hu & Hr & Hp & Ho) & Hnd & Hts) E.
    simpl in Hnd. inversion Hnd as [|? ? Hnt Hnd']; subst.
    destruct (Hts t (or_introl eq_refl)) as [Ht Hst].
    apply schedule_task_cases in E
      as [[-> _] | (r & d & eta & Hin & _ & _ & _ & _ & -> & _)].
    + repeat split; trivial; apply Hts; now right.
    + unfold tasks_consistent, task_ids_unique, pending_unassigned,
        one_row_per_task. simpl. rewrite mark_assigned_ids.
      repeat split; trivial.
      * intros a Ha. apply in_app_iff in Ha as [Ha | [<- | []]]; auto.
        simpl. now apply in_map.
      * intros y a Hy Ha Hpend.
        apply mark_assigned_inv in Hy as (x & Hx & [[Hid ->] | [Hid ->]]);
          [discriminate Hpend|].
        apply in_app_iff in Ha as [Ha | [<- | []]]; [now apply Hp|].
        simpl. congruence.
      * rewrite map_app. simpl. apply NoDup_snoc; trivial.
        intros Hin'. apply in_map_iff in Hin' as (a & Ea & Ha).
        now apply (Hp t a).
      * apply mark_assigned_other; [apply Hts; now right|].
        intros E. apply Hnt. rewrite <- E. now apply in_map.
      * apply Hts. now right.
  - destruct H as (Hu & Hr & Hp & Ho). repeat split; trivial.
    + apply (Permutation_NoDup
               (Permutation_map Task.id (processing_order_perm db))).
      unfold pending. now apply NoDup_map_filter.
    + now apply processing_order_in.
    + now apply (processing_order_in db).
Qed.

Lemma tasks_consistent_serve reqs db :
  tasks_consistent db -> tasks_consistent (serve P reqs db).
Proof.
  apply (serve_inv tasks_consistent).
  - apply tasks_consistent_pass.
  - intros d f db' i (Hu & Hr & Hp & Ho) E.
    apply commit_task_cases in E as (t & -> & -> & Hid & Hst).
    unfold tasks_consistent, task_ids_unique, pending_unassigned,
      one_row_per_task. simpl. repeat split; trivial.
    + rewrite map_app. simpl. apply NoDup_snoc; trivial.
      rewrite Hid. apply next_id_fresh.
    + intros a Ha. rewrite map_app. apply in_app_iff. left. auto.
    + intros y a Hy Ha Hpend. apply in_app_iff in Hy as [Hy | [<- | []]].
      * now apply Hp.
      * rewrite Hid. intros E. apply (next_id_fresh (map Task.id (tasks d))).
        rewrite <- E. auto.
Qed.

End Invariants.

(** ** Reading the tables back *)

Lemma fold_newer_spec rows : forall acc,
  match fold_left newer rows acc with
  | Some a =>
      (acc = Some a \/ In a rows) /\
      (forall b, acc = Some b -> Assignment.id b <= Assignment.id a) /\
      (forall b, In b rows -> Assignment.id b <= Assignment.id a)
  | None => acc = None /\ rows = []
  end.
Proof.
  induction rows as [|x rows IH]; intros acc; simpl.
  - destruct acc as [a|]; [|auto]. repeat split; auto.
    + intros b [= ->]. lia.
    + intros b [].
  - specialize (IH (newer acc x)).
    destruct (fold_left newer rows (newer acc x)) as [a|].
    + destruct IH as (Hin & Hacc & Hrows).
      assert (Hx : Assignment.id x <= Assignment.id a).
      { unfold newer in Hacc. destruct acc as [b|]; [|now apply Hacc].
        destruct (Z.ltb_spec (Assignment.id b) (Assignment.id x)).
        - now apply Hacc.
        - specialize (Hacc b eq_refl). lia. }
      repeat split.
      * destruct Hin as [Hin | Hin]; [|auto].
        unfold newer in Hin. destruct acc as [b|]; [|injection Hin as <-; auto].
        destruct (Assignment.id b <? Assignment.id x);
          [injection Hin as <-|]; auto.
      * intros b ->. unfold newer in Hacc.
        destruct (Z.ltb_spec (Assignment.id b) (Assignment.id x)).
        -- lia.
        -- now apply Hacc.
      * intros b [<- | Hb]; auto.
    + destruct IH as (Hacc & _). unfold newer in Hacc.
      destruct acc as [b|]; [|discriminate].
      destruct (Assignment.id b <? Assignment.id x); discriminate.
Qed.

Lemma latest_assignment_spec (db : Db) (task_id : Z) :
  match latest_assignment db task_id with
  | Some a =>
      In a (assignments db) /\ Assignment.task_id a = task_id /\
      forall b, In b (assignments db) -> Assignment.task_id b = task_id ->
        Assignment.id b <= Assignment.id a
  | None =>
      forall b, In b (assignments db) -> Assignment.task_id b <> task_id
  end.
Proof.
  unfold latest_assignment.
  pose proof (fold_newer_spec
                (filter (fun a => Assignment.task_id a =? task_id)
                        (assignments db)) None) as H.
  destruct (fold_left newer _ None) as [a|].
  - destruct H as ([H | H] & _ & Hmax); [discriminate|].
    apply filter_In in H as [Hin Hid]. apply Z.eqb_eq in Hid.
    repeat split; trivial.
    intros b Hb Eb. apply Hmax. apply filter_In. split; trivial.
    now apply Z.eqb_eq.
  - destruct H as [_ H]. intros b Hb Eb.
    assert (Hin : In b (filter (fun a => Assignment.task_id a =? task_id)
                               (assignments db))).
    { apply filter_In. split; trivial. now apply Z.eqb_eq. }
    now rewrite H in Hin.
Qed.

(** X15. [latest_assignment] finds the row of the task with the greatest id,
    and finds nothing exactly when the task has no row. *)
Theorem latest_assignment_is_newest (db : Db) (task_id : Z) :
  match latest_assignment db task_id with
  | Some a =>
      In a (assignments db) /\ Assignment.task_id a = task_id /\
      forall b, In b (assignments db) -> Assignment.task_id b = task_id ->
        Assignment.id b <= Assignment.id a
  | None =>
      forall b, In b (assignments db) -> Assignment.task_id b <> task_id
  end.
Proof. apply latest_assignment_spec. Qed.

Lemma filter_no_row rows k :
  ~ In k (map Assignment.task_id rows) ->
  filter (fun b => Assignment.task_id b =? k) rows = [].
Proof.
  induction rows as [|x rows IH]; simpl; intros H; trivial.
  destruct (Z.eqb_spec (Assignment.task_id x) k); [tauto|]. apply IH. tauto.
Qed.

Lemma filter_unique_row rows a :
  NoDup (map Assignment.task_id rows) -> In a rows ->
  filter (fun b => Assignment.task_id b =? Assignment.task_id a) rows = [a].
Proof.
  induction rows as [|x rows IH]; simpl; intros Hnd Hin; [easy|].
  inversion Hnd as [|? ? Hx Hnd']; subst.
  destruct Hin as [-> | Hin].
  - rewrite Z.eqb_refl. f_equal. now apply filter_no_row.
  - destruct (Z.eqb_spec (Assignment.task_id x) (Assignment.task_id a)) as [E|_].
    + exfalso. apply Hx. rewrite E. now apply in_map.
    + auto.
Qed.

Lemma get_resource_unique db r :
  resource_ids_unique db -> In r (resources db) ->
  get_resource db (Resource.id r) = Some r.
Proof.
  intros Hnd Hin. unfold get_resource.
  destruct (find _ (resources db)) as [r'|] eqn:E.
  - apply find_some in E as [Hin' E]. apply Z.eqb_eq in E.
    f_equal. now apply (NoDup_map_eq Resource.id (resources db)).
  - apply (find_none _ _ E) in Hin. now rewrite Z.eqb_refl in Hin.
Qed.

(** X16. With one row per task and unique resource ids, the listing shows
    for a task the ETA of its row and the name of the resource of that
    row. *)
Theorem list_tasks_shows_the_row (db : Db) (t : Task.t) (a : Assignment.t)
    (r : Resource.t) :
  one_row_per_task db -> resource_ids_unique db ->
  In t (tasks db) -> In a (assignments db) -> In r (resources db) ->
  Assignment.task_id a = Task.id t ->
  Assignment.resource_id a = Resource.id r ->
  In (task_view db t) (list_tasks db) /\
  view_eta (task_view db t) = Some (Assignment.eta_minutes a) /\
  view_resource (task_view db t) = Some (Resource.name r).
Proof.
  intros Ho Hu Ht Ha Hr Et Er. split; [now apply in_map|].
  unfold task_view, latest_assignment. rewrite <- Et.
  rewrite filter_unique_row by trivial. simpl.
  rewrite Er, get_resource_unique by trivial. auto.
Qed.

(** X17. A task that is pending is listed without resource and without
    ETA, after any requests on a database whose tasks and rows agree. *)
Theorem pending_task_lists_no_eta (P : Platform) (reqs : list request)
    (db : Db) (v : TaskView) :
  tasks_consistent db ->
  In v (list_tasks (serve P reqs db)) ->
  view_status v = "pending"%string ->
  view_resource v = None /\ view_eta v = None.
Proof.
  intros Hc Hv Hst.
  apply (tasks_consistent_serve P reqs) in Hc as (_ & _ & Hp & _).
  unfold list_tasks in Hv. apply in_map_iff in Hv as (t & <- & Ht).
  simpl in Hst. unfold task_view.
  pose proof (latest_assignment_spec (serve P reqs db) (Task.id t)) as H.
  destruct (latest_assignment _ _) as [a|]; simpl; auto.
  destruct H as (Ha & Ea & _). now destruct (Hp t a Ht Ha Hst).
Qed.

(** ** Loads against capacities *)

Lemma count_rows_cons a rows i :
  count_rows (a :: rows) i
  = (if Assignment.resource_id a =? i then 1 else 0) + count_rows rows i.
Proof.
  change (a :: rows) with ([a] ++ rows).
  now rewrite count_rows_app, count_rows_one.
Qed.

Lemma sum_indicator (ids : list Z) k :
  NoDup ids ->
  fold_right Z.add 0 (map (fun i => if k =? i then 1 else 0) ids)
  = if in_dec Z.eq_dec k ids then 1 else 0.
Proof.
  induction ids as [|i ids IH]; simpl; intros Hnd; trivial.
  inversion Hnd as [|? ? Hi Hnd']; subst. rewrite IH by trivial.
  destruct (Z.eqb_spec k i) as [E1|E1], (Z.eq_dec i k) as [E2|E2];
    try congruence; destruct (in_dec Z.eq_dec k ids) as [Hin|Hin];
    trivial; try lia.
  subst. contradiction.
Qed.

Lemma loads_add_up rs rows :
  NoDup (map Resource.id rs) ->
  (forall a, In a rows -> In (Assignment.resource_id a) (map Resource.id rs)) ->
  fold_right Z.add 0 (map (fun r => count_rows rows (Resource.id r)) rs)
  = Z.of_nat (List.length rows).
Proof.
  intros Hnd. induction rows as [|a rows IH]; intros Href.
  - clear. induction rs as [|r rs IHr]; simpl; trivial.
  - assert (E : fold_right Z.add 0
                  (map (fun r => count_rows (a :: rows) (Resource.id r)) rs)
                = fold_right Z.add 0
                    (map (fun i => if Assignment.resource_id a =? i
                                   then 1 else 0) (map Resource.id rs))
                  + fold_right Z.add 0
                      (map (fun r => count_rows rows (Resource.id r)) rs)).
    { clear. induction rs as [|r rs IHr]; simpl; trivial.
      rewrite IHr, count_rows_cons. lia. }
    rewrite E, IH, sum_indicator by (trivial; intros; apply Href; now right).
    destruct (in_dec Z.eq_dec _ _) as [_|Hn].
    + simpl List.length. lia.
    + exfalso. apply Hn, Href. now left.
Qed.

Lemma guarded_within rs :
  NoDup (map Resource.id rs) ->
  forall new old,
    (forall r, In r rs -> count_rows old (Resource.id r) <= Resource.capacity r) ->
    guarded rs old new ->
    forall r, In r rs ->
      count_rows (old ++ new) (Resource.id r) <= Resource.capacity r.
Proof.
  intros Hnd. induction new as [|a new IH]; intros old Hold G.
  - now rewrite app_nil_r.
  - replace (old ++ a :: new) with ((old ++ [a]) ++ new)
      by now rewrite <- app_assoc.
    apply IH.
    + destruct (G [] a new eq_refl) as (r0 & Hin0 & Hid0 & Hlt0).
      rewrite app_nil_r in Hlt0.
      intros r Hin. rewrite count_rows_app, count_rows_one.
      destruct (Z.eqb_spec (Assignment.resource_id a) (Resource.id r)) as [E|_].
      * assert (r = r0) as ->
          by (apply (NoDup_map_eq Resource.id rs); trivial; congruence).
        lia.
      * specialize (Hold r Hin). lia.
    + intros pre b post E.
      destruct (G (a :: pre) b post) as (r & ? & ? & ?); [now rewrite E|].
      exists r. now rewrite <- app_assoc.
Qed.

Lemma within_capacity_serve P reqs db :
  resource_ids_unique db -> within_capacity db ->
  within_capacity (serve P reqs db).
Proof.
  intros Hnd Hw. destruct (serve_extends P reqs db) as (HR & new & HA & G).
  intros r Hin. unfold current_load. rewrite HA. rewrite HR in Hin.
  now apply guarded_within with (rs := resources db).
Qed.

Lemma sum_le {A} (f g : A -> Z) l :
  (forall x, In x l -> f x <= g x) ->
  fold_right Z.add 0 (map f l) <= fold_right Z.add 0 (map g l).
Proof.
  induction l as [|x l IH]; simpl; intros H; [lia|].
  specialize (H x (or_introl eq_refl)) as Hx.
  specialize (IH (fun y Hy => H y (or_intror Hy))). lia.
Qed.

(** X18. With unique resource ids and rows that name resources of the
    table, the loads [list_resources] reports add up to the number of
    assignment rows. *)
Theorem list_resources_loads_add_up (db : Db) :
  resource_ids_unique db -> rows_refer db ->
  fold_right Z.add 0 (map shown_current_load (list_resources db))
  = Z.of_nat (List.length (assignments db)).
Proof.
  intros Hnd Href. unfold list_resources. rewrite map_map. simpl.
  apply loads_add_up; trivial. intros a Ha. now apply Href.
Qed.

Lemma rows_bounded_by_capacity (P : Platform) (reqs : list request)
    (db : Db) :
  resource_ids_unique db -> rows_refer db -> within_capacity db ->
  Z.of_nat (List.length (assignments (serve P reqs db))) <= total_capacity db.
Proof.
  intros Hnd Href Hw.
  pose proof (within_capacity_serve P reqs db Hnd Hw) as Hw'.
  pose proof (rows_refer_serve P reqs db Href) as Href'.
  destruct (serve_extends P reqs db) as (HR & _).
  rewrite <- (loads_add_up (resources db)); trivial.
  - unfold total_capacity. apply sum_le. intros r Hr.
    apply Hw'. now rewrite HR.
  - intros a Ha. rewrite <- HR. now apply Href'.
Qed.

(** X19. Nothing frees capacity: on a database with unique resource ids,
    rows that name its resources and loads within capacity, no sequence
    of requests brings the number of assignment rows above the sum of the
    capacities. *)
Theorem assignments_bounded_by_capacity (P : Platform) (reqs : list request)
    (db : Db) :
  resource_ids_unique db -> rows_refer db -> within_capacity db ->
  Z.of_nat (List.length (assignments (serve P reqs db))) <= total_capacity db.
Proof. apply rows_bounded_by_capacity. Qed.

(** ** The order of binary64 numbers *)

Lemma SFcompare_trans x y z c :
  SFcompare x y = Some Lt -> SFcompare y z = Some c -> c <> Gt ->
  SFcompare x z = Some Lt.
Proof.
  destruct x as [[]|[]| |[] m1 e1], y as [[]|[]| |[] m2 e2],
           z as [[]|[]| |[] m3 e3]; simpl; try discriminate; trivial;
    try solve [close_compare];
    change (Pos.compare_cont Eq) with Pos.compare;
    destruct (Z.compare_spec e1 e2), (Z.compare_spec e2 e3),
             (Z.compare_spec e1 e3); try solve [close_compare];
    destruct (Pos.compare_spec m1 m2), (Pos.compare_spec m2 m3),
             (Pos.compare_spec m1 m3); simpl; solve [close_compare].
Qed.

Lemma SFcompare_Lt_Gt x y : SFcompare x y = Some Lt -> SFcompare y x = Some Gt.
Proof.
  destruct x as [[]|[]| |[] m1 e1], y as [[]|[]| |[] m2 e2];
    simpl; try discriminate; trivial;
    change (Pos.compare_cont Eq) with Pos.compare;
    destruct (Z.compare_spec e1 e2), (Z.compare_spec e2 e1);
      try solve [close_compare];
    destruct (Pos.compare_spec m1 m2), (Pos.compare_spec m2 m1); simpl;
      solve [close_compare].
Qed.

Lemma ltb_trans x y z :
  (x <? y)%float = true -> (y <? z)%float = true -> (x <? z)%float = true.
Proof.
  rewrite !ltb_spec. unfold SFltb. intros H1 H2.
  destruct (SFcompare (Prim2SF x) (Prim2SF y)) as [[]|] eqn:E1; try discriminate.
  destruct (SFcompare (Prim2SF y) (Prim2SF z)) as [[]|] eqn:E2; try discriminate.
  now rewrite (SFcompare_trans _ _ _ Lt E1 E2).
Qed.

Lemma ltb_leb_trans x y z :
  (x <? y)%float = true -> (y <=? z)%float = true -> (x <? z)%float = true.
Proof.
  rewrite !ltb_spec, leb_spec. unfold SFltb, SFleb. intros H1 H2.
  destruct (SFcompare (Prim2SF x) (Prim2SF y)) as [[]|] eqn:E1; try discriminate.
  destruct (SFcompare (Prim2SF y) (Prim2SF z)) as [c|] eqn:E2; try discriminate.
  rewrite (SFcompare_trans _ _ _ c E1 E2); trivial. now destruct c.
Qed.

Lemma ltb_leb_false x y : (x <? y)%float = true -> (y <=? x)%float = false.
Proof.
  rewrite ltb_spec, leb_spec. unfold SFltb, SFleb. intros H.
  destruct (SFcompare (Prim2SF x) (Prim2SF y)) as [[]|] eqn:E; try discriminate.
  now rewrite (SFcompare_Lt_Gt _ _ E).
Qed.

(** ** What the inner loop selects *)

Section Selection.

Variable P : Platform.

Lemma consider_cases db t acc r p :
  consider P db t acc r = Returned p ->
  (~ feasible db r /\ p = acc) \/
  (feasible db r /\ exists sc, scored P db t r sc /\
     (((best_score acc <? sc)%float = true /\
       best p = Some r /\ best_score p = sc) \/
      ((best_score acc <? sc)%float = false /\ p = acc))).
Proof.
  unfold consider, feasible.
  destruct (Z.geb_spec (current_load db (Resource.id r)) (Resource.capacity r))
    as [Hge | Hlt].
  - intros [= <-]. left. split; [lia | trivial].
  - intros H. right. split; trivial.
    apply bind_Returned in H as (d & Hd & H).
    apply bind_Returned in H as (sc & Hs & H).
    exists sc. split; [now exists d|].
    destruct (best_score acc <? sc)%float eqn:Hc; injection H as <-; auto.
Qed.

Lemma scored_unique db t r sc sc' :
  scored P db t r sc -> scored P db t r sc' -> sc = sc'.
Proof. intros (d & Hd & Hs) (d' & Hd' & Hs'). congruence. Qed.

Lemma select_loop db t rs : forall acc p,
  for_each (consider P db t) rs acc = Returned p ->
  (p = acc /\
   forall r sc, In r rs -> feasible db r -> scored P db t r sc ->
     (best_score acc <? sc)%float = false) \/
  (exists before r after,
     rs = before ++ r :: after /\ best p = Some r /\
     feasible db r /\ scored P db t r (best_score p) /\
     (best_score acc <? best_score p)%float = true /\
     (forall r' sc, In r' before -> feasible db r' -> scored P db t r' sc ->
        (best_score p <=? sc)%float = false) /\
     (forall r' sc, In r' after -> feasible db r' -> scored P db t r' sc ->
        (best_score p <? sc)%float = false)).
Proof.
  induction rs as [|r0 rs IH]; simpl; intros acc p H.
  - injection H as <-. left. split; trivial. intros r sc [].
  - apply bind_Returned in H as (acc1 & H0 & H).
    apply consider_cases in H0
      as [[Hnf ->] | (Hf & sc0 & Hsc0 & [(Hlt & Hb & Hs) | (Hnlt & ->)])].
    + (* r0 is at capacity *)
      destruct (IH _ _ H) as [[-> Hall] | (bf & r & af & -> & Hr)].
      * left. split; trivial. intros r sc [<- | Hin] Hfe Hscd; [tauto | eauto].
      * right. exists (r0 :: bf), r, af.
        destruct Hr as (? & ? & ? & ? & Hbf & ?). repeat split; trivial.
        intros r' sc [<- | Hin] Hfe Hscd; [tauto | eauto].
    + (* r0 becomes the choice *)
      destruct (IH _ _ H) as [[-> Hall] | (bf & r & af & -> & Hr)].
      * right. exists [], r0, rs. rewrite Hs in *. repeat split; trivial.
        intros r' sc [].
      * right. exists (r0 :: bf), r, af.
        destruct Hr as (Hbp & Hfr & Hscr & Hlt' & Hbf & Haf). rewrite Hs in Hlt'.
        repeat split; trivial.
        -- now apply ltb_trans with sc0.
        -- intros r' sc [<- | Hin] Hfe Hscd; [|eauto].
           rewrite (scored_unique _ _ _ _ _ Hscd Hsc0).
           now apply ltb_leb_false.
    + (* r0 does not beat the choice so far *)
      destruct (IH _ _ H) as [[-> Hall] | (bf & r & af & -> & Hr)].
      * left. split; trivial. intros r sc [<- | Hin] Hfe Hscd; [|eauto].
        now rewrite (scored_unique _ _ _ _ _ Hscd Hsc0).
      * right. exists (r0 :: bf), r, af.
        destruct Hr as (Hbp & Hfr & Hscr & Hlt' & Hbf & Haf).
        repeat split; trivial.
        intros r' sc [<- | Hin] Hfe Hscd; [|eauto].
        rewrite (scored_unique _ _ _ _ _ Hscd Hsc0).
        destruct (best_score p <=? sc0)%float eqn:Hle; trivial.
        now rewrite (ltb_leb_trans _ _ _ Hlt' Hle) in Hnlt.
Qed.

(** X5. When the inner loop ends normally without a choice, no resource
    below its capacity scores above -999.  When it ends with a choice,
    that resource is below its capacity and scores above -999, every such
    resource before it in the table scores strictly less (or NaN), and
    none after it scores more. *)
Theorem select_takes_first_best (db : Db) (t : Task.t) (p : Pick) :
  select P db t = Returned p ->
  match best p with
  | None =>
      forall r sc, In r (resources db) -> feasible db r ->
        scored P db t r sc -> ((-999) <? sc)%float = false
  | Some r =>
      exists before after,
        resources db = before ++ r :: after /\
        feasible db r /\ scored P db t r (best_score p) /\
        ((-999) <? best_score p)%float = true /\
        (forall r' sc, In r' before -> feasible db r' ->
           scored P db t r' sc -> (best_score p <=? sc)%float = false) /\
        (forall r' sc, In r' after -> feasible db r' ->
           scored P db t r' sc -> (best_score p <? sc)%float = false)
  end.
Proof.
  intros H. apply select_loop in H
    as [[-> Hall] | (bf & r & af & E & Hb & Hr)].
  - exact Hall.
  - rewrite Hb. exists bf, af. tauto.
Qed.

End Selection.

(** ** Task rows over time *)

Lemma advanced_refl l : Forall2 advanced l l.
Proof. induction l; constructor; trivial. now left. Qed.

Lemma advanced_trans_1 x y z : advanced x y -> advanced y z -> advanced x z.
Proof.
  intros [-> | ->] [-> | ->]; unfold advanced; auto.
Qed.

Lemma advanced_trans l1 : forall l2 l3,
  Forall2 advanced l1 l2 -> Forall2 advanced l2 l3 -> Forall2 advanced l1 l3.
Proof.
  induction l1 as [|x l1 IH]; intros l2 l3 H12 H23;
    inversion H12; subst; inversion H23; subst; constructor.
  - eapply advanced_trans_1; eauto.
  - eapply IH; eauto.
Qed.

Lemma advanced_mark i l : Forall2 advanced l (mark_assigned i l).
Proof.
  induction l as [|x l IH]; simpl; constructor; trivial.
  destruct (Task.id x =? i); [now right | now left].
Qed.

Section TaskRows.

Variable P : Platform.

Lemma tasks_advance_pass db :
  Forall2 advanced (tasks db) (tasks (snd (greedy_scheduler P db))).
Proof.
  destruct (run_tasks_inv P
              (fun db' _ => Forall2 advanced (tasks db) (tasks db')))
    with (ts := processing_order db) (db := db) (out := @nil Entry)
    as (_ & H); trivial; [|apply advanced_refl].
  intros db1 t ts db' o H E.
  apply schedule_task_cases in E
    as [[-> _] | (r & d & eta & _ & _ & _ & _ & _ & -> & _)]; trivial.
  simpl. eapply advanced_trans; [exact H | apply advanced_mark].
Qed.

(** X10. No request removes or rewrites a task: after any requests the
    tasks table starts with the rows it had, in their order, each
    unchanged or with only its status turned to assigned; rows are only
    added after them. *)
Theorem tasks_only_advance (reqs : list request) (db : Db) :
  exists kept added,
    tasks (serve P reqs db) = kept ++ added /\
    Forall2 advanced (tasks db) kept.
Proof.
  apply (serve_inv P (fun db' => exists kept added,
           tasks db' = kept ++ added /\ Forall2 advanced (tasks db) kept)).
  - intros db1 (kept & added & E & H).
    pose proof (tasks_advance_pass db1) as H1. rewrite E in H1.
    apply Forall2_app_inv_l in H1 as (k' & a' & Hk & Ha & ->).
    exists k', a'. split; trivial. eapply advanced_trans; eauto.
  - intros db1 f db' i (kept & added & E & H) Ec.
    apply commit_task_cases in Ec as (t & -> & _). simpl.
    exists kept, (added ++ [t]). split; trivial.
    now rewrite E, app_assoc.
  - exists (tasks db), []. rewrite app_nil_r. split; trivial.
    apply advanced_refl.
Qed.

(** ** What a pass returns *)

Lemma run_tasks_entries db0 : forall ts db out,
  resources db = resources db0 ->
  (forall t, In t ts -> In t (pending db0)) ->
  match run_tasks P ts db out with
  | (Returned out', db') =>
      exists outn new,
        out' = out ++ outn /\ assignments db' = assignments db ++ new /\
        Forall2 (entry_of_row db0) outn new
  | (Raised _, _) => True
  end.
Proof.
  induction ts as [|t ts IH]; simpl; intros db out HR Hts.
  - exists [], []. rewrite !app_nil_r. repeat split. constructor.
  - destruct (schedule_task P db t) as [[db1 o]|e] eqn:E; trivial.
    assert (Hts' : forall t', In t' ts -> In t' (pending db0)) by auto.
    apply schedule_task_cases in E
      as [[-> ->] | (r & d & eta & Hin & _ & _ & _ & _ & -> & ->)].
    + rewrite app_nil_r. now apply IH.
    + specialize (IH {| resources := resources db;
                        tasks := mark_assigned (Task.id t) (tasks db);
                        assignments := assignments db ++
                          [ {| Assignment.id :=
                                 next_id (map Assignment.id (assignments db));
                               Assignment.task_id := Task.id t;
                               Assignment.resource_id := Resource.id r;
                               Assignment.eta_minutes := eta |} ] |}
                     (out ++ [ {| entry_task := Task.title t;
                                  entry_resource := Resource.name r;
                                  entry_eta := eta |} ]) HR Hts').
      destruct (run_tasks P ts _ _) as [[out'|e] db']; trivial.
      destruct IH as (outn & new & -> & HA & HF). simpl in HA.
      eexists (_ :: outn), (_ :: new). rewrite <- !app_assoc in *.
      repeat split; [exact HA|].
      constructor; trivial. split; trivial.
      exists t, r. rewrite <- HR. repeat split; auto.
Qed.

(** X7. When [run_scheduler] answers, [count] is the length of the list
    it returns, the pass has appended exactly that many rows, and the
    entries describe these rows one by one, in order: same ETA, the title
    of the row's task and the name of its resource. *)
Theorem run_scheduler_reports_new_rows (db : Db) :
  match run_scheduler P db with
  | (Returned (out, n), db') =>
      n = Z.of_nat (List.length out) /\
      exists new,
        assignments db' = assignments db ++ new /\
        List.length new = List.length out /\
        Forall2 (entry_of_row db) out new
  | (Raised _, _) => True
  end.
Proof.
  unfold run_scheduler, greedy_scheduler.
  pose proof (run_tasks_entries db (processing_order db) db [] eq_refl) as H.
  destruct (run_tasks P (processing_order db) db []) as [[out|e] db']; trivial.
  destruct H as (outn & new & -> & HA & HF).
  - intros t Ht. now apply (Permutation_in _
                              (Permutation_sym (processing_order_perm db))).
  - split; trivial. exists new. repeat split; trivial.
    symmetry. eapply Forall2_length; eauto.
Qed.

(** X9. An exception ends the pass where it occurs: the rows committed
    for the tasks before it stay, and the tasks after it are not
    processed. *)
Theorem pass_stops_at_exception (db : Db) (ts1 ts2 : list Task.t)
    (t : Task.t) (out1 : list Entry) (db1 : Db) (e : exn) :
  processing_order db = ts1 ++ t :: ts2 ->
  run_tasks P ts1 db [] = (Returned out1, db1) ->
  schedule_task P db1 t = Raised e ->
  greedy_scheduler P db = (Raised e, db1) /\
  fst (run_scheduler P db) = Raised e /\
  exists kept, assignments db1 = assignments db ++ kept.
Proof.
  intros Hord H1 Ht. unfold run_scheduler, greedy_scheduler.
  rewrite Hord, run_tasks_app, H1. simpl. rewrite Ht. repeat split.
  pose proof (run_tasks_extends P ts1 db []) as (_ & new & HA & _).
  rewrite H1 in HA. now exists new.
Qed.

End TaskRows.

(** ** Distances and ETAs *)

(** X4. [haversine] raises [TypeError] exactly when one of the four
    coordinates is [None]. *)
Theorem haversine_null_coordinate (P : Platform)
    (lat1 lon1 lat2 lon2 : option float) :
  haversine P lat1 lon1 lat2 lon2 = Raised TypeError <->
  lat1 = None \/ lon1 = None \/ lat2 = None \/ lon2 = None.
Proof.
  split.
  - destruct lat1 as [a|], lon1 as [b|], lat2 as [c|], lon2 as [d|]; auto.
    intros H. exfalso. unfold haversine in H. cbn [math_radians float_sub bind] in H.
    unfold math_sin, math_cos, math_sqrt, math_atan2 in H.
    repeat match type of H with
           | bind _ _ = Raised _ =>
               apply bind_Raised in H as [H | (? & _ & H)]
           end;
      first [ apply math_1_raises in H
            | apply float_pow2_raises in H
            | apply math_2_raises in H as [H | H]
            | idtac ]; discriminate.
  - destruct lat1 as [a|], lon1 as [b|], lat2 as [c|], lon2 as [d|];
      intros [H | [H | [H | H]]]; try discriminate; reflexivity.
Qed.

Lemma floor_not_neg x : not_neg x -> 0 <= floor x.
Proof.
  unfold not_neg, floor.
  destruct (Prim2SF x) as [[]|[]| |[] m [|p|p]];
    unfold SF_floor, cond_Zopp; try easy; intros _;
    first [ apply Z.div_pos; [lia | apply Z.pow_pos_nonneg; lia]
          | apply Z.mul_nonneg_nonneg; [lia | apply Z.pow_nonneg; lia] ].
Qed.

Section Eta.

Variable P : Platform.
Hypothesis first_quadrant : atan2_first_quadrant P.

Lemma eta_bounds_pass db :
  exists new,
    assignments (snd (greedy_scheduler P db)) = assignments db ++ new /\
    Forall (fun a => 5 <= Assignment.eta_minutes a < 2 ^ 63) new.
Proof.
  destruct (run_tasks_inv P
              (fun db' _ => exists new,
                 assignments db' = assignments db ++ new /\
                 Forall (fun a => 5 <= Assignment.eta_minutes a < 2 ^ 63) new))
    with (ts := processing_order db) (db := db) (out := @nil Entry)
    as (_ & H); trivial.
  - intros db1 t ts db' o (new & HA & HF) E.
    apply schedule_task_cases in E
      as [[-> _] | (r & d & eta & _ & _ & Hd & He & Hr & -> & _)];
      [now exists new|].
    exists (new ++ [ {| Assignment.id :=
                          next_id (map Assignment.id (assignments db1));
                        Assignment.task_id := Task.id t;
                        Assignment.resource_id := Resource.id r;
                        Assignment.eta_minutes := eta |} ]).
    simpl. split; [now rewrite HA, app_assoc|].
    apply Forall_app. split; trivial. constructor; [|constructor]. simpl.
    apply haversine_not_neg in Hd; trivial.
    pose proof (eta_of_floor d eta Hd He) as ->.
    assert (not_neg (d / 30 * 60)%float)
      by (apply mul_not_neg; [apply div_not_neg|]; trivial; exact I).
    pose proof (floor_not_neg _ H). lia.
  - exists []. now rewrite app_nil_r.
Qed.

(** X2. On a platform whose [atan2] is not negative on the first quadrant,
    every row that any sequence of requests appends has an ETA of at
    least the 5 minutes of overhead, and one that fits the INTEGER
    column. *)
Theorem eta_at_least_five (reqs : list request) (db : Db) :
  exists new,
    assignments (serve P reqs db) = assignments db ++ new /\
    Forall (fun a => 5 <= Assignment.eta_minutes a < 2 ^ 63) new.
Proof.
  apply (serve_inv P (fun db' => exists new,
           assignments db' = assignments db ++ new /\
           Forall (fun a => 5 <= Assignment.eta_minutes a < 2 ^ 63) new)).
  - intros db1 (new & HA & HF).
    destruct (eta_bounds_pass db1) as (new1 & HA1 & HF1).
    exists (new ++ new1). split; [now rewrite HA1, HA, app_assoc|].
    apply Forall_app. auto.
  - intros db1 f db' i H E.
    apply commit_task_cases in E as (t & -> & _). exact H.
  - exists []. now rewrite app_nil_r.
Qed.

End Eta.

(** ** Adding a task *)

(** X14. Once the body has passed [new_task] and the commit, the task row
    is in the table after the request under the id the commit gave it,
    an id no earlier task had, with the urgency of the body and with an
    empty description when the body has none; this holds also when the
    request ends in an exception, which is then the one the pass ended
    in. *)
Theorem accepted_task_is_stored (P : Platform) (d : pyval) (db db1 : Db)
    (f : pyval * pyval * float * float * Z) (i : Z) :
  new_task P d = Returned f ->
  commit_task db f = Returned (db1, i) ->
  ~ In i (map Task.id (tasks db)) /\
  (exists t, In t (tasks (snd (add_task P d db))) /\ Task.id t = i /\
     Task.urgency t = snd f /\
     (forall kv, d = PDict kv -> lookup "description" kv = None ->
        Task.description t = PStr "")) /\
  (fst (add_task P d db) = Returned i \/
   exists e, fst (add_task P d db) = Raised e /\
             fst (greedy_scheduler P db1) = Raised e).
Proof.
  intros Hn Hc.
  assert (Hadd : add_task P d db =
                 match greedy_scheduler P db1 with
                 | (Returned _, db2) => (Returned i, db2)
                 | (Raised e, db2) => (Raised e, db2)
                 end)
    by (unfold add_task; now rewrite Hn, Hc).
  assert (Hsnd : snd (add_task P d db) = snd (greedy_scheduler P db1))
    by (rewrite Hadd; now destruct (greedy_scheduler P db1) as [[]]).
  destruct f as [[[[ti de] la] lo] u]. unfold commit_task in Hc.
  apply bind_Returned in Hc as (ti' & _ & Hc).
  apply bind_Returned in Hc as (de' & Hde & Hc).
  apply bind_Returned in Hc as (u' & Hu & Hc).
  injection Hc as <- <-.
  repeat split.
  - apply next_id_fresh.
  - pose proof (tasks_advance_pass P
        {| resources := resources db;
           tasks := tasks db ++
             [ {| Task.id := next_id (map Task.id (tasks db));
                  Task.title := ti'; Task.description := de';
                  Task.lat := sqlite_real la; Task.lon := sqlite_real lo;
                  Task.urgency := u'; Task.status := "pending" |} ];
           assignments := assignments db |}) as H.
    rewrite <- Hsnd in H. simpl tasks at 1 in H.
    apply Forall2_app_inv_l in H as (k & a & _ & Ha & E).
    inversion Ha as [|x y ? ? Hxy Hnil]; subst. inversion Hnil; subst.
    exists y. rewrite E. split; [apply in_app_iff; right; now left|].
    assert (Hu' : u' = u).
    { unfold sqlite_int in Hu. destruct (_ && _); [|discriminate].
      now injection Hu. }
    assert (Hd' : forall kv, d = PDict kv -> lookup "description" kv = None ->
                    de' = PStr "").
    { intros kv -> Hk. unfold new_task, getitem, dict_get in Hn.
      rewrite Hk in Hn.
      apply bind_Returned in Hn as (? & _ & Hn). simpl in Hn.
      repeat (apply bind_Returned in Hn as (? & _ & Hn)).
      injection Hn as _ <- _ _ _. simpl in Hde. now injection Hde. }
    destruct Hxy as [-> | ->]; simpl; auto.
  - rewrite Hadd. destruct (greedy_scheduler P _) as [[out|e] db2]; simpl; eauto.
Qed.

(** ** The initial database *)

Lemma add_resource_unique rs n ty la lo c :
  NoDup (map Resource.id rs) ->
  NoDup (map Resource.id (add_resource rs n ty la lo c)).
Proof.
  intros H. unfold add_resource. rewrite map_app. simpl.
  apply NoDup_snoc; trivial. apply next_id_fresh.
Qed.

(** X20. [init_db] touches the database only when seeding is asked for and
    the file did not exist; it then appends Team A, B and C, of capacity
    2, 1 and 1, under ids that keep the resource ids unique, and in all
    cases leaves tasks and assignments alone. *)
Theorem init_db_seeds_once (seed exists_ : bool) (db : Db) :
  resource_ids_unique db ->
  resource_ids_unique (init_db seed exists_ db) /\
  tasks (init_db seed exists_ db) = tasks db /\
  assignments (init_db seed exists_ db) = assignments db /\
  exists added,
    resources (init_db seed exists_ db) = resources db ++ added /\
    if seed && negb exists_
    then map Resource.name added = ["Team A"; "Team B"; "Team C"]%string /\
         map Resource.capacity added = [2; 1; 1]
    else added = [].
Proof.
  intros Hu. unfold init_db. destruct (seed && negb exists_).
  - unfold resource_ids_unique, seed_data. simpl. repeat split.
    + now repeat apply add_resource_unique.
    + unfold add_resource. rewrite <- !app_assoc. simpl.
      eexists. split; [reflexivity|]. simpl. auto.
  - repeat split; trivial. exists []. now rewrite app_nil_r.
Qed.

Lemma init_db_seeds_once_witness :
  resource_ids_unique empty_db /\
  resource_ids_unique (init_db true false empty_db) /\
  map Resource.id (resources (init_db true false empty_db)) = [1; 2; 3].
Proof.
  assert (H : resource_ids_unique empty_db) by constructor.
  split; trivial. split.
  - exact (proj1 (init_db_seeds_once true false empty_db H)).
  - reflexivity.
Defined.

(** X21. On a fresh install, whatever requests follow, the three seeded
    teams are the resources, every load stays within its capacity, and
    there are never more than 4 assignment rows. *)
Theorem fresh_install_fills_up (P : Platform) (reqs : list request) :
  resources (serve P reqs (init_db true false empty_db))
    = resources (seed_data empty_db) /\
  within_capacity (serve P reqs (init_db true false empty_db)) /\
  (List.length (assignments (serve P reqs (init_db true false empty_db))) <= 4)%nat.
Proof.
  change (init_db true false empty_db) with (seed_data empty_db).
  assert (Hu : resource_ids_unique (seed_data empty_db)).
  { unfold resource_ids_unique. simpl.
    repeat constructor; simpl; intuition discriminate. }
  assert (Hr : rows_refer (seed_data empty_db)) by (intros a []).
  assert (Hw : within_capacity (seed_data empty_db)).
  { intros r Hr'. unfold current_load, count_rows. simpl in *.
    destruct Hr' as [<- | [<- | [<- | []]]]; simpl; lia. }
  repeat split.
  - apply (serve_extends P reqs (seed_data empty_db)).
  - now apply within_capacity_serve.
  - pose proof (rows_bounded_by_capacity P reqs _ Hu Hr Hw) as H.
    change (total_capacity (seed_data empty_db)) with 4 in H. lia.
Qed.

(** ** The order in which rows are committed *)

Section CommitOrder.

Variable P : Platform.

Lemma run_tasks_sorted (R : Task.t -> Task.t -> Prop) : forall ts db out,
  StronglySorted R ts ->
  exists new done,
    assignments (snd (run_tasks P ts db out)) = assignments db ++ new /\
    Forall2 (fun a t => Assignment.task_id a = Task.id t) new done /\
    Forall (fun t => In t ts) done /\
    StronglySorted R done.
Proof.
  induction ts as [|t ts IH]; simpl; intros db out Hs.
  - exists [], []. rewrite app_nil_r. repeat constructor.
  - inversion Hs as [|? ? Hs' Ht]; subst.
    destruct (schedule_task P db t) as [[db1 o]|e] eqn:E; simpl.
    + destruct (IH db1 (out ++ o) Hs') as (new & done & HA & HF & Hin & Hd).
      apply schedule_task_cases in E
        as [[-> _] | (r & d & eta & _ & _ & _ & _ & _ & -> & _)].
      * exists new, done. repeat split; trivial.
        eapply Forall_impl; [|exact Hin]. simpl. auto.
      * simpl in HA. eexists (_ :: new), (t :: done).
        rewrite <- app_assoc in HA. repeat split; [exact HA | | |].
        -- constructor; trivial.
        -- constructor; [now left|].
           eapply Forall_impl; [|exact Hin]. simpl. auto.
        -- constructor; trivial.
           rewrite Forall_forall in *. auto.
    + exists [], []. rewrite app_nil_r. repeat constructor.
Qed.

(** X6. A pass commits its rows in order of urgency: the rows it appends
    belong, one by one, to pending tasks whose urgencies never increase
    along the rows. *)
Theorem rows_follow_urgency (db : Db) :
  exists new done,
    assignments (snd (greedy_scheduler P db)) = assignments db ++ new /\
    Forall2 (fun a t => Assignment.task_id a = Task.id t) new done /\
    Forall (fun t => In t (pending db)) done /\
    StronglySorted (fun x y => Task.urgency x >= Task.urgency y) done.
Proof.
  destruct (run_tasks_sorted (fun x y => Task.urgency x >= Task.urgency y)
              (processing_order db) db [])
    as (new & done & HA & HF & Hin & Hs).
  - apply StronglySorted_weaken
      with (R := fun a b => - Task.urgency a <= - Task.urgency b);
      [intros a b H; lia | apply sorted_sorted].
  - exists new, done. repeat split; trivial.
    eapply Forall_impl; [|exact Hin]. intros t Ht.
    now apply (Permutation_in _ (Permutation_sym (processing_order_perm db))).
Qed.

End CommitOrder.

Lemma subsequence_none {A} (l : list A) : subsequence [] l.
Proof. induction l; constructor; trivial. Qed.

Lemma run_tasks_subsequence (P : Platform) : forall ts db out,
  exists new done,
    assignments (snd (run_tasks P ts db out)) = assignments db ++ new /\
    Forall2 (fun a t => Assignment.task_id a = Task.id t) new done /\
    subsequence done ts.
Proof.
  induction ts as [|t ts IH]; simpl; intros db out.
  - exists [], []. rewrite app_nil_r. repeat constructor.
  - destruct (schedule_task P db t) as [[db1 o]|e] eqn:E; simpl.
    + destruct (IH db1 (out ++ o)) as (new & done & HA & HF & Hs).
      apply schedule_task_cases in E
        as [[-> _] | (r & d & eta & _ & _ & _ & _ & _ & -> & _)].
      * exists new, done. repeat split; trivial. now constructor.
      * simpl in HA. eexists (_ :: new), (t :: done).
        rewrite <- app_assoc in HA. repeat split; [exact HA | |].
        -- constructor; trivial.
        -- now constructor.
    + exists [], []. rewrite app_nil_r. repeat constructor.
      apply subsequence_none.
Qed.

(** C5. The pass takes the pending tasks in one sequence, [order]: each
    task once, urgency never increasing, the tasks of any one urgency in
    the order in which the table returned them.  Cut [order] at any task
    [t]: when the tasks before [t] have been handled, the pass handles [t]
    on the database they left and then goes on with the tasks after [t].
    The rows the pass commits belong, one by one, to tasks that follow one
    another in [order]. *)
Theorem processing_order_stable (P : Platform) (db : Db) :
  exists order,
    Permutation (pending db) order /\
    StronglySorted (fun a b => Task.urgency a >= Task.urgency b) order /\
    (forall u, filter (fun t => Task.urgency t =? u) order
               = filter (fun t => Task.urgency t =? u) (pending db)) /\
    (forall before t after out1 db1,
        order = before ++ t :: after ->
        run_tasks P before db [] = (Returned out1, db1) ->
        greedy_scheduler P db =
          match schedule_task P db1 t with
          | Returned (db2, o) => run_tasks P after db2 (out1 ++ o)
          | Raised e => (Raised e, db1)
          end) /\
    exists new done,
      assignments (snd (greedy_scheduler P db)) = assignments db ++ new /\
      Forall2 (fun a t => Assignment.task_id a = Task.id t) new done /\
      subsequence done order.
Proof.
  exists (processing_order db). repeat split.
  - apply sorted_perm.
  - apply StronglySorted_weaken
      with (R := fun a b => - Task.urgency a <= - Task.urgency b);
      [intros a b H; lia | apply sorted_sorted].
  - intros u. unfold processing_order.
    rewrite (filter_ext (fun t => Task.urgency t =? u)
                        (fun t => - Task.urgency t =? - u)).
    + rewrite sorted_filter. apply filter_ext. intros t.
      destruct (Z.eqb_spec (- Task.urgency t) (- u)),
               (Z.eqb_spec (Task.urgency t) u); trivial; lia.
    + intros t.
      destruct (Z.eqb_spec (- Task.urgency t) (- u)),
               (Z.eqb_spec (Task.urgency t) u); trivial; lia.
  - intros before t after out1 db1 Hord Hrun.
    unfold greedy_scheduler. rewrite Hord, run_tasks_app, Hrun. reflexivity.
  - apply run_tasks_subsequence.
Qed.

(** ** Invariants of the tables, as theorems *)

(** X13. Primary keys: task ids and assignment ids that are unique stay
    unique under any sequence of requests, and the resources table is not
    touched. *)
Theorem primary_keys_stay_unique (P : Platform) (reqs : list request)
    (db : Db) :
  task_ids_unique db -> assignment_ids_unique db ->
  task_ids_unique (serve P reqs db) /\
  assignment_ids_unique (serve P reqs db) /\
  resources (serve P reqs db) = resources db.
Proof.
  intros Ht Ha.
  destruct (keys_unique_serve P reqs db (conj Ht Ha)) as [Ht' Ha'].
  repeat split; trivial. apply (serve_extends P reqs db).
Qed.

(** X12. References: when every assignment row names a task and a resource
    of the tables, this is still so after any sequence of requests. *)
Theorem references_stay_valid (P : Platform) (reqs : list request) (db : Db) :
  rows_refer db -> rows_refer (serve P reqs db).
Proof. apply rows_refer_serve. Qed.

(** X11. One assignment per task: on a database with unique task ids whose
    rows name tasks of the table, no pending one among them and no task
    twice, any sequence of requests keeps all of this; no task is ever
    given a second row, and a task with a row is never pending. *)
Theorem one_assignment_per_task (P : Platform) (reqs : list request)
    (db : Db) :
  tasks_consistent db ->
  one_row_per_task (serve P reqs db) /\
  pending_unassigned (serve P reqs db) /\
  tasks_consistent (serve P reqs db).
Proof.
  intros H. pose proof (tasks_consistent_serve P reqs db H) as H'.
  destruct H' as (H1 & H2 & H3 & H4). repeat split; trivial.
Qed.

(** ** Rounding to nearest

    The operations of binary64 round the exact result to the nearest
    representable number.  What follows derives this from the
    specification of the operations, and with it bounds and orders
    that carry over from the exact results to the floats. *)

Lemma B2_pos e : (0 < B2 e)%R.
Proof. apply powerRZ_lt. lra. Qed.

Lemma B2_add a b : B2 (a + b) = (B2 a * B2 b)%R.
Proof. apply powerRZ_add. lra. Qed.

Lemma B2_0 : B2 0 = 1%R.
Proof. reflexivity. Qed.

Lemma B2_succ e : B2 (e + 1) = (2 * B2 e)%R.
Proof. rewrite B2_add. unfold B2 at 2. simpl. lra. Qed.

Lemma B2_pred e : B2 (e - 1) = (B2 e / 2)%R.
Proof.
  replace e with (e - 1 + 1) at 2 by lia. rewrite B2_succ. lra.
Qed.

Lemma B2_inv e : (B2 e * B2 (- e) = 1)%R.
Proof. rewrite <- B2_add. now replace (e + - e) with 0 by lia. Qed.

Lemma B2_IZR n : 0 <= n -> B2 n = IZR (2 ^ n).
Proof.
  intros H. unfold B2. destruct n as [|p|p]; try lia; trivial.
  change (2 ^ Z.pos p) with (Z.pow_pos 2 p). symmetry. apply Zpower_pos_powerRZ.
Qed.

Lemma B2_ge_1 n : 0 <= n -> (1 <= B2 n)%R.
Proof.
  intros H. rewrite B2_IZR by trivial. apply IZR_le.
  pose proof (Z.pow_pos_nonneg 2 n ltac:(lia) H). lia.
Qed.

Lemma B2_le a b : a <= b -> (B2 a <= B2 b)%R.
Proof.
  intros H. replace b with (a + (b - a)) by lia. rewrite B2_add.
  pose proof (B2_pos a). pose proof (B2_ge_1 (b - a) ltac:(lia)).
  rewrite <- (Rmult_1_r (B2 a)) at 1. apply Rmult_le_compat_l; lra.
Qed.

Lemma B2_lt a b : a < b -> (B2 a < B2 b)%R.
Proof.
  intros H. apply Rlt_le_trans with (B2 (a + 1)); [|apply B2_le; lia].
  rewrite B2_succ. pose proof (B2_pos a). lra.
Qed.

Lemma val_shift m e k : 0 <= k -> val (m * 2 ^ k) e = val m (e + k).
Proof.
  intros H. unfold val. rewrite B2_add, mult_IZR, (B2_IZR k) by trivial. ring.
Qed.

(** Digits *)
Lemma digits2_pos_lower m : 2 ^ (Zpos (digits2_pos m) - 1) <= Zpos m.
Proof.
  induction m as [m IH|m IH|]; simpl digits2_pos; try (simpl; lia);
    rewrite Pos2Z.inj_succ;
    replace (Z.succ (Zpos (digits2_pos m)) - 1)
      with (Z.succ (Zpos (digits2_pos m) - 1)) by lia;
    rewrite Z.pow_succ_r by lia; lia.
Qed.

Lemma digits2_pos_upper m : Zpos m < 2 ^ Zpos (digits2_pos m).
Proof.
  induction m as [m IH|m IH|]; simpl digits2_pos; try (simpl; lia);
    rewrite Pos2Z.inj_succ, Z.pow_succ_r by lia; lia.
Qed.

Lemma Zdigits2_bounds m : 0 < m ->
  2 ^ (Zdigits2 m - 1) <= m < 2 ^ Zdigits2 m.
Proof.
  destruct m as [|m|m]; try lia. intros _. simpl Zdigits2.
  split; [apply digits2_pos_lower | apply digits2_pos_upper].
Qed.

Lemma Zdigits2_nonneg m : 0 <= Zdigits2 m.
Proof. destruct m; simpl; lia. Qed.

Lemma Zdigits2_pos m : 0 < m -> 0 < Zdigits2 m.
Proof. destruct m; simpl; lia. Qed.

Lemma Zdigits2_le m k : 0 <= m < 2 ^ k -> 0 <= k -> Zdigits2 m <= k.
Proof.
  intros [H0 H] Hk. destruct (Z.eq_dec m 0) as [->|Hm]; [simpl; lia|].
  destruct (Zdigits2_bounds m ltac:(lia)) as [Hl _].
  destruct (Z.le_gt_cases (Zdigits2 m) k) as [|Hgt]; trivial.
  exfalso.
  assert (2 ^ k <= 2 ^ (Zdigits2 m - 1)) by (apply Z.pow_le_mono_r; lia).
  lia.
Qed.

Lemma Zdigits2_ge m k : 2 ^ k <= m -> 0 <= k -> k + 1 <= Zdigits2 m.
Proof.
  intros H Hk.
  pose proof (Z.pow_pos_nonneg 2 k ltac:(lia) Hk) as Hp.
  destruct (Zdigits2_bounds m ltac:(lia)) as [_ Hu].
  destruct (Z.le_gt_cases (k + 1) (Zdigits2 m)) as [|Hgt]; trivial.
  exfalso. assert (2 ^ Zdigits2 m <= 2 ^ k).
  { apply Z.pow_le_mono_r; try lia. }
  lia.
Qed.

Lemma position_bounds m l y : position m l y -> (IZR m <= y < IZR m + 1)%R.
Proof. destruct l as [|[]]; simpl; intros; lra. Qed.

Lemma shr_1_fields mrs : 0 <= shr_m mrs ->
  shr_m (shr_1 mrs) = shr_m mrs / 2 /\
  shr_r (shr_1 mrs) = Z.odd (shr_m mrs) /\
  shr_s (shr_1 mrs) = (shr_r mrs || shr_s mrs)%bool.
Proof.
  destruct mrs as [m r s]. simpl shr_m. simpl shr_r. simpl shr_s. intros Hm.
  destruct m as [|[p|p|]|p]; try lia; unfold shr_1; cbn [shr_m shr_r shr_s];
    repeat split; try reflexivity.
  - rewrite Pos2Z.inj_xI. apply Z.div_unique with (r := 1); lia.
  - rewrite Pos2Z.inj_xO. apply Z.div_unique with (r := 0); lia.
Qed.

Lemma shr_1_position mrs y :
  0 <= shr_m mrs ->
  position (shr_m mrs) (loc_of_shr_record mrs) y ->
  position (shr_m (shr_1 mrs)) (loc_of_shr_record (shr_1 mrs)) (y / 2)%R.
Proof.
  intros Hm H. destruct (shr_1_fields mrs Hm) as (Em & Er & Es).
  destruct (shr_1 mrs) as [m' r' s']. cbn [shr_m shr_r shr_s] in *.
  destruct mrs as [m r s]. cbn [shr_m shr_r shr_s] in *. subst m' r' s'.
  pose proof (Z.div_mod m 2 ltac:(lia)) as Hdm.
  pose proof (Zmod_odd m) as Ho.
  assert (Hm2 : IZR m = (2 * IZR (m / 2) + IZR (m mod 2))%R).
  { rewrite <- mult_IZR, <- plus_IZR. now f_equal. }
  destruct r, s; cbn [loc_of_shr_record position orb] in H;
    destruct (Z.odd m); rewrite Ho in Hm2;
    cbn [loc_of_shr_record position orb]; lra.
Qed.

Lemma iter_shr_1_position p : forall mrs y,
  0 <= shr_m mrs ->
  position (shr_m mrs) (loc_of_shr_record mrs) y ->
  0 <= shr_m (SpecFloat.iter_pos shr_1 p mrs) /\
  shr_m (SpecFloat.iter_pos shr_1 p mrs) = shr_m mrs / 2 ^ Zpos p /\
  position (shr_m (SpecFloat.iter_pos shr_1 p mrs))
           (loc_of_shr_record (SpecFloat.iter_pos shr_1 p mrs)) (y * B2 (- Zpos p))%R.
Proof.
  assert (Hstep : forall mrs y, 0 <= shr_m mrs ->
            position (shr_m mrs) (loc_of_shr_record mrs) y ->
            0 <= shr_m (shr_1 mrs) /\
            shr_m (shr_1 mrs) = shr_m mrs / 2 /\
            position (shr_m (shr_1 mrs)) (loc_of_shr_record (shr_1 mrs))
                     (y * B2 (- 1))%R).
  { intros mrs y H Hp. destruct (shr_1_fields mrs H) as (E & _).
    split; [rewrite E; apply Z.div_pos; lia|]. split; trivial.
    replace (y * B2 (- 1))%R with (y / 2)%R
      by (unfold B2; simpl; lra).
    now apply shr_1_position. }
  induction p as [p IH|p IH|]; intros mrs y H Hp; cbn [SpecFloat.iter_pos].
  - destruct (Hstep mrs y H Hp) as (H1 & E1 & P1).
    destruct (IH _ _ H1 P1) as (H2 & E2 & P2).
    destruct (IH _ _ H2 P2) as (H3 & E3 & P3).
    split; trivial. split.
    + rewrite E3, E2, E1, !Z.div_div by lia. f_equal.
      replace (Zpos p~1) with (1 + (Zpos p + Zpos p)) by lia.
      rewrite !Z.pow_add_r by lia. lia.
    + replace (y * B2 (- Zpos p~1))%R
        with (y * B2 (- 1) * B2 (- Zpos p) * B2 (- Zpos p))%R; trivial.
      rewrite !Rmult_assoc, <- !B2_add. do 2 f_equal. lia.
  - destruct (IH _ _ H Hp) as (H2 & E2 & P2).
    destruct (IH _ _ H2 P2) as (H3 & E3 & P3).
    split; trivial. split.
    + rewrite E3, E2, !Z.div_div by lia. f_equal.
      replace (Zpos p~0) with (Zpos p + Zpos p) by lia.
      rewrite !Z.pow_add_r by lia. lia.
    + replace (y * B2 (- Zpos p~0))%R
        with (y * B2 (- Zpos p) * B2 (- Zpos p))%R; trivial.
      rewrite !Rmult_assoc, <- !B2_add. do 2 f_equal. lia.
  - destruct (Hstep mrs y H Hp) as (H1 & E1 & P1).
    change (2 ^ 1) with 2. auto.
Qed.

Lemma loc_of_record_of_loc m l :
  loc_of_shr_record (shr_record_of_loc m l) = l /\
  shr_m (shr_record_of_loc m l) = m.
Proof. now destruct l as [|[]]. Qed.

(** The first shift of [binary_round_aux] *)
Lemma shr_fexp_located m e l x :
  0 <= m -> located m e l x -> e <= SpecFloat.fexp prec emax (Zdigits2 m + e) ->
  let e1 := SpecFloat.fexp prec emax (Zdigits2 m + e) in
  snd (shr_fexp prec emax m e l) = e1 /\
  0 <= shr_m (fst (shr_fexp prec emax m e l)) /\
  shr_m (fst (shr_fexp prec emax m e l)) = m / 2 ^ (e1 - e) /\
  located (shr_m (fst (shr_fexp prec emax m e l))) e1
          (loc_of_shr_record (fst (shr_fexp prec emax m e l))) x.
Proof.
  intros Hm Hl He e1. unfold shr_fexp, shr. fold e1.
  destruct (loc_of_record_of_loc m l) as [El Em].
  destruct (e1 - e) as [|p|p] eqn:En; try lia; cbn [fst snd].
  - assert (e1 = e) as -> by lia. rewrite El, Em, Z.div_1_r. auto.
  - destruct (iter_shr_1_position p (shr_record_of_loc m l) (x * B2 (- e))%R)
      as (H1 & H2 & H3).
    + now rewrite Em.
    + now rewrite El, Em.
    + rewrite Em in H2. repeat split; trivial; try lia.
      unfold located.
      replace (x * B2 (- e1))%R with (x * B2 (- e) * B2 (- Zpos p))%R; trivial.
      rewrite Rmult_assoc, <- B2_add. do 2 f_equal. lia.
Qed.

(** Rounding to nearest, ties to even, in units of the last place *)
Lemma round_nearest_even_position m l y :
  position m l y ->
  (round_nearest_even m l = m /\ (y - IZR m <= / 2)%R) \/
  (round_nearest_even m l = m + 1 /\ (/ 2 <= y - IZR m)%R).
Proof.
  destruct l as [|[]]; simpl; intros H.
  - left. split; trivial. lra.
  - destruct (Z.even m); [left | right]; split; trivial; lra.
  - left. split; trivial. lra.
  - right. split; trivial. lra.
Qed.

Lemma scale_le a b u : (0 < u -> a <= b -> a * u <= b * u)%R.
Proof. intros. apply Rmult_le_compat_r; lra. Qed.

Lemma scale_lt a b u : (0 < u -> a < b -> a * u < b * u)%R.
Proof. intros. apply Rmult_lt_compat_r; lra. Qed.

Lemma val_le m n e : m <= n -> (val m e <= val n e)%R.
Proof. intros H. apply scale_le; [apply B2_pos | now apply IZR_le]. Qed.

Lemma val_lt m n e : m < n -> (val m e < val n e)%R.
Proof. intros H. apply scale_lt; [apply B2_pos | now apply IZR_lt]. Qed.

Lemma val_pow k e : 0 <= k -> val (2 ^ k) e = B2 (k + e).
Proof. intros H. unfold val. now rewrite B2_add, <- B2_IZR. Qed.

Lemma val_0 e : val 0 e = 0%R.
Proof. unfold val. lra. Qed.

Lemma val_succ m e : val (m + 1) e = (val m e + B2 e)%R.
Proof. unfold val. rewrite plus_IZR. lra. Qed.

Lemma unscale x e : x = (x * B2 (- e) * B2 e)%R.
Proof. rewrite Rmult_assoc, (Rmult_comm (B2 (- e))), B2_inv. lra. Qed.

Lemma gap m1 e1 g :
  0 <= m1 -> (SpecFloat.emin prec emax) <= e1 -> (e1 = (SpecFloat.emin prec emax) \/ 2 ^ (prec - 1) <= m1) ->
  inG g -> (g <= val m1 e1 \/ val (m1 + 1) e1 <= g)%R.
Proof.
  intros Hm He Hn (mg & eg & Hmg & Heg & -> & _).
  destruct (Z_le_gt_dec e1 eg) as [Hle|Hgt].
  - replace (val mg eg) with (val (mg * 2 ^ (eg - e1)) e1)
      by (rewrite val_shift by lia; f_equal; lia).
    destruct (Z_le_gt_dec (mg * 2 ^ (eg - e1)) m1); [left|right];
      apply val_le; lia.
  - left. destruct Hn as [->|Hn]; [lia|].
    apply Rle_trans with (val (2 ^ prec) eg); [apply val_le; lia|].
    apply Rle_trans with (val (2 ^ (prec - 1)) e1); [|now apply val_le].
    rewrite !val_pow by (unfold prec; lia). apply B2_le. lia.
Qed.

Lemma first_shift_bounds m e :
  0 <= m -> e <= SpecFloat.fexp prec emax (Zdigits2 m + e) ->
  let e1 := SpecFloat.fexp prec emax (Zdigits2 m + e) in
  let m1 := m / 2 ^ (e1 - e) in
  m1 < 2 ^ prec /\ (SpecFloat.emin prec emax) <= e1 /\ (e1 = (SpecFloat.emin prec emax) \/ 2 ^ (prec - 1) <= m1).
Proof.
  intros Hm0 He e1 m1.
  assert (He1 : e1 = Z.max (Zdigits2 m + e - prec) (SpecFloat.emin prec emax)) by reflexivity.
  destruct (Z.eq_dec m 0) as [->|Hne].
  { unfold m1. rewrite Z.div_0_l by (apply Z.pow_nonzero; lia).
    simpl Zdigits2 in *. unfold prec in *. repeat split; lia. }
  assert (Hm : 0 < m) by lia.
  destruct (Zdigits2_bounds m Hm) as [Hl Hu].
  pose proof (Zdigits2_pos m Hm) as Hd.
  assert (Hp : 0 < 2 ^ (e1 - e)) by (apply Z.pow_pos_nonneg; lia).
  repeat split.
  - apply Z.div_lt_upper_bound; trivial.
    apply Z.lt_le_trans with (1 := Hu).
    rewrite <- Z.pow_add_r by (unfold prec; lia).
    apply Z.pow_le_mono_r; lia.
  - lia.
  - destruct (Z.eq_dec e1 (SpecFloat.emin prec emax)) as [|Hne']; [now left|right].
    apply Z.div_le_lower_bound; trivial.
    apply Z.le_trans with (2 := Hl).
    rewrite <- Z.pow_add_r by (unfold prec; lia).
    apply Z.pow_le_mono_r; lia.
Qed.

(** The second shift of [binary_round_aux] keeps the value *)
Lemma shr_fexp_exact m2 e1 :
  0 <= m2 <= 2 ^ prec -> (SpecFloat.emin prec emax) <= e1 ->
  (e1 = (SpecFloat.emin prec emax) \/ 2 ^ (prec - 1) <= m2) ->
  exists m' e',
    shr_m (fst (shr_fexp prec emax m2 e1 loc_Exact)) = m' /\
    snd (shr_fexp prec emax m2 e1 loc_Exact) = e' /\
    val m' e' = val m2 e1 /\
    0 <= m' < 2 ^ prec /\ (SpecFloat.emin prec emax) <= e' /\
    (e' = (SpecFloat.emin prec emax) \/ 2 ^ (prec - 1) <= m').
Proof.
  intros Hm He Hn.
  destruct (Z.eq_dec m2 (2 ^ prec)) as [->|Hne].
  - exists (2 ^ (prec - 1)), (e1 + 1).
    unfold shr_fexp.
    replace (SpecFloat.fexp prec emax (Zdigits2 (2 ^ prec) + e1) - e1) with 1.
    + assert (H2 : 2 ^ prec = 2 ^ (prec - 1) * 2 ^ 1) by reflexivity.
      assert (H3 : 0 < 2 ^ (prec - 1)) by reflexivity.
      repeat split; try reflexivity; try lia.
      rewrite <- val_shift by lia. now rewrite H2.
    + change (Zdigits2 (2 ^ prec)) with (prec + 1).
      unfold SpecFloat.fexp. lia.
  - exists m2, e1. unfold shr_fexp, shr, shr_record_of_loc.
    assert (Hd : Zdigits2 m2 <= prec)
      by (apply Zdigits2_le; [lia | unfold prec; lia]).
    assert (Hf : SpecFloat.fexp prec emax (Zdigits2 m2 + e1) <= e1)
      by (unfold SpecFloat.fexp; lia).
    destruct (SpecFloat.fexp prec emax (Zdigits2 m2 + e1) - e1) as [|p|p] eqn:E; try lia;
      cbn [fst snd shr_m]; repeat split; trivial; lia.
Qed.

Lemma round_core s m e l x :
  0 <= m -> located m e l x -> e <= SpecFloat.fexp prec emax (Zdigits2 m + e) ->
  exists m' e',
    binary_round_aux prec emax s m e l =
      match m' with
      | 0 => S754_zero s
      | Zpos p =>
          if e' <=? emax - prec then S754_finite s p e' else S754_infinity s
      | Zneg _ => S754_nan
      end /\
    0 <= m' < 2 ^ prec /\ (SpecFloat.emin prec emax) <= e' /\
    (e' = (SpecFloat.emin prec emax) \/ 2 ^ (prec - 1) <= m') /\
    between (val m' e') x.
Proof.
  intros Hm Hl He.
  destruct (shr_fexp_located m e l x Hm Hl He) as (E1 & Hm1 & Em1 & Hloc).
  destruct (first_shift_bounds m e Hm He) as (Hb1 & Hb2 & Hb3).
  unfold binary_round_aux.
  destruct (shr_fexp prec emax m e l) as [mrs1 e1']. cbn [fst snd] in *.
  cbv zeta in Hb1, Hb2, Hb3, Em1, E1, Hloc. subst e1'.
  rewrite <- Em1 in Hb1, Hb3. clear Em1.
  set (e1 := SpecFloat.fexp prec emax (Zdigits2 m + e)) in *.
  set (m1 := shr_m mrs1) in *. set (l1 := loc_of_shr_record mrs1) in *.
  unfold located in Hloc. set (y := (x * B2 (- e1))%R) in *.
  pose proof (unscale x e1) as Hx. fold y in Hx.
  pose proof (B2_pos e1) as Hu.
  pose proof (position_bounds _ _ _ Hloc) as Hy.
  set (m2 := round_nearest_even m1 l1).
  assert (Hm2 : m2 = m1 \/ m2 = m1 + 1).
  { destruct (round_nearest_even_position m1 l1 y Hloc) as [[? _]|[? _]]; auto. }
  assert (Hbt : between (val m2 e1) x).
  { intros g Hg. destruct (gap m1 e1 g Hm1 Hb2 Hb3 Hg) as [Hlo|Hhi];
      rewrite ?val_succ in *; unfold val in *;
      destruct (round_nearest_even_position m1 l1 y Hloc) as [[E Hh]|[E Hh]];
      fold m2 in E; rewrite E; rewrite ?plus_IZR.
    - pose proof (scale_le _ _ _ Hu (proj1 Hy)). split; intros; lra.
    - pose proof (scale_le (IZR m1 + / 2) y _ Hu ltac:(lra)).
      pose proof (scale_le y (IZR m1 + 1) _ Hu ltac:(lra)).
      split; intros; lra.
    - pose proof (scale_le y (IZR m1 + / 2) _ Hu ltac:(lra)).
      pose proof (scale_le _ _ _ Hu (proj1 Hy)).
      split; intros; lra.
    - pose proof (scale_le y (IZR m1 + 1) _ Hu ltac:(lra)).
      split; intros; lra. }
  destruct (shr_fexp_exact m2 e1) as (m' & e' & Em & Ee & Ev & Hb & He' & Hn).
  { lia. } { trivial. } { destruct Hb3; [left|right]; lia. }
  exists m', e'.
  destruct (shr_fexp prec emax m2 e1 loc_Exact) as [mrs2 e2].
  cbn [fst snd] in Em, Ee. subst e2. rewrite Em.
  repeat split; trivial; try lia; rewrite Ev; now apply Hbt.
Qed.

Lemma val_opp m e : val (- m) e = (- val m e)%R.
Proof. unfold val. rewrite opp_IZR. lra. Qed.

Lemma inG_opp g : inG g -> inG (- g).
Proof.
  intros (m & e & Hm & He & -> & Hb). exists (- m), e.
  rewrite val_opp. repeat split; trivial; try lia; lra.
Qed.

Lemma inG_0 : inG 0.
Proof.
  exists 0, (SpecFloat.emin prec emax). rewrite val_0. pose proof (B2_pos emax).
  repeat split; try reflexivity; try lia; lra.
Qed.

Lemma inG_top : inG (B2 emax).
Proof.
  exists 1, emax. pose proof (B2_pos emax). unfold val.
  repeat split; try lra; try (unfold emax, prec, SpecFloat.emin; simpl; lia).
Qed.

Lemma inG_bounds g : inG g -> (- B2 emax <= g <= B2 emax)%R.
Proof. now intros (m & e & _ & _ & _ & H). Qed.

Lemma between_opp r x : between r x -> between (- r) (- x).
Proof.
  intros H g Hg. destruct (H (- g)%R (inG_opp g Hg)) as [H1 H2].
  split; intros; [assert (r < - g)%R by lra | assert (- g < r)%R by lra];
    [specialize (H2 ltac:(assumption)) | specialize (H1 ltac:(assumption))]; lra.
Qed.

Lemma nearest_opp r x : nearest r x -> nearest (- r) (- x).
Proof. intros [H1 H2]. split; [now apply inG_opp | now apply between_opp]. Qed.

Lemma nearest_signed s r x : nearest r x -> nearest (signed s r) (signed s x).
Proof. destruct s; simpl; trivial. apply nearest_opp. Qed.



Lemma nearest_refl x : inG x -> nearest x x.
Proof. intros H. split; trivial. intros g _. split; intros; lra. Qed.

Lemma val_pos_lt_pow m e k : 0 <= k -> m < 2 ^ k -> (val m e < B2 (k + e))%R.
Proof. intros Hk H. rewrite <- val_pow by trivial. now apply val_lt. Qed.

Lemma val_ge_pow m e k : 0 <= k -> 2 ^ k <= m -> (B2 (k + e) <= val m e)%R.
Proof. intros Hk H. rewrite <- val_pow by trivial. now apply val_le. Qed.

Lemma val_nonneg m e : 0 <= m -> (0 <= val m e)%R.
Proof. intros H. rewrite <- (val_0 e). now apply val_le. Qed.

Lemma val_pos m e : 0 < m -> (0 < val m e)%R.
Proof. intros H. rewrite <- (val_0 e). now apply val_lt. Qed.

(** The result of [binary_round_aux] *)
Lemma round_nearest s m e l x :
  0 <= m -> located m e l x -> e <= SpecFloat.fexp prec emax (Zdigits2 m + e) ->
  SFnan (binary_round_aux prec emax s m e l) = false /\
  nearest (SFR (binary_round_aux prec emax s m e l)) (signed s x).
Proof.
  intros Hm Hl He.
  destruct (round_core s m e l x Hm Hl He) as (m' & e' & -> & Hb & He' & Hn & Hbt).
  destruct m' as [|p|p]; try lia.
  - split; trivial. cbn [SFR]. rewrite val_0 in Hbt.
    replace 0%R with (signed s 0) by (destruct s; simpl; lra).
    apply nearest_signed. split; [apply inG_0 | trivial].
  - destruct (Z.leb_spec e' (emax - prec)) as [Hle|Hgt]; split; trivial;
      cbn [SFR]; apply nearest_signed; split; trivial.
    + exists (Zpos p), e'. repeat split; trivial; try lia.
      * pose proof (val_pos (Zpos p) e' ltac:(lia)). pose proof (B2_pos emax). lra.
      * apply Rlt_le. apply Rlt_le_trans with (B2 (prec + e')).
        -- apply val_pos_lt_pow; [unfold prec|]; lia.
        -- apply B2_le. lia.
    + apply inG_top.
    + assert (Hge : (B2 emax <= val (Z.pos p) e')%R).
      { apply Rle_trans with (B2 (prec - 1 + e')); [apply B2_le; lia|].
        apply val_ge_pow; [unfold prec; lia|].
        destruct Hn as [->|]; trivial. unfold emax, prec, SpecFloat.emin in *. lia. }
      intros g Hg. destruct (Hbt g Hg) as [H1 H2].
      pose proof (inG_bounds g Hg). split; intros; [|lra].
      assert (g < val (Z.pos p) e')%R by lra. specialize (H1 ltac:(assumption)). lra.
Qed.

(** Valid floats *)
Lemma valid_finite s m e :
  valid_binary (S754_finite s m e) = true ->
  Zpos m < 2 ^ prec /\ (SpecFloat.emin prec emax) <= e <= emax - prec /\
  (e = (SpecFloat.emin prec emax) \/ 2 ^ (prec - 1) <= Zpos m).
Proof.
  intros H. cbn [SpecFloat.valid_binary] in H.
  unfold bounded, canonical_mantissa in H.
  apply andb_true_iff in H. destruct H as [Hc Hb].
  apply Z.eqb_eq in Hc. apply Z.leb_le in Hb.
  pose proof (digits2_pos_lower m) as Hl.
  pose proof (digits2_pos_upper m) as Hu.
  unfold SpecFloat.fexp in Hc.
  assert (Hd : Zpos (digits2_pos m) <= prec) by lia.
  repeat split; try lia.
  - apply Z.lt_le_trans with (1 := Hu). apply Z.pow_le_mono_r; lia.
  - destruct (Z.eq_dec e (SpecFloat.emin prec emax)); [now left|right].
    replace (prec - 1) with (Zpos (digits2_pos m) - 1) by lia. trivial.
Qed.

Lemma valid_finite_lt s m e :
  valid_binary (S754_finite s m e) = true ->
  (0 < val (Zpos m) e < B2 emax)%R.
Proof.
  intros H. destruct (valid_finite s m e H) as (H1 & H2 & H3). split.
  - apply val_pos. lia.
  - apply Rlt_le_trans with (B2 (prec + e)).
    + apply val_pos_lt_pow; [unfold prec|]; lia.
    + apply B2_le. lia.
Qed.

Lemma valid_inG f : valid_binary f = true -> inG (SFR f).
Proof.
  destruct f as [s|s| |s m e]; intros H; cbn [SFR].
  - apply inG_0.
  - destruct s; simpl; [apply inG_opp|]; apply inG_top.
  - apply inG_0.
  - destruct (valid_finite s m e H) as (H1 & H2 & H3).
    pose proof (valid_finite_lt s m e H).
    assert (inG (val (Zpos m) e)).
    { exists (Zpos m), e. repeat split; trivial; try lia; lra. }
    destruct s; simpl; trivial. now apply inG_opp.
Qed.

Lemma exp_lt_val m1 e1 m2 e2 :
  0 < m1 < 2 ^ prec -> 2 ^ (prec - 1) <= m2 -> e1 < e2 ->
  (val m1 e1 < val m2 e2)%R.
Proof.
  intros H1 H2 He.
  apply Rlt_le_trans with (B2 (prec + e1)).
  - apply val_pos_lt_pow; [unfold prec|]; lia.
  - apply Rle_trans with (B2 (prec - 1 + e2)); [apply B2_le; lia|].
    apply val_ge_pow; [unfold prec|]; lia.
Qed.

Lemma finite_compare_lt s1 m1 e1 s2 m2 e2 :
  valid_binary (S754_finite s1 m1 e1) = true ->
  valid_binary (S754_finite s2 m2 e2) = true ->
  match (e1 ?= e2) with
  | Eq => Pos.compare_cont Eq m1 m2
  | Lt => Lt
  | Gt => Gt
  end = Lt ->
  (val (Zpos m1) e1 < val (Zpos m2) e2)%R.
Proof.
  intros V1 V2.
  destruct (valid_finite _ _ _ V1) as (A1 & A2 & A3).
  destruct (valid_finite _ _ _ V2) as (C1 & C2 & C3).
  destruct (Z.compare_spec e1 e2) as [->|Hlt|Hgt]; try discriminate.
  - intros H. apply val_lt. change (Pos.compare_cont Eq m1 m2) with (m1 ?= m2)%positive in H.
    change (m1 < m2)%positive in H. lia.
  - intros _. apply exp_lt_val; try lia.
Qed.

Lemma finite_compare_gt s1 m1 e1 s2 m2 e2 :
  valid_binary (S754_finite s1 m1 e1) = true ->
  valid_binary (S754_finite s2 m2 e2) = true ->
  match (e1 ?= e2) with
  | Eq => Pos.compare_cont Eq m1 m2
  | Lt => Lt
  | Gt => Gt
  end = Gt ->
  (val (Zpos m2) e2 < val (Zpos m1) e1)%R.
Proof.
  intros V1 V2.
  destruct (valid_finite _ _ _ V1) as (A1 & A2 & A3).
  destruct (valid_finite _ _ _ V2) as (C1 & C2 & C3).
  destruct (Z.compare_spec e1 e2) as [->|Hlt|Hgt]; try discriminate.
  - intros H. apply val_lt. change (Pos.compare_cont Eq m1 m2) with (m1 ?= m2)%positive in H.
    apply Pos.compare_gt_iff in H. lia.
  - intros _. apply exp_lt_val; try lia.
Qed.

(** Comparisons of valid floats are comparisons of their values *)
Lemma SFcompare_Lt_R x y :
  valid_binary x = true -> valid_binary y = true ->
  SFcompare x y = Some Lt -> (SFR x < SFR y)%R.
Proof.
  intros Vx Vy. pose proof (B2_pos emax) as Hp.
  destruct x as [sx|sx| |sx mx ex], y as [sy|sy| |sy my ey];
    cbn [SFcompare SFR]; try discriminate;
    try (pose proof (valid_finite_lt _ _ _ Vx));
    try (pose proof (valid_finite_lt _ _ _ Vy));
    try (destruct sx); try (destruct sy); cbn [signed];
    try discriminate; intros Hc; try lra.
  - injection Hc as Hc.
    destruct (ex ?= ey) eqn:E; try discriminate.
    + destruct (Pos.compare_cont Eq mx my) eqn:E'; try discriminate.
      pose proof (finite_compare_gt _ _ _ _ _ _ Vx Vy) as H'.
      rewrite E, E' in H'. specialize (H' eq_refl). lra.
    + pose proof (finite_compare_gt _ _ _ _ _ _ Vx Vy) as H'.
      rewrite E in H'. specialize (H' eq_refl). lra.
  - injection Hc as Hc.
    pose proof (finite_compare_lt _ _ _ _ _ _ Vx Vy Hc). lra.
Qed.

Lemma SFcompare_Gt_R x y :
  valid_binary x = true -> valid_binary y = true ->
  SFcompare x y = Some Gt -> (SFR y < SFR x)%R.
Proof.
  intros Vx Vy. pose proof (B2_pos emax) as Hp.
  destruct x as [sx|sx| |sx mx ex], y as [sy|sy| |sy my ey];
    cbn [SFcompare SFR]; try discriminate;
    try (pose proof (valid_finite_lt _ _ _ Vx));
    try (pose proof (valid_finite_lt _ _ _ Vy));
    try (destruct sx); try (destruct sy); cbn [signed];
    try discriminate; intros Hc; try lra.
  - injection Hc as Hc.
    destruct (ex ?= ey) eqn:E; try discriminate.
    + destruct (Pos.compare_cont Eq mx my) eqn:E'; try discriminate.
      pose proof (finite_compare_lt _ _ _ _ _ _ Vx Vy) as H'.
      rewrite E, E' in H'. specialize (H' eq_refl). lra.
    + pose proof (finite_compare_lt _ _ _ _ _ _ Vx Vy) as H'.
      rewrite E in H'. specialize (H' eq_refl). lra.
  - injection Hc as Hc.
    pose proof (finite_compare_gt _ _ _ _ _ _ Vx Vy Hc). lra.
Qed.

Lemma SFcompare_Eq_same x y :
  SFcompare x y = Some Eq ->
  x = y \/ (exists s1 s2, x = S754_zero s1 /\ y = S754_zero s2).
Proof.
  destruct x as [sx|sx| |sx mx ex], y as [sy|sy| |sy my ey];
    cbn [SFcompare]; try discriminate;
    try (destruct sx); try (destruct sy); try discriminate; intros H;
    try (now left); try (right; eauto; fail);
    injection H as H; destruct (Z.compare_spec ex ey) as [->| |];
    try discriminate;
    change (Pos.compare_cont Eq mx my) with (mx ?= my)%positive in H;
    destruct (Pos.compare_spec mx my) as [->| |]; try discriminate; now left.
Qed.

Lemma SFcompare_some x y :
  SFnan x = false -> SFnan y = false -> exists c, SFcompare x y = Some c.
Proof.
  destruct x, y; cbn; try discriminate; eauto.
Qed.

Lemma SFcompare_nan x y c :
  SFcompare x y = Some c -> SFnan x = false /\ SFnan y = false.
Proof. destruct x, y; cbn; try discriminate; auto. Qed.


Lemma SFR_le_ltb x y :
  valid_binary x = true -> valid_binary y = true ->
  (SFR y <= SFR x)%R -> SFltb x y = false.
Proof.
  intros Vx Vy H. unfold SFltb.
  destruct (SFcompare x y) as [[| |]|] eqn:E; trivial.
  pose proof (SFcompare_Lt_R x y Vx Vy E). lra.
Qed.

Lemma SFleb_R x y :
  valid_binary x = true -> valid_binary y = true -> SFleb x y = true ->
  SFnan x = false /\ SFnan y = false /\ (SFR x <= SFR y)%R.
Proof.
  intros Vx Vy. unfold SFleb.
  destruct (SFcompare x y) as [[| |]|] eqn:E; try discriminate; intros _;
    destruct (SFcompare_nan x y _ E) as [Nx Ny]; repeat split; trivial.
  - destruct (SFcompare_Eq_same x y E) as [->|(s1 & s2 & -> & ->)]; simpl; lra.
  - pose proof (SFcompare_Lt_R x y Vx Vy E). lra.
Qed.

Lemma SFltb_R x y :
  valid_binary x = true -> valid_binary y = true -> SFltb x y = true ->
  SFnan x = false /\ SFnan y = false /\ (SFR x < SFR y)%R.
Proof.
  intros Vx Vy. unfold SFltb.
  destruct (SFcompare x y) as [[| |]|] eqn:E; try discriminate; intros _;
    destruct (SFcompare_nan x y _ E) as [Nx Ny]; repeat split; trivial.
  now apply SFcompare_Lt_R.
Qed.

Lemma SFR_lt_ltb x y :
  valid_binary x = true -> valid_binary y = true ->
  SFnan x = false -> SFnan y = false ->
  (SFR x < SFR y)%R -> SFltb x y = true.
Proof.
  intros Vx Vy Nx Ny H. unfold SFltb.
  destruct (SFcompare_some x y Nx Ny) as [[| |] Hc]; rewrite Hc; trivial.
  - destruct (SFcompare_Eq_same x y Hc) as [->|(s1 & s2 & -> & ->)];
      simpl in H; lra.
  - pose proof (SFcompare_Gt_R x y Vx Vy Hc). lra.
Qed.

Lemma SFR_bounds f : valid_binary f = true ->
  (- B2 emax <= SFR f <= B2 emax)%R.
Proof. intros H. apply inG_bounds. now apply valid_inG. Qed.



Lemma B2_opp e : B2 (- e) = (/ B2 e)%R.
Proof.
  pose proof (B2_pos e). pose proof (B2_inv e).
  apply Rmult_eq_reg_l with (B2 e); [|lra]. rewrite H0. field. lra.
Qed.

Lemma val_mul a e b f : (val a e * val b f)%R = val (a * b) (e + f).
Proof. unfold val. rewrite mult_IZR, B2_add. ring. Qed.

Lemma val_sub a b e : val (a - b) e = (val a e - val b e)%R.
Proof. unfold val. rewrite minus_IZR. ring. Qed.

Lemma val_add a b e : val (a + b) e = (val a e + val b e)%R.
Proof. unfold val. rewrite plus_IZR. ring. Qed.

Lemma val_cond_Zopp s a e : val (cond_Zopp s a) e = signed s (val a e).
Proof. destruct s; simpl; trivial. apply val_opp. Qed.

Lemma located_exact m e : located m e loc_Exact (val m e).
Proof.
  unfold located, position, val. rewrite Rmult_assoc, B2_inv. ring.
Qed.

Lemma signed_mul s1 s2 a b :
  signed (xorb s1 s2) (a * b) = (signed s1 a * signed s2 b)%R.
Proof. destruct s1, s2; simpl; ring. Qed.


Lemma Zdigits2_eq m k : 0 <= k -> 2 ^ k <= m < 2 ^ (k + 1) -> Zdigits2 m = k + 1.
Proof.
  intros Hk [H1 H2].
  pose proof (Zdigits2_ge m k H1 Hk).
  pose proof (Zdigits2_le m (k + 1) ltac:(pose proof (Z.pow_pos_nonneg 2 k); lia) ltac:(lia)).
  lia.
Qed.

Lemma Zdigits2_shift m k : 0 < m -> 0 <= k -> Zdigits2 (m * 2 ^ k) = Zdigits2 m + k.
Proof.
  intros Hm Hk. destruct (Zdigits2_bounds m Hm) as [Hl Hu].
  pose proof (Zdigits2_pos m Hm) as Hd.
  assert (Hp : 0 < 2 ^ k) by (apply Z.pow_pos_nonneg; lia).
  replace (Zdigits2 m + k) with (Zdigits2 m - 1 + k + 1) by lia.
  apply Zdigits2_eq; [lia|]. split.
  - rewrite Z.pow_add_r by lia. apply Z.mul_le_mono_nonneg_r; lia.
  - replace (Zdigits2 m - 1 + k + 1) with (Zdigits2 m + k) by lia.
    rewrite Z.pow_add_r by lia. apply Z.mul_lt_mono_pos_r; lia.
Qed.

Lemma Zdigits2_mul_ge a b :
  0 < a -> 0 < b -> Zdigits2 a + Zdigits2 b - 1 <= Zdigits2 (a * b).
Proof.
  intros Ha Hb.
  destruct (Zdigits2_bounds a Ha) as [Hla _].
  destruct (Zdigits2_bounds b Hb) as [Hlb _].
  pose proof (Zdigits2_pos a Ha). pose proof (Zdigits2_pos b Hb).
  replace (Zdigits2 a + Zdigits2 b - 1)
    with ((Zdigits2 a - 1) + (Zdigits2 b - 1) + 1) by lia.
  apply Zdigits2_ge; [|lia].
  rewrite Z.pow_add_r by lia.
  apply Z.mul_le_mono_nonneg; trivial; apply Z.pow_nonneg; lia.
Qed.

Lemma valid_canonical s m e :
  valid_binary (S754_finite s m e) = true ->
  SpecFloat.fexp prec emax (Zdigits2 (Zpos m) + e) = e /\ e <= emax - prec.
Proof.
  intros H. cbn [SpecFloat.valid_binary] in H.
  unfold bounded, canonical_mantissa in H.
  apply andb_true_iff in H. destruct H as [Hc Hb].
  apply Z.eqb_eq in Hc. apply Z.leb_le in Hb. now split.
Qed.

(** *** Multiplication *)
Lemma SFmul_nearest x y :
  valid_binary x = true -> valid_binary y = true ->
  SFfin x = true -> SFfin y = true ->
  SFnan (SF64mul x y) = false /\
  nearest (SFR (SF64mul x y)) (SFR x * SFR y).
Proof.
  intros Vx Vy Fx Fy.
  destruct x as [sx|sx| |sx mx ex], y as [sy|sy| |sy my ey]; try discriminate;
    unfold SF64mul; cbn [SFmul SFR SFnan].
  - split; trivial. rewrite Rmult_0_l. apply nearest_refl, inG_0.
  - split; trivial. rewrite Rmult_0_l. apply nearest_refl, inG_0.
  - split; trivial. rewrite Rmult_0_r. apply nearest_refl, inG_0.
  - rewrite <- signed_mul, val_mul. apply round_nearest.
    + lia.
    + rewrite <- Pos2Z.inj_mul. apply located_exact.
    + destruct (valid_canonical _ _ _ Vx) as [Cx _].
      destruct (valid_canonical _ _ _ Vy) as [Cy _].
      pose proof (Zdigits2_mul_ge (Zpos mx) (Zpos my) ltac:(lia) ltac:(lia)) as Hd.
      pose proof (Zdigits2_pos (Zpos mx) ltac:(lia)).
      pose proof (Zdigits2_pos (Zpos my) ltac:(lia)).
      rewrite Pos2Z.inj_mul.
      unfold SpecFloat.fexp, SpecFloat.emin, prec, emax in *. lia.
Qed.

(** *** Division *)
Lemma div_lt_real a b M : (0 < M -> a < b * M -> a / M < b)%R.
Proof.
  intros HM H. unfold Rdiv.
  replace b with (b * M * / M)%R by (field; lra).
  apply Rmult_lt_compat_r; trivial. now apply Rinv_0_lt_compat.
Qed.

Lemma div_gt_real a b M : (0 < M -> b * M < a -> b < a / M)%R.
Proof.
  intros HM H. unfold Rdiv.
  replace b with (b * M * / M)%R by (field; lra).
  apply Rmult_lt_compat_r; trivial. now apply Rinv_0_lt_compat.
Qed.

Lemma new_location_position m2 q r :
  0 < m2 -> 0 <= r < m2 ->
  position q (new_location m2 r) (IZR (q * m2 + r) / IZR m2).
Proof.
  intros Hm Hr.
  assert (HM : (0 < IZR m2)%R) by (apply IZR_lt; lia).
  assert (E : (IZR (q * m2 + r) / IZR m2 = IZR q + IZR r / IZR m2)%R).
  { rewrite plus_IZR, mult_IZR. field. lra. }
  rewrite E.
  assert (Hr0 : 0 < r -> (0 < IZR r / IZR m2)%R).
  { intros H. apply div_gt_real; trivial. rewrite Rmult_0_l. apply IZR_lt. lia. }
  assert (Hr1 : (IZR r / IZR m2 < 1)%R).
  { apply div_lt_real; trivial. rewrite Rmult_1_l. apply IZR_lt. lia. }
  assert (Hlt : 2 * r < m2 -> (IZR r / IZR m2 < / 2)%R).
  { intros H. apply div_lt_real; trivial.
    apply IZR_lt in H. rewrite mult_IZR in H. lra. }
  assert (Hgt : m2 < 2 * r -> (/ 2 < IZR r / IZR m2)%R).
  { intros H. apply div_gt_real; trivial.
    apply IZR_lt in H. rewrite mult_IZR in H. lra. }
  assert (Heq : 2 * r = m2 -> (IZR r / IZR m2 = / 2)%R).
  { intros H. rewrite <- H, mult_IZR. field.
    intros H0. rewrite <- H, mult_IZR in HM. lra. }
  unfold new_location, new_location_even, new_location_odd.
  destruct (Z.even m2) eqn:Ev; destruct (Z.eqb_spec r 0) as [->|Hne];
    cbn [position]; try (unfold Rdiv; lra).
  - destruct (Z.compare_spec (2 * r) m2) as [H|H|H]; cbn [position].
    + specialize (Heq H). lra.
    + specialize (Hlt H). specialize (Hr0 ltac:(lia)). lra.
    + specialize (Hgt H). lra.
  - assert (Ho : 2 * r <> m2).
    { intros <-. rewrite Z.even_mul in Ev. discriminate. }
    destruct (Z.compare_spec (2 * r + 1) m2) as [H|H|H]; cbn [position].
    + specialize (Hlt ltac:(lia)). specialize (Hr0 ltac:(lia)). lra.
    + specialize (Hlt ltac:(lia)). specialize (Hr0 ltac:(lia)). lra.
    + specialize (Hgt ltac:(lia)). lra.
Qed.

Lemma SFdiv_core_located m1 e1 m2 e2 :
  0 < m1 -> 0 < m2 ->
  let '(q, e', l) := SFdiv_core_binary prec emax m1 e1 m2 e2 in
  0 <= q /\ located q e' l (val m1 e1 / val m2 e2) /\
  e' <= SpecFloat.fexp prec emax (Zdigits2 q + e').
Proof.
  intros H1 H2. unfold SFdiv_core_binary.
  set (D := Zdigits2 m1 + e1 - (Zdigits2 m2 + e2)).
  set (e' := Z.min (SpecFloat.fexp prec emax D) (e1 - e2)).
  set (s := e1 - e2 - e').
  assert (Hs : 0 <= s) by (unfold s, e'; lia).
  set (m' := match s with 0 => m1 | Zpos _ => Z.shiftl m1 s | Zneg _ => 0 end).
  assert (Em : m' = m1 * 2 ^ s).
  { unfold m'. destruct s as [|p|p] eqn:E; try lia.
    now rewrite Z.shiftl_mul_pow2 by lia. }
  assert (Hp : 0 < 2 ^ s) by (apply Z.pow_pos_nonneg; lia).
  assert (Hm' : 0 < m') by (rewrite Em; lia).
  pose proof (Z_div_mod m' m2 ltac:(lia)) as Hdm.
  change IntDef.Z.div_eucl with Z.div_eucl.
  destruct (Z.div_eucl m' m2) as [q r]. destruct Hdm as [Hq Hr].
  assert (Hq0 : 0 <= q) by nia.
  split; trivial.
  assert (HM : (0 < IZR m2)%R) by (apply IZR_lt; lia).
  pose proof (B2_pos e2) as Hb2. pose proof (B2_pos e') as Hbe.
  split.
  - unfold located.
    replace (val m1 e1 / val m2 e2 * B2 (- e'))%R
      with (IZR (q * m2 + r) / IZR m2)%R.
    + apply new_location_position; lia.
    + replace (q * m2 + r) with m' by lia. rewrite Em, mult_IZR.
      rewrite <- (B2_IZR s) by trivial. unfold val.
      replace e1 with (s + e2 + e') at 1 by (unfold s; lia).
      rewrite !B2_add, B2_opp. pose proof (B2_pos s).
      field. repeat split; lra.
  - destruct (Zdigits2_bounds m1 H1) as [Hl1 Hu1].
    destruct (Zdigits2_bounds m2 H2) as [Hl2 Hu2].
    pose proof (Zdigits2_pos m1 H1) as Hd1.
    pose proof (Zdigits2_pos m2 H2) as Hd2.
    assert (He' : e' <= SpecFloat.fexp prec emax D) by (unfold e'; lia).
    destruct (Z.eq_dec q 0) as [->|Hqn].
    + (* the quotient underflows: the exponent is the smallest one *)
      simpl Zdigits2.
      assert (SpecFloat.fexp prec emax D = (SpecFloat.emin prec emax)).
      { destruct (Z.eq_dec (SpecFloat.fexp prec emax D) (SpecFloat.emin prec emax)) as [|Hne]; trivial. exfalso.
        assert (Hf : SpecFloat.fexp prec emax D = D - prec) by (unfold SpecFloat.fexp in *; lia).
        assert (Hs' : prec - Zdigits2 m1 + Zdigits2 m2 <= s)
          by (unfold s, D in *; lia).
        assert (2 ^ (prec - 1 + Zdigits2 m2) <= m').
        { rewrite Em.
          apply Z.le_trans with (2 ^ (Zdigits2 m1 - 1) * 2 ^ s).
          - rewrite <- Z.pow_add_r by lia. apply Z.pow_le_mono_r; lia.
          - apply Z.mul_le_mono_nonneg_r; lia. }
        assert (2 ^ Zdigits2 m2 <= 2 ^ (prec - 1 + Zdigits2 m2))
          by (apply Z.pow_le_mono_r; unfold prec; lia).
        lia. }
      unfold SpecFloat.fexp in *. lia.
    + assert (Hq1 : 0 < q) by lia.
      assert (Hdq : D <= Zdigits2 q + e').
      { pose proof (Zdigits2_pos q Hq1) as Hdq.
        set (k := Zdigits2 m1 - 1 + s - Zdigits2 m2).
        destruct (Z_le_gt_dec 0 k) as [Hk|Hk].
        - assert (2 ^ k <= q).
          { assert (2 ^ k * 2 ^ Zdigits2 m2 <= m').
            { rewrite Em, <- Z.pow_add_r by lia.
              apply Z.le_trans with (2 ^ (Zdigits2 m1 - 1) * 2 ^ s).
              - rewrite <- Z.pow_add_r by lia. apply Z.pow_le_mono_r; unfold k; lia.
              - apply Z.mul_le_mono_nonneg_r; lia. }
            assert (0 < 2 ^ k) by (apply Z.pow_pos_nonneg; lia).
            destruct (Z_le_gt_dec (2 ^ k) q) as [|Hgt]; trivial. exfalso.
            assert ((q + 1) * m2 <= 2 ^ k * m2)
              by (apply Z.mul_le_mono_nonneg_r; lia).
            assert (2 ^ k * m2 < 2 ^ k * 2 ^ Zdigits2 m2)
              by (apply Z.mul_lt_mono_pos_l; lia).
            lia. }
          pose proof (Zdigits2_ge q k ltac:(assumption) Hk).
          unfold k, s, D in *. lia.
        - unfold k, s, D in *. lia. }
      unfold SpecFloat.fexp in *. lia.
Qed.

Lemma signed_div s1 s2 a b :
  (b <> 0)%R -> signed (xorb s1 s2) (a / b) = (signed s1 a / signed s2 b)%R.
Proof. intros H. destruct s1, s2; simpl; field; trivial. Qed.

Lemma SFdiv_nearest x y :
  SFfin x = true ->
  match y with S754_finite _ _ _ => True | _ => False end ->
  SFnan (SF64div x y) = false /\
  nearest (SFR (SF64div x y)) (SFR x / SFR y).
Proof.
  intros Fx Fy.
  destruct x as [sx|sx| |sx mx ex], y as [sy|sy| |sy my ey];
    try discriminate; try contradiction;
    unfold SF64div; cbn [SFdiv SFR SFnan].
  - split; trivial. unfold Rdiv. rewrite Rmult_0_l. apply nearest_refl, inG_0.
  - pose proof (SFdiv_core_located (Zpos mx) ex (Zpos my) ey
                  ltac:(lia) ltac:(lia)) as H.
    destruct (SFdiv_core_binary prec emax (Zpos mx) ex (Zpos my) ey)
      as [[q e'] l]. destruct H as (Hq & Hl & He).
    pose proof (val_pos (Zpos my) ey ltac:(lia)).
    rewrite <- signed_div by lra. now apply round_nearest.
Qed.

(** *** Addition and subtraction *)
Lemma shl_align_spec m e e' :
  val (Zpos (fst (shl_align m e e'))) (snd (shl_align m e e')) = val (Zpos m) e /\
  (e' <= e ->
   snd (shl_align m e e') = e' /\
   Zpos (fst (shl_align m e e')) = Zpos m * 2 ^ (e - e')) /\
  (e <= e' -> shl_align m e e' = (m, e)).
Proof.
  unfold shl_align. destruct (e' - e) as [|p|p] eqn:E; cbn [fst snd].
  - repeat split; trivial; intros; try lia.
    replace (e - e') with 0 by lia. lia.
  - repeat split; trivial; intros; lia.
  - assert (Hs : Zpos (Pos.iter xO m p) = Zpos m * 2 ^ Zpos p).
    { change (Pos.iter xO m p) with (shift_pos p m).
      rewrite shift_pos_correct, Zpower_pos_nat, Zpower_nat_Z.
      rewrite positive_nat_Z. lia. }
    change (PosDef.Pos.iter xO m p) with (Pos.iter xO m p).
    repeat split; intros; try lia.
    + rewrite Hs, val_shift by lia. f_equal. lia.
    + rewrite Hs. f_equal. f_equal. lia.
Qed.

Lemma binary_round_nearest s m e :
  SFnan (binary_round prec emax s m e) = false /\
  nearest (SFR (binary_round prec emax s m e)) (signed s (val (Zpos m) e)).
Proof.
  unfold binary_round.
  set (e' := SpecFloat.fexp prec emax (Zpos (digits2_pos m) + e)).
  destruct (shl_align_spec m e e') as (Hv & Hle & Hge).
  destruct (shl_align m e e') as [mz ez] eqn:E. cbn [fst snd] in *.
  rewrite <- Hv. apply round_nearest.
  - lia.
  - apply located_exact.
  - destruct (Z_le_gt_dec e' e) as [H|H].
    + destruct (Hle H) as [-> Hm]. rewrite Hm.
      rewrite Zdigits2_shift by lia. simpl Zdigits2.
      replace (Zpos (digits2_pos m) + (e - e') + e')
        with (Zpos (digits2_pos m) + e) by lia.
      fold e'. lia.
    + specialize (Hge ltac:(lia)). injection Hge as -> ->.
      simpl Zdigits2. fold e'. lia.
Qed.

Lemma binary_normalize_nearest M e sz :
  SFnan (binary_normalize prec emax M e sz) = false /\
  nearest (SFR (binary_normalize prec emax M e sz)) (val M e).
Proof.
  destruct M as [|m|m]; cbn [binary_normalize].
  - split; trivial. cbn [SFR]. rewrite val_0. apply nearest_refl, inG_0.
  - apply (binary_round_nearest false m e).
  - change (Zneg m) with (- Zpos m). rewrite val_opp.
    apply (binary_round_nearest true m e).
Qed.

Lemma aligned_val s m e ez :
  ez <= e ->
  val (cond_Zopp s (Zpos (fst (shl_align m e ez)))) ez = signed s (val (Zpos m) e).
Proof.
  intros H. rewrite val_cond_Zopp. f_equal.
  destruct (shl_align_spec m e ez) as (Hv & Hle & _).
  destruct (Hle H) as [E _]. now rewrite E in Hv.
Qed.

Lemma signed_negb s x : signed (negb s) x = (- signed s x)%R.
Proof. destruct s; simpl; lra. Qed.

Lemma SFsub_nearest x y :
  valid_binary x = true -> valid_binary y = true ->
  SFfin x = true -> SFfin y = true ->
  SFnan (SF64sub x y) = false /\
  nearest (SFR (SF64sub x y)) (SFR x - SFR y).
Proof.
  intros Vx Vy Fx Fy.
  destruct x as [sx|sx| |sx mx ex], y as [sy|sy| |sy my ey]; try discriminate;
    unfold SF64sub; cbn [SFsub].
  - split; [now destruct sx, sy|].
    replace (SFR (S754_zero sx) - SFR (S754_zero sy))%R with 0%R
      by (cbn [SFR]; lra).
    replace (SFR _) with 0%R by (now destruct sx, sy).
    apply nearest_refl, inG_0.
  - split; trivial.
    replace (SFR (S754_zero sx) - SFR (S754_finite sy my ey))%R
      with (SFR (S754_finite (negb sy) my ey))
      by (cbn [SFR]; rewrite signed_negb; lra).
    apply nearest_refl. cbn [SFR]. rewrite signed_negb.
    apply inG_opp. apply (valid_inG _ Vy).
  - split; trivial.
    replace (SFR (S754_finite sx mx ex) - SFR (S754_zero sy))%R
      with (SFR (S754_finite sx mx ex)) by (cbn [SFR]; lra).
    apply nearest_refl. now apply valid_inG.
  - cbn [SFR]. rewrite <- (aligned_val sx mx ex (Z.min ex ey)) by lia.
    rewrite <- (aligned_val sy my ey (Z.min ex ey)) by lia.
    rewrite <- val_sub. apply binary_normalize_nearest.
Qed.

Lemma SFadd_nearest x y :
  valid_binary x = true -> valid_binary y = true ->
  SFfin x = true -> SFfin y = true ->
  SFnan (SF64add x y) = false /\
  nearest (SFR (SF64add x y)) (SFR x + SFR y).
Proof.
  intros Vx Vy Fx Fy.
  destruct x as [sx|sx| |sx mx ex], y as [sy|sy| |sy my ey]; try discriminate;
    unfold SF64add; cbn [SFadd].
  - split; [now destruct sx, sy|].
    replace (SFR (S754_zero sx) + SFR (S754_zero sy))%R with 0%R
      by (cbn [SFR]; lra).
    replace (SFR _) with 0%R by (now destruct sx, sy).
    apply nearest_refl, inG_0.
  - split; trivial.
    replace (SFR (S754_zero sx) + SFR (S754_finite sy my ey))%R
      with (SFR (S754_finite sy my ey)) by (cbn [SFR]; lra).
    apply nearest_refl. now apply valid_inG.
  - split; trivial.
    replace (SFR (S754_finite sx mx ex) + SFR (S754_zero sy))%R
      with (SFR (S754_finite sx mx ex)) by (cbn [SFR]; lra).
    apply nearest_refl. now apply valid_inG.
  - cbn [SFR]. rewrite <- (aligned_val sx mx ex (Z.min ex ey)) by lia.
    rewrite <- (aligned_val sy my ey (Z.min ex ey)) by lia.
    rewrite <- val_add. apply binary_normalize_nearest.
Qed.

(** Bounds that carry over to the rounded result *)
Lemma nearest_le r x g : nearest r x -> inG g -> (x <= g)%R -> (r <= g)%R.
Proof.
  intros [_ B] Hg Hx. destruct (Rle_lt_dec r g) as [|Hlt]; trivial.
  destruct (B g Hg) as [H _]. specialize (H Hlt). lra.
Qed.

Lemma nearest_ge r x g : nearest r x -> inG g -> (g <= x)%R -> (g <= r)%R.
Proof.
  intros [_ B] Hg Hx. destruct (Rle_lt_dec g r) as [|Hlt]; trivial.
  destruct (B g Hg) as [_ H]. specialize (H Hlt). lra.
Qed.

(** ** Distances that are numbers *)

Lemma is_nan_SF x : is_nan x = SFnan (Prim2SF x).
Proof.
  unfold is_nan. rewrite eqb_spec. unfold SFeqb.
  destruct (Prim2SF x) as [s|s| |s m e]; simpl; trivial.
  - now destruct s.
  - rewrite Z.compare_refl, Pos.compare_cont_refl. now destruct s.
Qed.

Lemma is_infinity_SF x :
  is_infinity x = match Prim2SF x with S754_infinity _ => true | _ => false end.
Proof.
  unfold is_infinity. rewrite eqb_spec, abs_spec. unfold SFeqb.
  change (Prim2SF infinity) with (S754_infinity false).
  now destruct (Prim2SF x) as [s|s| |s m e].
Qed.

Lemma is_zero_SF x :
  is_zero x = match Prim2SF x with S754_zero _ => true | _ => false end.
Proof.
  unfold is_zero. rewrite eqb_spec. unfold SFeqb.
  change (Prim2SF zero) with (S754_zero false).
  destruct (Prim2SF x) as [s|s| |s m e]; simpl; trivial; now destruct s.
Qed.

Lemma is_finite_SF x : is_finite x = SFfin (Prim2SF x).
Proof.
  unfold is_finite. rewrite is_nan_SF, is_infinity_SF.
  now destruct (Prim2SF x).
Qed.

Lemma B2_emax_gt : (2 < B2 emax)%R.
Proof.
  replace 2%R with (B2 1) by (unfold B2; simpl; lra).
  apply B2_lt. reflexivity.
Qed.

Lemma Rabs_bound a b : (Rabs a <= b -> - b <= a <= b)%R.
Proof. unfold Rabs. destruct (Rcase_abs a); lra. Qed.

Lemma inG_small g m : Z.abs m < 2 ^ prec -> g = IZR m -> (Rabs g <= 2)%R -> inG g.
Proof.
  intros Hm -> Hb. exists m, 0. unfold val. rewrite B2_0.
  pose proof B2_emax_gt. apply Rabs_bound in Hb.
  repeat split; trivial; try lra. unfold SpecFloat.emin, prec, emax; lia.
Qed.

Lemma inG_1 : inG 1.
Proof. apply (inG_small 1 1); [reflexivity|reflexivity|]. rewrite Rabs_R1. lra. Qed.

Lemma inG_m1 : inG (-1).
Proof. replace (-1)%R with (- (1))%R by lra. apply inG_opp, inG_1. Qed.

Lemma FR_1 : FR 1 = 1%R.
Proof.
  unfold FR. change (Prim2SF 1) with (S754_finite false (2 ^ 52) (-52)).
  cbn [SFR signed]. change (Zpos (2 ^ 52)) with (2 ^ 52).
  rewrite val_pow by lia. reflexivity.
Qed.

Lemma FR_m1 : FR (-1) = (-1)%R.
Proof.
  unfold FR. change (Prim2SF (-1)) with (S754_finite true (2 ^ 52) (-52)).
  cbn [SFR signed]. change (Zpos (2 ^ 52)) with (2 ^ 52).
  rewrite val_pow by lia. reflexivity.
Qed.

Lemma FR_0 : FR 0 = 0%R.
Proof. reflexivity. Qed.

Lemma number_1 : number 1.
Proof. reflexivity. Qed.

(** Comparisons of floats and of their values *)
Lemma leb_FR x y : (x <=? y)%float = true ->
  number x /\ number y /\ (FR x <= FR y)%R.
Proof.
  rewrite leb_spec. apply SFleb_R; apply Prim2SF_valid.
Qed.

Lemma FR_leb x y : number x -> number y -> (FR x <= FR y)%R ->
  (x <=? y)%float = true.
Proof.
  intros Nx Ny H. rewrite leb_spec. unfold SFleb.
  destruct (SFcompare_some _ _ Nx Ny) as [[| |] Hc]; rewrite Hc; trivial.
  pose proof (SFcompare_Gt_R _ _ (Prim2SF_valid x) (Prim2SF_valid y) Hc).
  unfold FR in H. lra.
Qed.

Lemma not_ltb_FR x y : number x -> number y -> (x <? y)%float = false ->
  (FR y <= FR x)%R.
Proof.
  intros Nx Ny H. destruct (Rle_lt_dec (FR y) (FR x)) as [|Hlt]; trivial.
  rewrite ltb_spec in H.
  rewrite (SFR_lt_ltb _ _ (Prim2SF_valid x) (Prim2SF_valid y) Nx Ny Hlt) in H.
  discriminate.
Qed.

Lemma unit_fin x : in_unit x -> SFfin (Prim2SF x) = true.
Proof.
  intros [N H]. unfold number, FR in *. pose proof B2_emax_gt.
  destruct (Prim2SF x) as [s|s| |s m e]; try discriminate; trivial.
  destruct s; cbn [SFR signed] in H; lra.
Qed.

Lemma Rmult_unit a b : (-1 <= a <= 1 -> -1 <= b <= 1 -> -1 <= a * b <= 1)%R.
Proof.
  intros Ha Hb. apply Rabs_bound.
  rewrite Rabs_mult. replace 1%R with (1 * 1)%R by lra.
  apply Rmult_le_compat; try apply Rabs_pos; now apply Rabs_le.
Qed.

Lemma Rmult_unit_pos a b : (0 <= a <= 1 -> 0 <= b <= 1 -> 0 <= a * b <= 1)%R.
Proof.
  intros Ha Hb. split.
  - apply Rmult_le_pos; lra.
  - replace 1%R with (1 * 1)%R by lra. apply Rmult_le_compat; lra.
Qed.

Lemma mul_nearest x y :
  SFfin (Prim2SF x) = true -> SFfin (Prim2SF y) = true ->
  number (x * y) /\ nearest (FR (x * y)) (FR x * FR y).
Proof.
  intros Fx Fy. unfold number, FR. rewrite mul_spec.
  apply SFmul_nearest; trivial; apply Prim2SF_valid.
Qed.

Lemma mul_unit x y : in_unit x -> in_unit y -> in_unit (x * y)%float.
Proof.
  intros Hx Hy.
  destruct (mul_nearest x y (unit_fin x Hx) (unit_fin y Hy)) as [N Hn].
  destruct Hx as [_ Hx], Hy as [_ Hy]. pose proof (Rmult_unit _ _ Hx Hy).
  split; trivial. split.
  - apply (nearest_ge _ _ _ Hn inG_m1). lra.
  - apply (nearest_le _ _ _ Hn inG_1). lra.
Qed.

(** Operations that give a number *)
Lemma mul_number_l c x s m e :
  Prim2SF c = S754_finite s m e -> number x -> number (c * x)%float.
Proof.
  intros Ec Nx. unfold number in *.
  destruct (Prim2SF x) as [sx|sx| |sx mx ex] eqn:Ex; try discriminate.
  - rewrite mul_spec, Ec, Ex. reflexivity.
  - rewrite mul_spec, Ec, Ex. reflexivity.
  - apply mul_nearest; now rewrite ?Ec, ?Ex.
Qed.

Lemma mul_number_r c x s m e :
  Prim2SF c = S754_finite s m e -> number x -> number (x * c)%float.
Proof.
  intros Ec Nx. unfold number in *.
  destruct (Prim2SF x) as [sx|sx| |sx mx ex] eqn:Ex; try discriminate.
  - rewrite mul_spec, Ec, Ex. reflexivity.
  - rewrite mul_spec, Ec, Ex. reflexivity.
  - apply mul_nearest; now rewrite ?Ec, ?Ex.
Qed.

Lemma div_number_r c x s m e :
  Prim2SF c = S754_finite s m e -> number x -> number (x / c)%float.
Proof.
  intros Ec Nx. unfold number in *. rewrite div_spec, Ec.
  destruct (Prim2SF x) as [sx|sx| |sx mx ex] eqn:Ex; try discriminate;
    try reflexivity.
  now apply SFdiv_nearest.
Qed.

Lemma sub_number x y :
  SFfin (Prim2SF x) = true -> SFfin (Prim2SF y) = true -> number (x - y)%float.
Proof.
  intros Fx Fy. unfold number. rewrite sub_spec.
  apply SFsub_nearest; trivial; apply Prim2SF_valid.
Qed.

Lemma add_number x y :
  SFfin (Prim2SF x) = true -> SFfin (Prim2SF y) = true -> number (x + y)%float.
Proof.
  intros Fx Fy. unfold number. rewrite add_spec.
  apply SFadd_nearest; trivial; apply Prim2SF_valid.
Qed.

Lemma sub_number_l c y s m e :
  Prim2SF c = S754_finite s m e -> number y -> number (c - y)%float.
Proof.
  intros Ec Ny. unfold number in *.
  destruct (Prim2SF y) as [sy|sy| |sy my ey] eqn:Ey; try discriminate.
  - apply sub_number; now rewrite ?Ec, ?Ey.
  - rewrite sub_spec, Ec, Ey. reflexivity.
  - apply sub_number; now rewrite ?Ec, ?Ey.
Qed.

(** What the wrappers of [math] let through *)
Lemma math_1_number f x r : math_1 f x = Returned r -> number x -> number r.
Proof.
  unfold math_1, number. rewrite <- !is_nan_SF. intros H Nx.
  rewrite Nx in H. simpl negb in H. rewrite andb_true_r in H.
  destruct (is_nan (f x)) eqn:E; [discriminate|].
  destruct (_ && _); [discriminate|]. now injection H as <-.
Qed.

Lemma math_2_number f x y r :
  math_2 f x y = Returned r -> number x -> number y -> number r.
Proof.
  unfold math_2, number. rewrite <- !is_nan_SF. intros H Nx Ny.
  rewrite Nx, Ny in H. simpl negb in H. rewrite !andb_true_r in H.
  destruct (is_nan (f x y)) eqn:E; [discriminate|].
  destruct (_ && _ && _); [discriminate|]. now injection H as <-.
Qed.

Section Range.

Variable P : Platform.
Hypothesis Hunit : unit_range P.
Hypothesis Hsq : square_in_unit P.

Lemma between_unit r :
  number r -> (r <? -1)%float = false -> (1 <? r)%float = false -> in_unit r.
Proof.
  intros N H1 H2. split; trivial.
  apply not_ltb_FR in H1; trivial; [|reflexivity].
  apply not_ltb_FR in H2; trivial; [|reflexivity].
  rewrite FR_m1 in H1. rewrite FR_1 in H2. lra.
Qed.

Lemma math_sin_unit x r : math_sin P x = Returned r -> number x -> in_unit r.
Proof.
  intros H Nx. pose proof (math_1_number _ _ _ H Nx) as Nr.
  apply math_1_value in H. subst r.
  destruct (Hunit x) as [[H1 H2] _]. now apply between_unit.
Qed.

Lemma math_cos_unit x r : math_cos P x = Returned r -> number x -> in_unit r.
Proof.
  intros H Nx. pose proof (math_1_number _ _ _ H Nx) as Nr.
  apply math_1_value in H. subst r.
  destruct (Hunit x) as [_ [H1 H2]]. now apply between_unit.
Qed.

Lemma FR_abs x : FR (abs x) = Rabs (FR x) /\ (number x -> number (abs x)).
Proof.
  unfold FR, number. rewrite abs_spec.
  destruct (Prim2SF x) as [s|s| |s m e]; cbn [SFabs SFR SFnan signed];
    (split; [|trivial]).
  - now rewrite Rabs_R0.
  - pose proof (B2_pos emax). destruct s; cbn [signed];
      [rewrite Rabs_Ropp|]; rewrite Rabs_pos_eq; lra.
  - now rewrite Rabs_R0.
  - pose proof (val_pos (Zpos m) e ltac:(lia)). destruct s; cbn [signed];
      [rewrite Rabs_Ropp|]; rewrite Rabs_pos_eq; lra.
Qed.

Lemma float_pow2_unit s p :
  float_pow2 P s = Returned p -> in_unit s -> number p /\ (0 <= FR p <= 1)%R.
Proof.
  unfold float_pow2. intros H Hs. pose proof (unit_fin s Hs) as Fs.
  destruct Hs as [Ns Hs].
  rewrite is_nan_SF, Ns in H.
  rewrite is_infinity_SF in H.
  destruct (Prim2SF s) as [ss|ss| |ss ms es] eqn:Es; try discriminate.
  - rewrite is_zero_SF, Es in H. injection H as <-.
    split; [reflexivity|]. change (FR zero) with 0%R. lra.
  - rewrite is_zero_SF, Es in H.
    destruct (abs s =? 1)%float.
    + injection H as <-. split; [reflexivity|]. rewrite FR_1. lra.
    + destruct (is_infinity (libm_pow P (abs s) 2)); [discriminate|].
      injection H as <-.
      destruct (FR_abs s) as [Ea Na]. specialize (Na Ns).
      assert (Hr : (0 <= FR (abs s) <= 1)%R).
      { rewrite Ea. split; [apply Rabs_pos | now apply Rabs_le]. }
      destruct (Hsq (abs s)) as [H1 H2].
      * apply FR_leb; trivial; [reflexivity | rewrite FR_0; lra].
      * apply FR_leb; trivial; [reflexivity | rewrite FR_1; lra].
      * apply leb_FR in H1 as (_ & N & H1). apply leb_FR in H2 as (_ & _ & H2).
        rewrite FR_0 in H1. rewrite FR_1 in H2. auto.
Qed.

End Range.

Lemma finite_constant c :
  SFfin (Prim2SF c) = true -> is_zero c = false ->
  exists s m e, Prim2SF c = S754_finite s m e.
Proof.
  rewrite is_zero_SF. destruct (Prim2SF c); try discriminate; eauto.
Qed.

Lemma not_neg_number_leb d : not_neg d -> number d -> (0 <=? d)%float = true.
Proof.
  unfold not_neg, number. rewrite leb_spec.
  change (Prim2SF 0) with (S754_zero false).
  destruct (Prim2SF d) as [s|[]| |[] m e]; simpl; trivial; try contradiction;
    discriminate.
Qed.

Section Distance.

Variable P : Platform.
Hypothesis Hq : atan2_first_quadrant P.
Hypothesis Hunit : unit_range P.
Hypothesis Hsq : square_in_unit P.

Lemma haversine_number a1 o1 a2 o2 d :
  is_finite a1 = true -> is_finite o1 = true ->
  is_finite a2 = true -> is_finite o2 = true ->
  haversine P (Some a1) (Some o1) (Some a2) (Some o2) = Returned d ->
  number d.
Proof.
  rewrite !is_finite_SF. intros Fa1 Fo1 Fa2 Fo2 H.
  destruct (finite_constant degToRad eq_refl eq_refl) as (sr & mr & er & Er).
  destruct (finite_constant 2 eq_refl eq_refl) as (s2' & m2' & e2' & E2).
  destruct (finite_constant 1 eq_refl eq_refl) as (s1' & m1' & e1' & E1).
  destruct (finite_constant 12742 eq_refl eq_refl) as (sk & mk & ek & Ek).
  assert (Nfin : forall x, SFfin (Prim2SF x) = true -> number x).
  { intros x. unfold number. now destruct (Prim2SF x). }
  unfold haversine in H. cbn [math_radians float_sub bind] in H.
  repeat match type of H with
         | bind _ _ = Returned _ =>
             let x := fresh "x" in let E := fresh "E" in
             apply bind_Returned in H as (x & E & H)
         end.
  injection H as <-.
  match goal with
  | Es1 : math_sin P _ = Returned ?s1, Ep1 : float_pow2 P ?s1 = Returned ?p1,
    Ec1 : math_cos P (a1 * _) = Returned ?c1,
    Ec2 : math_cos P (a2 * _) = Returned ?c2,
    Es2 : math_sin P ((o2 - o1) * _ / _) = Returned ?s2,
    Ep2 : float_pow2 P ?s2 = Returned ?p2,
    Eq1 : math_sqrt _ = Returned ?q1, Eq2 : math_sqrt (1 - _) = Returned ?q2,
    Et : math_atan2 P ?q1 ?q2 = Returned ?t |- _ =>
      assert (Us1 : in_unit s1);
      [ apply (math_sin_unit P Hunit _ _ Es1);
        apply (div_number_r _ _ _ _ _ E2), (mul_number_r _ _ _ _ _ Er);
        now apply sub_number |];
      assert (Us2 : in_unit s2);
      [ apply (math_sin_unit P Hunit _ _ Es2);
        apply (div_number_r _ _ _ _ _ E2), (mul_number_r _ _ _ _ _ Er);
        now apply sub_number |];
      assert (Uc1 : in_unit c1);
      [ apply (math_cos_unit P Hunit _ _ Ec1);
        apply (mul_number_r _ _ _ _ _ Er); now apply Nfin |];
      assert (Uc2 : in_unit c2);
      [ apply (math_cos_unit P Hunit _ _ Ec2);
        apply (mul_number_r _ _ _ _ _ Er); now apply Nfin |];
      destruct (float_pow2_unit P Hsq _ _ Ep1 Us1) as [Np1 Hp1];
      destruct (float_pow2_unit P Hsq _ _ Ep2 Us2) as [Np2 Hp2];
      assert (Up1 : in_unit p1) by (split; trivial; lra);
      assert (Up2 : in_unit p2) by (split; trivial; lra);
      assert (Na : number (p1 + c1 * c2 * p2)%float);
      [ apply add_number; apply unit_fin; trivial;
        apply mul_unit; trivial; now apply mul_unit |];
      pose proof (math_1_number _ _ _ Eq1 Na) as Nq1;
      pose proof (math_1_number _ _ _ Eq2
                    (sub_number_l _ _ _ _ _ E1 Na)) as Nq2;
      pose proof (math_2_number _ _ _ _ Et Nq1 Nq2) as Nt;
      exact (mul_number_l _ _ _ _ _ Ek Nt)
  end.
Qed.

End Distance.

(** X3. On a platform whose sine and cosine stay in [-1, 1], whose [pow]
    squares the numbers of [0, 1] into [0, 1] and whose [atan2] is not
    negative on the first quadrant, [haversine] either raises one of
    [TypeError], [ValueError] and [OverflowError] or returns a float that
    is not negative; for four finite coordinates what it returns is a
    number, never a NaN: [0 <= d] holds as a comparison of floats. *)
Theorem haversine_outcomes (P : Platform) (lat1 lon1 lat2 lon2 : option float) :
  atan2_first_quadrant P -> unit_range P -> square_in_unit P ->
  match haversine P lat1 lon1 lat2 lon2 with
  | Returned d =>
      not_neg d /\
      (finite_coordinate lat1 -> finite_coordinate lon1 ->
       finite_coordinate lat2 -> finite_coordinate lon2 ->
       (0 <=? d)%float = true)
  | Raised e => e = TypeError \/ e = ValueError \/ e = OverflowError
  end.
Proof.
  intros Hq Hunit Hsq.
  destruct (haversine P lat1 lon1 lat2 lon2) as [d|e] eqn:E.
  - pose proof (haversine_not_neg _ _ _ _ _ _ Hq E) as Hn. split; trivial.
    destruct lat1 as [a1|], lon1 as [o1|], lat2 as [a2|], lon2 as [o2|];
      simpl; try contradiction.
    intros F1 F2 F3 F4. apply not_neg_number_leb; trivial.
    now apply (haversine_number P Hunit Hsq a1 o1 a2 o2).
  - now apply haversine_raises in E.
Qed.

(** *** Monotone operations *)












(** ** The score is monotone *)
























(** ** Scores above the sentinel *)









Section Taken.

Variable P : Platform.



End Taken.





Lemma run_tasks_untouched (P : Platform) : forall ts db out,
  match run_tasks P ts db out with
  | (Returned _, db') =>
      exists new,
        assignments db' = assignments db ++ new /\ (new = [] -> db' = db)
  | (Raised _, _) => True
  end.
Proof.
  induction ts as [|t ts IH]; simpl; intros db out.
  - exists []. now rewrite app_nil_r.
  - destruct (schedule_task P db t) as [[db1 o]|e] eqn:E; trivial.
    specialize (IH db1 (out ++ o)).
    destruct (run_tasks P ts db1 (out ++ o)) as [[out'|e] db']; trivial.
    destruct IH as (new & HA & Hnew).
    apply schedule_task_cases in E
      as [[-> ->] | (r & d & eta & _ & _ & _ & _ & _ & -> & ->)].
    + now exists new.
    + simpl in HA. rewrite <- app_assoc in HA. eexists. split; [exact HA|].
      discriminate.
Qed.

(** X8. [run_scheduler] answers with an empty list exactly when the pass
    left the database as it was. *)
Theorem empty_report_means_untouched (P : Platform) (db : Db) :
  match run_scheduler P db with
  | (Returned (out, n), db') => out = [] <-> db' = db
  | (Raised _, _) => True
  end.
Proof.
  unfold run_scheduler, greedy_scheduler.
  pose proof (run_tasks_entries P db (processing_order db) db [] eq_refl) as H.
  pose proof (run_tasks_untouched P (processing_order db) db []) as H'.
  destruct (run_tasks P (processing_order db) db []) as [[out|e] db']; trivial.
  destruct H as (outn & new & -> & HA & HF).
  { intros t Ht. now apply (Permutation_in _
                              (Permutation_sym (processing_order_perm db))). }
  destruct H' as (new' & HA' & Hnew).
  assert (new' = new) as -> by (apply (app_inv_head (assignments db)); congruence).
  simpl. split.
  - intros ->. inversion HF; subst. now apply Hnew.
  - intros ->. assert (new = []) as ->.
    { apply (app_inv_head (assignments db)). now rewrite app_nil_r. }
    now inversion HF.
Qed.

(** ** The theorems above at work *)

Lemma depot_keys :
  resource_ids_unique Depot.db /\ task_ids_unique Depot.db /\
  assignment_ids_unique Depot.db.
Proof.
  unfold resource_ids_unique, task_ids_unique, assignment_ids_unique; simpl.
  repeat split; repeat constructor; simpl; intuition discriminate.
Qed.

Lemma depot_consistent : tasks_consistent Depot.db.
Proof.
  split; [apply depot_keys|]. split; [intros a []|].
  split; [intros t a _ []|]. constructor.
Qed.

Lemma depot_rows_refer : rows_refer Depot.db.
Proof. intros a []. Qed.

Lemma depot_within_capacity : within_capacity Depot.db.
Proof.
  intros r Hr. unfold current_load, count_rows. simpl in *.
  destruct Hr as [<- | [<- | [<- | []]]]; simpl; lia.
Qed.

Lemma sentinel_consistent : tasks_consistent Sentinel.db.
Proof.
  split; [repeat constructor; simpl; tauto|]. split; [intros a []|].
  split; [intros t a _ []|]. constructor.
Qed.

Lemma primary_keys_stay_unique_witness :
  task_ids_unique Depot.db /\ assignment_ids_unique Depot.db /\
  task_ids_unique
    (serve small_angle [POST_add_task (Depot.body 7); POST_schedule] Depot.db).
Proof.
  destruct depot_keys as (_ & Ht & Ha).
  split; [exact Ht|]. split; [exact Ha|].
  exact (proj1 (primary_keys_stay_unique small_angle _ Depot.db Ht Ha)).
Defined.

Lemma references_stay_valid_witness :
  rows_refer Depot.db /\
  rows_refer
    (serve small_angle [POST_add_task (Depot.body 7); POST_schedule] Depot.db).
Proof.
  split; [exact depot_rows_refer|].
  exact (references_stay_valid small_angle _ Depot.db depot_rows_refer).
Defined.

Lemma one_assignment_per_task_witness :
  tasks_consistent Depot.db /\
  one_row_per_task
    (serve small_angle [POST_schedule; POST_add_task (Depot.body 7)] Depot.db).
Proof.
  split; [exact depot_consistent|].
  exact (proj1 (one_assignment_per_task small_angle _ Depot.db depot_consistent)).
Defined.

Lemma clamped_first_quadrant : atan2_first_quadrant clamped.
Proof. intros y x Hy _. exact Hy. Qed.

Lemma clamped_unit_range : unit_range clamped.
Proof.
  intros x. split; [|split; reflexivity]. simpl.
  destruct (x <? -1)%float eqn:E1, (1 <? x)%float eqn:E2; simpl;
    split; trivial.
Qed.

Lemma clamped_square_in_unit : square_in_unit clamped.
Proof.
  intros v H0 H1. simpl.
  apply leb_FR in H0 as (_ & N & H0). apply leb_FR in H1 as (_ & _ & H1).
  rewrite FR_0 in H0. rewrite FR_1 in H1.
  assert (U : in_unit v) by (split; trivial; lra).
  destruct (mul_nearest v v (unit_fin v U) (unit_fin v U)) as [Nm Hn].
  pose proof (Rmult_unit_pos _ _ (conj H0 H1) (conj H0 H1)) as Hp.
  split; apply FR_leb; trivial; try reflexivity.
  - rewrite FR_0. apply (nearest_ge _ _ _ Hn inG_0). lra.
  - rewrite FR_1. apply (nearest_le _ _ _ Hn inG_1). lra.
Qed.

Lemma haversine_outcomes_witness :
  atan2_first_quadrant clamped /\ unit_range clamped /\
  square_in_unit clamped /\
  not_neg 6.4464293730956559%float /\
  (0 <=? 6.4464293730956559)%float = true.
Proof.
  split; [exact clamped_first_quadrant|].
  split; [exact clamped_unit_range|].
  split; [exact clamped_square_in_unit|].
  pose proof (haversine_outcomes clamped
                (Some 17.435%float) (Some 78.444%float)
                (Some 17.45%float) (Some 78.5%float)
                clamped_first_quadrant clamped_unit_range
                clamped_square_in_unit) as H.
  change (not_neg 6.4464293730956559%float /\
          (finite_coordinate (Some 17.435%float) ->
           finite_coordinate (Some 78.444%float) ->
           finite_coordinate (Some 17.45%float) ->
           finite_coordinate (Some 78.5%float) ->
           (0 <=? 6.4464293730956559)%float = true)) in H.
  destruct H as [H1 H2]. split; [exact H1|].
  apply H2; reflexivity.
Defined.






Lemma eta_at_least_five_witness :
  atan2_first_quadrant small_angle /\
  exists new,
    assignments (serve small_angle [POST_schedule] Depot.db)
      = assignments Depot.db ++ new /\
    Forall (fun a => 5 <= Assignment.eta_minutes a < 2 ^ 63) new.
Proof.
  split; [exact small_angle_first_quadrant|].
  exact (eta_at_least_five small_angle small_angle_first_quadrant
           [POST_schedule] Depot.db).
Defined.

Lemma select_takes_first_best_witness :
  select small_angle Depot.db (Depot.job 2 9)
    = Returned {| best := Some (Depot.team 1 "Team A" 1);
                  best_score := 0.54000000000000004;
                  best_dist := Some 0%float |} /\
  exists before after,
    resources Depot.db = before ++ Depot.team 1 "Team A" 1 :: after /\
    feasible Depot.db (Depot.team 1 "Team A" 1).
Proof.
  assert (H : select small_angle Depot.db (Depot.job 2 9)
    = Returned {| best := Some (Depot.team 1 "Team A" 1);
                  best_score := 0.54000000000000004;
                  best_dist := Some 0%float |}) by (vm_compute; reflexivity).
  split; trivial.
  destruct (select_takes_first_best small_angle Depot.db _ _ H)
    as (before & after & E & Hf & _).
  now exists before, after.
Defined.

Lemma pass_stops_at_exception_witness :
  processing_order Stray.db = [Depot.job 1 9] ++ Stray.nowhere :: [] /\
  run_tasks small_angle [Depot.job 1 9] Stray.db []
    = (Returned [ {| entry_task := PStr "job"; entry_resource := "Team A";
                     entry_eta := 5 |} ],
       snd (run_tasks small_angle [Depot.job 1 9] Stray.db [])) /\
  schedule_task small_angle
    (snd (run_tasks small_angle [Depot.job 1 9] Stray.db [])) Stray.nowhere
    = Raised TypeError /\
  greedy_scheduler small_angle Stray.db
    = (Raised TypeError,
       snd (run_tasks small_angle [Depot.job 1 9] Stray.db [])).
Proof.
  assert (H1 : processing_order Stray.db
               = [Depot.job 1 9] ++ Stray.nowhere :: []) by reflexivity.
  assert (H2 : run_tasks small_angle [Depot.job 1 9] Stray.db []
    = (Returned [ {| entry_task := PStr "job"; entry_resource := "Team A";
                     entry_eta := 5 |} ],
       snd (run_tasks small_angle [Depot.job 1 9] Stray.db [])))
    by (vm_compute; reflexivity).
  assert (H3 : schedule_task small_angle
    (snd (run_tasks small_angle [Depot.job 1 9] Stray.db [])) Stray.nowhere
    = Raised TypeError) by (vm_compute; reflexivity).
  split; [exact H1|]. split; [exact H2|]. split; [exact H3|].
  exact (proj1 (pass_stops_at_exception small_angle Stray.db _ _ _ _ _ _
                  H1 H2 H3)).
Defined.

Lemma accepted_task_is_stored_witness :
  new_task small_angle (Depot.body 7)
    = Returned (PStr "job", PStr "", 0%float, 0%float, 7) /\
  commit_task Depot.db (PStr "job", PStr "", 0%float, 0%float, 7)
    = Returned ({| resources := resources Depot.db;
                   tasks := tasks Depot.db ++ [Depot.job 3 7];
                   assignments := [] |}, 3) /\
  ~ In 3 (map Task.id (tasks Depot.db)).
Proof.
  assert (H1 : new_task small_angle (Depot.body 7)
    = Returned (PStr "job", PStr "", 0%float, 0%float, 7)) by reflexivity.
  assert (H2 : commit_task Depot.db (PStr "job", PStr "", 0%float, 0%float, 7)
    = Returned ({| resources := resources Depot.db;
                   tasks := tasks Depot.db ++ [Depot.job 3 7];
                   assignments := [] |}, 3)) by reflexivity.
  split; [exact H1|]. split; [exact H2|].
  exact (proj1 (accepted_task_is_stored small_angle _ Depot.db _ _ _ H1 H2)).
Defined.

Lemma list_tasks_shows_the_row_witness :
  one_row_per_task (snd (greedy_scheduler small_angle Depot.db)) /\
  resource_ids_unique (snd (greedy_scheduler small_angle Depot.db)) /\
  view_eta (task_view (snd (greedy_scheduler small_angle Depot.db))
              (Task.with_status "assigned" (Depot.job 2 9))) = Some 5 /\
  view_resource (task_view (snd (greedy_scheduler small_angle Depot.db))
                   (Task.with_status "assigned" (Depot.job 2 9)))
    = Some "Team A"%string.
Proof.
  assert (Ho : one_row_per_task (snd (greedy_scheduler small_angle Depot.db))).
  { unfold one_row_per_task.
    change (map Assignment.task_id
              (assignments (snd (greedy_scheduler small_angle Depot.db))))
      with [2; 1].
    repeat constructor; simpl; intuition discriminate. }
  assert (Hu : resource_ids_unique (snd (greedy_scheduler small_angle Depot.db))).
  { unfold resource_ids_unique.
    change (map Resource.id
              (resources (snd (greedy_scheduler small_angle Depot.db))))
      with [1; 2; 3].
    repeat constructor; simpl; intuition discriminate. }
  split; [exact Ho|]. split; [exact Hu|].
  refine (proj2 (list_tasks_shows_the_row
                   (snd (greedy_scheduler small_angle Depot.db))
                   (Task.with_status "assigned" (Depot.job 2 9))
                   {| Assignment.id := 1; Assignment.task_id := 2;
                      Assignment.resource_id := 1;
                      Assignment.eta_minutes := 5 |}
                   (Depot.team 1 "Team A" 1) Ho Hu _ _ _ eq_refl eq_refl)).
  - vm_compute. auto.
  - vm_compute. auto.
  - vm_compute. auto.
Defined.

Lemma pending_task_lists_no_eta_witness :
  tasks_consistent Depot.db /\
  In (task_view Busy.db (Depot.job 4 3))
     (list_tasks (serve small_angle Busy.requests Depot.db)) /\
  view_status (task_view Busy.db (Depot.job 4 3)) = "pending"%string /\
  List.length (assignments Busy.db) = 3%nat /\
  view_resource (task_view Busy.db (Depot.job 4 3)) = None /\
  view_eta (task_view Busy.db (Depot.job 4 3)) = None.
Proof.
  assert (Hin : In (task_view Busy.db (Depot.job 4 3))
                   (list_tasks (serve small_angle Busy.requests Depot.db)))
    by (vm_compute; auto 6).
  assert (Hst : view_status (task_view Busy.db (Depot.job 4 3))
                = "pending"%string) by reflexivity.
  split; [exact depot_consistent|]. split; [exact Hin|].
  split; [exact Hst|]. split; [reflexivity|].
  exact (pending_task_lists_no_eta small_angle Busy.requests Depot.db _
           depot_consistent Hin Hst).
Defined.

Lemma list_resources_loads_add_up_witness :
  resource_ids_unique Busy.db /\ rows_refer Busy.db /\
  List.length (assignments Busy.db) = 3%nat /\
  fold_right Z.add 0 (map shown_current_load (list_resources Busy.db))
  = Z.of_nat (List.length (assignments Busy.db)).
Proof.
  assert (Hu : resource_ids_unique Busy.db).
  { unfold resource_ids_unique.
    change (map Resource.id (resources Busy.db)) with [1; 2; 3].
    repeat constructor; simpl; intuition discriminate. }
  assert (Hr : rows_refer Busy.db)
    by exact (rows_refer_serve small_angle Busy.requests Depot.db
                depot_rows_refer).
  split; [exact Hu|]. split; [exact Hr|]. split; [reflexivity|].
  exact (list_resources_loads_add_up Busy.db Hu Hr).
Defined.

Lemma assignments_bounded_by_capacity_witness :
  resource_ids_unique Depot.db /\ rows_refer Depot.db /\
  within_capacity Depot.db /\
  Z.of_nat (List.length
              (assignments
                 (serve small_angle
                    [POST_schedule; POST_add_task (Depot.body 7)] Depot.db)))
  <= total_capacity Depot.db.
Proof.
  split; [apply depot_keys|]. split; [exact depot_rows_refer|].
  split; [exact depot_within_capacity|].
  exact (assignments_bounded_by_capacity small_angle _ Depot.db
           (proj1 depot_keys) depot_rows_refer depot_within_capacity).
Defined.
